(** * VRPTW route construction: distance/time model and greedy insertion solver

    A shallow embedding of [src/services/vrptwService.ts]
    ([calculateDistance], [generateTimeMatrix], [solveVRPTW]) and of the
    record types of [models/types], followed by the properties of the
    solver that the specification states.

    Numbers.  The source works on JavaScript numbers.  The embedding keeps
    two idealisations apart:
    - coordinates and distances are real numbers ([R]); the trigonometric
      functions are those of the Standard Library;
    - demands, capacities and times (minutes) are integers ([Z]), exact and
      unbounded: the embedding covers the inputs whose demands, capacities
      and times are whole numbers, on which the additions and comparisons of
      the source are exact (up to 2^53).  On decimal values the source
      rounds every sum; the module [Double] holds the sums concerned on
      IEEE doubles, and the properties that need whole numbers say so.
      A read of [timeMatrix[i][j]] past the end of an existing
      row yields [undefined], which the arithmetic of the solver turns into
      [NaN]; this is the only way a non-number enters, and it is modelled by
      the type [number].  A read of a missing row, or of a field of
      [undefined], raises [TypeError]; this is modelled by [result]. *)

From Stdlib Require Import String List ZArith Bool Arith Lia Permutation Sorted.
From Stdlib Require Import Reals Lra.
From Stdlib Require PrimFloat.
Import ListNotations.

Set Implicit Arguments.
Set Warnings "-notation-for-abbreviation".

(** ** Data model ([models/types]) *)

Module Location.
Record t : Type := mk
  { id : string;
    name : string;
    lat : R;
    lng : R;
    demand : Z;
    readyTime : Z;
    dueTime : Z;
    serviceTime : Z }.
End Location.
Notation Location := Location.t.

Module Vehicle.
Record t : Type := mk
  { id : string;
    capacity : Z;
    startLocation : Location;
    endLocation : Location;
    color : string }.
End Vehicle.
Notation Vehicle := Vehicle.t.

Module Route.
Record t : Type := mk
  { vehicleId : string;
    locations : list Location;
    totalDistance : R;
    totalTime : Z;
    feasible : bool;
    infeasibilityReason : string }.
End Route.
Notation Route := Route.t.

Module Solution.
Record t : Type := mk
  { routes : list Route;
    unassignedLocations : list Location;
    totalDistance : R;
    totalTime : Z;
    feasible : bool;
    infeasibilityReasons : list string }.
End Solution.
Notation VRPTWSolution := Solution.t.

(** ** JavaScript values the solver can meet *)

(** The result of arithmetic on matrix entries: an integer, or [NaN] when an
    operand was [undefined]. *)
Inductive number : Type :=
| Num (z : Z)
| NaN.

Definition num_add (a b : number) : number :=
  match a, b with
  | Num x, Num y => Num (x + y)
  | _, _ => NaN
  end.

Definition num_sub (a b : number) : number :=
  match a, b with
  | Num x, Num y => Num (x - y)
  | _, _ => NaN
  end.

(** [a < b] and [a > b]; both are [false] as soon as one side is [NaN]. *)
Definition num_lt (a b : number) : bool :=
  match a, b with
  | Num x, Num y => (x <? y)%Z
  | _, _ => false
  end.

Definition num_gt (a b : number) : bool := num_lt b a.

(** [Number.MAX_VALUE], which is an integer: 2^1024 - 2^971. *)
Definition MAX_VALUE : Z := (2 ^ 1024 - 2 ^ 971)%Z.

Inductive exn : Type := TypeError.

Inductive result (A : Type) : Type :=
| Return (a : A)
| Throw (e : exn).
Arguments Return {A} a.
Arguments Throw {A} e.

Definition bind {A B : Type} (m : result A) (k : A -> result B) : result B :=
  match m with
  | Return a => k a
  | Throw e => Throw e
  end.

Notation "x <- m ;; k" := (bind m (fun x => k))
  (at level 61, m at next level, right associativity).
Notation "' p <- m ;; k" := (bind m (fun x => let p := x in k))
  (at level 61, p pattern, m at next level, right associativity).

(** [arr.findIndex(pred)]: the first index whose element satisfies [pred],
    or [-1]. *)
Fixpoint findIndexFrom {A : Type} (pred : A -> bool) (k : Z) (l : list A) : Z :=
  match l with
  | [] => (-1)%Z
  | x :: l' => if pred x then k else findIndexFrom pred (k + 1)%Z l'
  end.

Definition findIndex {A : Type} (pred : A -> bool) (l : list A) : Z :=
  findIndexFrom pred 0%Z l.

(** ** Distance/time model *)

Section DistanceModel.
Local Open Scope R_scope.

(** [Math.atan2(y, x)] on reals (signed zeros do not exist here). *)
Definition atan2 (y x : R) : R :=
  if Rlt_dec 0 x then atan (y / x)
  else if Rlt_dec x 0 then
         (if Rle_dec 0 y then atan (y / x) + PI else atan (y / x) - PI)
       else if Rlt_dec 0 y then PI / 2
            else if Rlt_dec y 0 then - (PI / 2)
                 else 0.

(** Haversine great-circle distance, in km. *)
Definition calculateDistance (lat1 lon1 lat2 lon2 : R) : R :=
  let R := 6371 in
  let dLat := ((lat2 - lat1) * PI) / 180 in
  let dLon := ((lon2 - lon1) * PI) / 180 in
  let a :=
    sin (dLat / 2) * sin (dLat / 2) +
    cos ((lat1 * PI) / 180) * cos ((lat2 * PI) / 180) * sin (dLon / 2) * sin (dLon / 2) in
  let c := 2 * atan2 (sqrt a) (sqrt (1 - a)) in
  R * c.

(** [Math.round]: the nearest integer, halves rounded up. *)
Definition Math_round (x : R) : Z := Int_part (x + / 2).

(** Travel time in minutes at 50 km/h between two locations. *)
Definition travelMinutes (from to : Location) : Z :=
  let distance :=
    calculateDistance (Location.lat from) (Location.lng from)
                      (Location.lat to) (Location.lng to) in
  Math_round ((distance / 50) * 60).
End DistanceModel.

(** The elements of an array paired with their indices. *)
Definition indexed {A : Type} (l : list A) : list (nat * A) :=
  combine (seq 0 (length l)) l.

(** The two nested loops of [generateTimeMatrix]: row [i] is built for
    [j = 0 .. length - 1]. *)
Definition generateTimeMatrix (locations : list Location) : list (list Z) :=
  map (fun '(i, li) =>
         map (fun '(j, lj) =>
                if Nat.eqb i j then 0%Z else travelMinutes li lj)
             (indexed locations))
      (indexed locations).

(** [matrix[i][j]] when both the row and the column exist. *)
Definition entry (matrix : list (list Z)) (i j : nat) : option Z :=
  match nth_error matrix i with
  | Some row => nth_error row j
  | None => None
  end.

(** ** Greedy insertion solver *)

(** The variables of one customer's search: [bestRouteIndex],
    [bestIncrease], [bestPosition], [assignmentPossible]. *)
Record Search : Type := mkSearch
  { bestRouteIndex : Z;
    bestIncrease : Z;
    bestPosition : Z;
    assignmentPossible : bool }.

Definition initSearch : Search :=
  {| bestRouteIndex := -1;
     bestIncrease := MAX_VALUE;
     bestPosition := -1;
     assignmentPossible := false |}.

(** What the body of the position loop decides for one slot. *)
Inductive verdict : Type :=
| Skipped                      (* an index was -1: [continue] *)
| TooLate                      (* arrival after the customer's due time *)
| DelaysNext                   (* the following stop would be late *)
| Fits (increase : number).    (* all checks passed *)

(** The mutable state of the customer loop. *)
Record State : Type := mkState
  { routes : list Route;
    unassignedLocations : list Location;
    infeasibilityReasons : list string }.

(** [route.infeasibilityReason = reason]. *)
Definition setReason (route : Route) (reason : string) : Route :=
  {| Route.vehicleId := Route.vehicleId route;
     Route.locations := Route.locations route;
     Route.totalDistance := Route.totalDistance route;
     Route.totalTime := Route.totalTime route;
     Route.feasible := Route.feasible route;
     Route.infeasibilityReason := reason |}.

(** [locations.splice(position, 0, customer)]; a position past the end
    appends. *)
Definition splice (position : nat) (customer : Location) (locations : list Location)
  : list Location :=
  firstn position locations ++ customer :: skipn position locations.

(** [routes[index] = route] for an existing index. *)
Fixpoint replaceNth {A : Type} (index : nat) (x : A) (l : list A) : list A :=
  match l, index with
  | [], _ => []
  | _ :: l', O => x :: l'
  | y :: l', S n => y :: replaceNth n x l'
  end.

(** The loop that recomputes a route's distance: the legs
    [locations[i] -> locations[i + 1]] for [i < length - 1], added up from 0
    in route order. *)
Definition legs (locations : list Location) : list (Location * Location) :=
  combine locations (tl locations).

Definition legDistance (leg : Location * Location) : R :=
  calculateDistance (Location.lat (fst leg)) (Location.lng (fst leg))
                    (Location.lat (snd leg)) (Location.lng (snd leg)).

Definition recomputeDistance (locations : list Location) : R :=
  fold_left (fun total leg => (total + legDistance leg)%R) (legs locations) 0%R.

(** [(a, b) => a.readyTime - b.readyTime] used by a stable sort: an element
    goes before the first element that is not earlier than it. *)
Fixpoint insertByReadyTime (x : Location) (l : list Location) : list Location :=
  match l with
  | [] => [x]
  | y :: l' =>
      if (Location.readyTime x <=? Location.readyTime y)%Z then x :: l
      else y :: insertByReadyTime x l'
  end.

Definition sortByReadyTime (l : list Location) : list Location :=
  fold_right insertByReadyTime [] l.

Section Solver.
Local Open Scope Z_scope.

Variable depot : Location.
Variable customers : list Location.
Variable vehicles : list Vehicle.
Variable timeMatrix : list (list Z).

(** [[...customers, depot].findIndex(l => l.id === loc.id)] *)
Definition matrixIndex (loc : Location) : Z :=
  findIndex (fun l => String.eqb (Location.id l) (Location.id loc))
            (customers ++ [depot]).

(** [timeMatrix[i][j]]: a missing row raises, a missing column reads
    [undefined]. *)
Definition readMatrix (i j : Z) : result number :=
  if i <? 0 then Throw TypeError
  else
    match nth_error timeMatrix (Z.to_nat i) with
    | None => Throw TypeError
    | Some row =>
        if j <? 0 then Return NaN
        else
          match nth_error row (Z.to_nat j) with
          | Some t => Return (Num t)
          | None => Return NaN
          end
    end.

(** [vehicles.find(v => v.id === route.vehicleId)] *)
Definition findVehicle (route : Route) : option Vehicle :=
  find (fun v => String.eqb (Vehicle.id v) (Route.vehicleId route)) vehicles.

(** [route.locations.reduce((sum, loc) => sum + loc.demand, 0)], on whole
    numbers; [Double.totalDemand] is the same sum on doubles. *)
Definition totalDemand (route : Route) : Z :=
  fold_left (fun sum loc => sum + Location.demand loc) (Route.locations route) 0.

(** [route.locations[i + 1] || depot] *)
Definition nextOf (route : Route) (i : nat) : Location :=
  match nth_error (Route.locations route) (i + 1) with
  | Some l => l
  | None => depot
  end.

(** The checks of the position loop for slot [i] of [route]. *)
Definition evalSlot (customer : Location) (route : Route) (i : nat) : result verdict :=
  match nth_error (Route.locations route) i with
  | None => Throw TypeError
  | Some prev =>
      let next := nextOf route i in
      let prevIndex := matrixIndex prev in
      let customerIndex := matrixIndex customer in
      let nextIndex := matrixIndex next in
      if (prevIndex =? -1) || (customerIndex =? -1) || (nextIndex =? -1)
      then Return Skipped
      else
        timeToCustomer <- readMatrix prevIndex customerIndex ;;
        timeFromCustomer <- readMatrix customerIndex nextIndex ;;
        timePrevNext <- readMatrix prevIndex nextIndex ;;
        let increase := num_sub (num_add timeToCustomer timeFromCustomer) timePrevNext in
        let currentTime := Route.totalTime route in
        let arrivalTime := num_add (Num currentTime) timeToCustomer in
        let arrivalTime :=
          if num_lt arrivalTime (Num (Location.readyTime customer))
          then Num (Location.readyTime customer)
          else arrivalTime in
        if num_gt arrivalTime (Num (Location.dueTime customer))
        then Return TooLate
        else
          let departureTime := num_add arrivalTime (Num (Location.serviceTime customer)) in
          let arrivalNextTime := num_add departureTime timeFromCustomer in
          if negb (String.eqb (Location.id next) (Location.id depot))
             && num_gt arrivalNextTime (Num (Location.dueTime next))
          then Return DelaysNext
          else Return (Fits increase)
  end.

(** One iteration of the position loop: the effect of the verdict on the
    route's reason and on the search variables. *)
Definition trySlot (customer : Location) (r i : nat) (st : Route * Search)
  : result (Route * Search) :=
  let '(route, s) := st in
  v <- evalSlot customer route i ;;
  match v with
  | Skipped => Return (route, s)
  | TooLate =>
      Return (setReason route
                ("No se puede llegar a tiempo a " ++ Location.name customer)%string, s)
  | DelaysNext =>
      Return (setReason route
                ("La inserción de " ++ Location.name customer
                 ++ " causaría retraso en siguiente cliente")%string, s)
  | Fits increase =>
      Return (route,
               if num_lt increase (Num (bestIncrease s))
               then {| bestRouteIndex := Z.of_nat r;
                       bestIncrease := match increase with Num z => z | NaN => bestIncrease s end;
                       bestPosition := Z.of_nat (i + 1);
                       assignmentPossible := true |}
               else {| bestRouteIndex := bestRouteIndex s;
                       bestIncrease := bestIncrease s;
                       bestPosition := bestPosition s;
                       assignmentPossible := true |})
  end.

(** [for (let i = 0; i < route.locations.length; i++)] *)
Fixpoint trySlots (customer : Location) (r : nat) (positions : list nat)
         (st : Route * Search) : result (Route * Search) :=
  match positions with
  | [] => Return st
  | i :: positions' =>
      st' <- trySlot customer r i st ;;
      trySlots customer r positions' st'
  end.

(** The body of the route loop for route number [r]. *)
Definition tryRoute (customer : Location) (r : nat) (route : Route) (s : Search)
  : result (Route * Search) :=
  match findVehicle route with
  | None => Throw TypeError
  | Some vehicle =>
      if totalDemand route + Location.demand customer >? Vehicle.capacity vehicle
      then Return (setReason route
                     ("Capacidad insuficiente para cliente " ++ Location.name customer)%string,
                   s)
      else trySlots customer r (seq 0 (length (Route.locations route))) (route, s)
  end.

(** [for (let r = 0; r < routes.length; r++)], from route number [r] on. *)
Fixpoint searchRoutes (customer : Location) (r : nat) (rs : list Route) (s : Search)
  : result (list Route * Search) :=
  match rs with
  | [] => Return ([], s)
  | route :: rest =>
      '(route', s') <- tryRoute customer r route s ;;
      '(rest', s'') <- searchRoutes customer (S r) rest s' ;;
      Return (route' :: rest', s'')
  end.

(** The insertion of [customer] into [route] at the best position, with
    the time and distance updates that follow it. *)
Definition insertInto (customer : Location) (s : Search) (route : Route) : Route :=
  let locations := splice (Z.to_nat (bestPosition s)) customer (Route.locations route) in
  {| Route.vehicleId := Route.vehicleId route;
     Route.locations := locations;
     Route.totalDistance := recomputeDistance locations;
     Route.totalTime := Route.totalTime route + bestIncrease s;
     Route.feasible := Route.feasible route;
     Route.infeasibilityReason := Route.infeasibilityReason route |}.

(** What follows the search: assignment to the best route, or the
    customer is left unassigned. *)
Definition commit (customer : Location) (st : State) (found : list Route * Search)
  : result State :=
  let '(rs, s) := found in
  if negb (bestRouteIndex s =? -1) then
    match nth_error rs (Z.to_nat (bestRouteIndex s)) with
    | None => Throw TypeError
    | Some route =>
        Return {| routes := replaceNth (Z.to_nat (bestRouteIndex s))
                                       (insertInto customer s route) rs;
                  unassignedLocations := unassignedLocations st;
                  infeasibilityReasons := infeasibilityReasons st |}
    end
  else
    Return {| routes := rs;
              unassignedLocations := unassignedLocations st ++ [customer];
              infeasibilityReasons :=
                if negb (assignmentPossible s)
                then infeasibilityReasons st ++
                     [("No se pudo asignar " ++ Location.name customer
                       ++ " debido a restricciones de tiempo o capacidad")%string]
                else infeasibilityReasons st |}.

(** The body of the customer loop. *)
Definition placeCustomer (st : State) (customer : Location) : result State :=
  found <- searchRoutes customer 0 (routes st) initSearch ;;
  commit customer st found.

(** [for (const customer of sortedCustomers)] *)
Fixpoint placeAll (sortedCustomers : list Location) (st : State) : result State :=
  match sortedCustomers with
  | [] => Return st
  | customer :: rest =>
      st' <- placeCustomer st customer ;;
      placeAll rest st'
  end.

Definition initRoute (vehicle : Vehicle) : Route :=
  {| Route.vehicleId := Vehicle.id vehicle;
     Route.locations := [depot];
     Route.totalDistance := 0%R;
     Route.totalTime := 0;
     Route.feasible := true;
     Route.infeasibilityReason := ""%string |}.

Definition initState : State :=
  {| routes := map initRoute vehicles;
     unassignedLocations := [];
     infeasibilityReasons := [] |}.

(** The closing loop: a route with a customer at its end gets the depot
    pushed and its distance recomputed. *)
Definition closeRoute (route : Route) : Route :=
  if (1 <? length (Route.locations route))%nat
     && negb (String.eqb (Location.id (last (Route.locations route) depot))
                         (Location.id depot))
  then
    let locations := Route.locations route ++ [depot] in
    {| Route.vehicleId := Route.vehicleId route;
       Route.locations := locations;
       Route.totalDistance := recomputeDistance locations;
       Route.totalTime := Route.totalTime route;
       Route.feasible := Route.feasible route;
       Route.infeasibilityReason := Route.infeasibilityReason route |}
  else route.

Definition solveVRPTW : result VRPTWSolution :=
  let sortedCustomers := sortByReadyTime customers in
  st <- placeAll sortedCustomers initState ;;
  let rs := map closeRoute (routes st) in
  let totalDistance :=
    fold_left (fun sum route => (sum + Route.totalDistance route)%R) rs 0%R in
  let totalTime := fold_left (fun sum route => sum + Route.totalTime route) rs 0 in
  let feasible :=
    (length (unassignedLocations st) =? 0)%nat && forallb Route.feasible rs in
  Return {| Solution.routes := rs;
            Solution.unassignedLocations := unassignedLocations st;
            Solution.totalDistance := totalDistance;
            Solution.totalTime := totalTime;
            Solution.feasible := feasible;
            Solution.infeasibilityReasons := infeasibilityReasons st |}.
End Solver.

(** ** Notions used to state the properties *)

(** Two routes that differ at most in their [infeasibilityReason]. *)
Definition sameRoute (a b : Route) : Prop :=
  Route.vehicleId a = Route.vehicleId b /\
  Route.locations a = Route.locations b /\
  Route.totalDistance a = Route.totalDistance b /\
  Route.totalTime a = Route.totalTime b /\
  Route.feasible a = Route.feasible b.

Section Specification.
Local Open Scope Z_scope.

Variable depot : Location.
Variable customers : list Location.
Variable vehicles : list Vehicle.
Variable timeMatrix : list (list Z).

(** The capacity check of the route loop, as a test: the vehicle is found
    and the customer's demand still fits. *)
Definition capacityAllows (customer : Location) (route : Route) : bool :=
  match findVehicle vehicles route with
  | Some vehicle =>
      negb (totalDemand route + Location.demand customer >? Vehicle.capacity vehicle)
  | None => false
  end.

(** Slot [i] of [route] passes the three checks (capacity, own time window,
    delay of the following stop) for [customer]; the result is the slot's
    insertion cost. *)
Definition slotCost (customer : Location) (route : Route) (i : nat) : option number :=
  if capacityAllows customer route then
    match evalSlot depot customers timeMatrix customer route i with
    | Return (Fits increase) => Some increase
    | _ => None
    end
  else None.

(** The same for slot [i] of route number [r] of a list of routes. *)
Definition costAt (rs : list Route) (customer : Location) (r i : nat) : option number :=
  match nth_error rs r with
  | Some route => slotCost customer route i
  | None => None
  end.

(** Slot (r, i) comes before slot (r', i') in the order of the two loops. *)
Definition earlier (r i r' i' : nat) : Prop :=
  (r < r')%nat \/ (r = r' /\ (i < i')%nat).

(** Cumulative demand of a route over its locations other than the depot. *)
Definition demandExcludingDepot (route : Route) : Z :=
  fold_right
    (fun loc sum =>
       if String.eqb (Location.id loc) (Location.id depot) then sum
       else Location.demand loc + sum)
    0 (Route.locations route).

(** A route visits the customers [mid], in this order, between its start at
    the depot and, once it is closed, its return to the depot. *)
Definition visits (route : Route) (mid : list Location) : Prop :=
  Route.locations route = depot :: mid \/
  Route.locations route = depot :: mid ++ [depot].

(** The state of the search variables once the slots before (R, I) of the
    routes [rs0] have been tried. *)
Definition bestSoFar (customer : Location) (rs0 : list Route) (R I : nat) (s : Search)
  : Prop :=
  (forall r i z,
      earlier r i R I ->
      costAt rs0 customer r i = Some (Num z) ->
      bestIncrease s <= z) /\
  bestIncrease s <= MAX_VALUE /\
  (assignmentPossible s = true <->
   exists r i c,
     earlier r i R I /\
     costAt rs0 customer r i = Some c) /\
  ((bestRouteIndex s = -1 /\ bestIncrease s = MAX_VALUE) \/
   (exists r i,
       earlier r i R I /\
       bestRouteIndex s = Z.of_nat r /\
       bestPosition s = Z.of_nat (i + 1) /\
       costAt rs0 customer r i
       = Some (Num (bestIncrease s)) /\
       bestIncrease s < MAX_VALUE /\
       forall r' i' z,
         earlier r' i' r i ->
         costAt rs0 customer r' i' = Some (Num z) ->
         bestIncrease s < z)).

(** The two outcomes of the body of the customer loop. *)
Inductive placed (customer : Location) (st st' : State) (s : Search) : Prop :=
| placed_unassigned :
    bestRouteIndex s = -1 ->
    bestIncrease s = MAX_VALUE ->
    Forall2 sameRoute (routes st) (routes st') ->
    unassignedLocations st' = unassignedLocations st ++ [customer] ->
    infeasibilityReasons st' =
      (if negb (assignmentPossible s)
       then infeasibilityReasons st ++
            [("No se pudo asignar " ++ Location.name customer
              ++ " debido a restricciones de tiempo o capacidad")%string]
       else infeasibilityReasons st) ->
    placed customer st st' s
| placed_assigned (r i : nat) (route0 route : Route) (rs : list Route) :
    bestRouteIndex s = Z.of_nat r ->
    bestPosition s = Z.of_nat (i + 1) ->
    Forall2 sameRoute (routes st) rs ->
    nth_error (routes st) r = Some route0 ->
    nth_error rs r = Some route ->
    sameRoute route0 route ->
    costAt (routes st) customer r i
    = Some (Num (bestIncrease s)) ->
    routes st' = replaceNth r (insertInto customer s route) rs ->
    unassignedLocations st' = unassignedLocations st ->
    infeasibilityReasons st' = infeasibilityReasons st ->
    placed customer st st' s.
End Specification.

(** Sum of the consecutive-pair distances along a sequence of locations. *)
Fixpoint pathLength (locations : list Location) : R :=
  match locations with
  | [] => 0%R
  | from :: rest =>
      match rest with
      | [] => 0%R
      | to :: _ => (legDistance (from, to) + pathLength rest)%R
      end
  end.

(** Sum of a list of reals. *)
Definition sumR (l : list R) : R := fold_right Rplus 0%R l.

(** Before the closing loop a route is the depot followed by customers. *)
Definition openRoute (depot : Location) (customers : list Location) (route : Route)
  : Prop :=
  exists mid,
    Route.locations route = depot :: mid /\
    Forall (fun l => In l customers) mid.

(** The invariant behind the capacity bound: the vehicle of the route is
    found, the demand on board fits its capacity, and no demand on board is
    negative. *)
Definition withinCapacity (vehicles : list Vehicle) (route : Route) : Prop :=
  (exists vehicle,
      findVehicle vehicles route = Some vehicle /\
      (totalDemand route <= Vehicle.capacity vehicle)%Z) /\
  Forall (fun l => (0 <= Location.demand l)%Z) (Route.locations route).

(** The customers of a route that is still open: all but its first
    location. *)
Definition stops (route : Route) : list Location := tl (Route.locations route).

(** All customers placed so far: those on routes, then the unassigned. *)
Definition placedCustomers (st : State) : list Location :=
  concat (map stops (routes st)) ++ unassignedLocations st.

(** ** Sample instances

    A depot and three customers on one vehicle.  The travel times are
    symmetric and satisfy the triangle inequality; rows and columns follow
    the order [customers ++ [depot]], here north, annex, bridge, depot. *)

Section Samples.
Local Open Scope Z_scope.
Local Open Scope string_scope.

Definition sampleLocation (id : string) (demand readyTime dueTime serviceTime : Z)
  : Location :=
  {| Location.id := id;
     Location.name := id;
     Location.lat := 0%R;
     Location.lng := 0%R;
     Location.demand := demand;
     Location.readyTime := readyTime;
     Location.dueTime := dueTime;
     Location.serviceTime := serviceTime |}.

Definition sampleDepot : Location := sampleLocation "depot" 0 0 1000 0.
Definition north : Location := sampleLocation "north" 1 0 1000 0.
Definition annex : Location := sampleLocation "annex" 1 1 22 0.
Definition bridge : Location := sampleLocation "bridge" 1 2 1000 0.

Definition sampleCustomers : list Location := [north; annex; bridge].

Definition sampleVehicle (id : string) (capacity : Z) : Vehicle :=
  {| Vehicle.id := id;
     Vehicle.capacity := capacity;
     Vehicle.startLocation := sampleDepot;
     Vehicle.endLocation := sampleDepot;
     Vehicle.color := "#FF5733" |}.

Definition sampleVehicles : list Vehicle := [sampleVehicle "v1" 100].

Definition sampleMatrix : list (list Z) :=
  [[0; 6; 5; 10];
   [6; 0; 1; 6];
   [5; 1; 0; 5];
   [10; 6; 5; 0]].

(** The state of the customer loop when bridge is processed: north is on
    the route, annex has been left unassigned. *)
Definition sampleOpenState : State :=
  {| routes :=
       [{| Route.vehicleId := "v1";
           Route.locations := [sampleDepot; north];
           Route.totalDistance := 0%R;
           Route.totalTime := 20;
           Route.feasible := true;
           Route.infeasibilityReason := "No se puede llegar a tiempo a annex" |}];
     unassignedLocations := [annex];
     infeasibilityReasons :=
       ["No se pudo asignar annex debido a restricciones de tiempo o capacidad"] |}.
End Samples.

(** A single customer that accepts any arrival time and lies
    [Number.MAX_VALUE] minutes away from the depot; rows and columns follow
    the order remote, depot. *)

Section RemoteSample.
Local Open Scope Z_scope.

Definition remote : Location := sampleLocation "remote" 1 0 MAX_VALUE 0.

Definition remoteMatrix : list (list Z) :=
  [[0; 0];
   [MAX_VALUE; 0]].
End RemoteSample.

(** ** Notions used to state further properties of the solver *)

Section TravelTime.
Variable depot : Location.
Variable customers : list Location.
Variable timeMatrix : list (list Z).

(** The matrix entry the solver uses for the leg between two locations,
    found through their indices in [customers ++ [depot]]. *)
Definition legTime (leg : Location * Location) : number :=
  match readMatrix timeMatrix (matrixIndex depot customers (fst leg))
                   (matrixIndex depot customers (snd leg)) with
  | Return t => t
  | Throw _ => NaN
  end.

(** The matrix travel time along a sequence of locations. *)
Definition routeTravelTime (locations : list Location) : number :=
  fold_right (fun leg total => num_add (legTime leg) total) (Num 0) (legs locations).
End TravelTime.

(** Sum of a list of integers. *)
Definition sumZ (l : list Z) : Z := fold_right Z.add 0%Z l.

(** The reason recorded for a customer that no route could take. *)
Definition unassignedReason (customer : Location) : string :=
  ("No se pudo asignar " ++ Location.name customer
   ++ " debido a restricciones de tiempo o capacidad")%string.

(** The invariant: no demand on board is negative, the vehicle of the
    route is found, and every stop after the first fits its capacity. *)
Definition stopsFit (vehicles : list Vehicle) (route : Route) : Prop :=
  Forall (fun l => (0 <= Location.demand l)%Z) (Route.locations route) /\
  exists vehicle,
    findVehicle vehicles route = Some vehicle /\
    Forall (fun l => (Location.demand l <= Vehicle.capacity vehicle)%Z)
           (tl (Route.locations route)).

(** ** The application around the solver ([App], [SolutionTable], [RouteMap]) *)

(** [App]: the effect that rebuilds the matrix whenever the depot or the
    customers change; the locations are listed depot first. *)
Definition appTimeMatrix (depot : Location) (customers : list Location)
  : list (list Z) :=
  generateTimeMatrix (depot :: customers).

(** [App.handleSolve], after its delay: the solution is replaced when the
    solver returns, and kept when the solver raises (the error is only
    logged). *)
Definition handleSolve (depot : Location) (customers : list Location)
           (vehicles : list Vehicle) (timeMatrix : list (list Z))
           (solution : option VRPTWSolution) : option VRPTWSolution :=
  match solveVRPTW depot customers vehicles timeMatrix with
  | Return newSolution => Some newSolution
  | Throw _ => solution
  end.

(** [x || 0] on a number. *)
Definition orZero (x : Z) : Z := if (x =? 0)%Z then 0%Z else x.

Section SolutionTable.
Local Open Scope Z_scope.

Variable vehicles : list Vehicle.

(** [SolutionTable], per-vehicle analysis:
    [totalDemand > (vehicle?.capacity || 0)]. *)
Definition isOverloaded (route : Route) : bool :=
  totalDemand route >?
  match findVehicle vehicles route with
  | Some vehicle => orZero (Vehicle.capacity vehicle)
  | None => 0
  end.

(** [SolutionTable], infeasibility analysis: some route exceeds the
    capacity of its vehicle. *)
Definition someRouteExceedsCapacity (rs : list Route) : bool :=
  existsb (fun r =>
             match findVehicle vehicles r with
             | Some vehicle => totalDemand r >? Vehicle.capacity vehicle
             | None => false
             end) rs.

(** [SolutionTable], the figure shown as assigned customers:
    [routes.reduce((sum, r) => sum + r.locations.length - 2, 0)]. *)
Definition assignedCustomersShown (rs : list Route) : Z :=
  fold_left (fun sum r => sum + Z.of_nat (length (Route.locations r)) - 2) rs 0.
End SolutionTable.

(** [RouteMap]: the customers drawn as pending, those found neither on a
    route nor among the unassigned (by id) and that are not the depot. *)
Definition pendingCustomers (depot : Location) (rs : list Route)
           (unassigned customers : list Location) : list Location :=
  filter (fun c =>
            negb (existsb (fun route =>
                             existsb (fun loc => String.eqb (Location.id loc)
                                                            (Location.id c))
                                     (Route.locations route)) rs)
            && negb (existsb (fun loc => String.eqb (Location.id loc) (Location.id c))
                             unassigned)
            && negb (String.eqb (Location.id c) (Location.id depot)))
         customers.

From Stdlib Require Import Ascii DecimalString DecimalZ DecimalPos.

(** ** Clock times as text ([formatTime], [minutesToTime], [timeToMinutes]) *)

Definition num_mul (a b : number) : number :=
  match a, b with
  | Num x, Num y => Num (x * y)
  | _, _ => NaN
  end.

(** [n.toString()] for an integer. *)
Definition numberToString (n : Z) : string := NilZero.string_of_int (Z.to_int n).

Fixpoint repeatChar (c : ascii) (n : nat) : string :=
  match n with
  | O => EmptyString
  | S n' => String c (repeatChar c n')
  end.

(** [s.padStart(targetLength, c)] for a one-character pad string. *)
Definition padStart (targetLength : nat) (c : ascii) (s : string) : string :=
  (repeatChar c (targetLength - String.length s) ++ s)%string.

(** [formatTime] of [SolutionTable] and [RouteMap], [minutesToTime] of
    [ConfigPanel] (the same code), on a whole number of minutes:
    [Math.floor(minutes / 60)] hours and [minutes % 60] minutes, each padded
    to two characters. *)
Definition formatTime (minutes : Z) : string :=
  let hours := (minutes / 60)%Z in
  let mins := Z.rem minutes 60 in
  (padStart 2 "0" (numberToString hours) ++ ":"
   ++ padStart 2 "0" (numberToString mins))%string.

(** [s.split(c)] for a one-character separator. *)
Fixpoint stringSplit (c : ascii) (s : string) : list string :=
  match s with
  | EmptyString => [EmptyString]
  | String a s' =>
      if Ascii.eqb a c then EmptyString :: stringSplit c s'
      else match stringSplit c s' with
           | piece :: pieces => String a piece :: pieces
           | [] => [String a EmptyString]
           end
  end.

(** [Number(s)] on the strings met here: the empty string is 0, a string
    of decimal digits with an optional leading minus sign is that integer,
    a lone minus sign is [NaN].  On every other string the result is [None]:
    [Number] may still yield a number there (blanks, fractions, exponents,
    other bases), which this embedding does not cover. *)
Definition stringToNumber (s : string) : option number :=
  match NilEmpty.int_of_string s with
  | Some (Decimal.Neg Decimal.Nil) => Some NaN
  | Some d => Some (Num (Z.of_int d))
  | None => None
  end.

(** [timeToMinutes] of [ConfigPanel]:
    [const [hours, minutes] = timeStr.split(':').map(Number);
     return hours * 60 + minutes]; a missing second piece is [undefined]. *)
Definition timeToMinutes (timeStr : string) : option number :=
  let pieces := stringSplit ":" timeStr in
  match nth_error pieces 0 with
  | None => Some NaN
  | Some h =>
      match stringToNumber h with
      | None => None
      | Some hours =>
          match nth_error pieces 1 with
          | None => Some NaN
          | Some m =>
              match stringToNumber m with
              | None => None
              | Some minutes => Some (num_add (num_mul hours (Num 60)) minutes)
              end
          end
      end
  end.

(** ** The timeline of a route ([SolutionTable]) *)

(** [SolutionTable] carries its own copy of [calculateDistance], the same
    formula as the one of the service; one definition stands for both. *)

(** [Math.ceil] *)
Definition Math_ceil (x : R) : Z := (- Int_part (- x))%Z.

Module TimelineEvent.
Inductive kind : Type := wait | service | travel.

Record t : Type := mk
  { type : kind;
    start : Z;
    end_ : Z;
    location : option Location;
    from : option Location;
    to : option Location;
    distance : option R;
    reason : option string }.

Definition kind_eqb (a b : kind) : bool :=
  match a, b with
  | wait, wait | service, service | travel, travel => true
  | _, _ => false
  end.
End TimelineEvent.

Module TimeViolation.
Inductive kind : Type := late | depot.

Record t : Type := mk
  { type : kind;
    location : option Location;
    delay : Z;
    message : string }.
End TimeViolation.

(** The variables of the timeline loop. *)
Record Timeline : Type := mkTimeline
  { currentTime : Z;
    timelineEvents : list TimelineEvent.t;
    previousLocation : option Location;
    totalServiceTime : Z;
    totalWaitTime : Z;
    totalTravelTime : Z }.

Section TimelineLoop.
Local Open Scope Z_scope.

(** The travel part of the loop body: the leg from the previous location,
    at 30 km/h, rounded up. *)
Definition travelStep (line : Timeline) (location : Location) : Timeline :=
  match previousLocation line with
  | None => line
  | Some previous =>
      let distance :=
        calculateDistance (Location.lat previous) (Location.lng previous)
                          (Location.lat location) (Location.lng location) in
      let travelTime := Math_ceil ((distance / 30) * 60)%R in
      {| currentTime := currentTime line + travelTime;
         timelineEvents :=
           timelineEvents line ++
           [{| TimelineEvent.type := TimelineEvent.travel;
               TimelineEvent.start := currentTime line;
               TimelineEvent.end_ := currentTime line + travelTime;
               TimelineEvent.location := Some location;
               TimelineEvent.from := Some previous;
               TimelineEvent.to := Some location;
               TimelineEvent.distance := Some distance;
               TimelineEvent.reason := None |}];
         previousLocation := previousLocation line;
         totalServiceTime := totalServiceTime line;
         totalWaitTime := totalWaitTime line;
         totalTravelTime := totalTravelTime line + travelTime |}
  end.

(** The waiting part: an arrival before the window opens waits for it. *)
Definition waitStep (line : Timeline) (location : Location) : Timeline :=
  if currentTime line <? Location.readyTime location then
    let waitTime := Location.readyTime location - currentTime line in
    {| currentTime := Location.readyTime location;
       timelineEvents :=
         timelineEvents line ++
         [{| TimelineEvent.type := TimelineEvent.wait;
             TimelineEvent.start := currentTime line;
             TimelineEvent.end_ := Location.readyTime location;
             TimelineEvent.location := Some location;
             TimelineEvent.from := None;
             TimelineEvent.to := None;
             TimelineEvent.distance := None;
             TimelineEvent.reason :=
               Some ("Llegada temprana a " ++ Location.name location
                     ++ ", espera necesaria de " ++ formatTime waitTime)%string |}];
       previousLocation := previousLocation line;
       totalServiceTime := totalServiceTime line;
       totalWaitTime := totalWaitTime line + waitTime;
       totalTravelTime := totalTravelTime line |}
  else line.

(** The service part, with [location.serviceTime || 0], on whole numbers;
    [Double.serviceClock] is the same clock on doubles. *)
Definition serviceStep (line : Timeline) (location : Location) : Timeline :=
  let serviceTime := orZero (Location.serviceTime location) in
  {| currentTime := currentTime line + serviceTime;
     timelineEvents :=
       timelineEvents line ++
       [{| TimelineEvent.type := TimelineEvent.service;
           TimelineEvent.start := currentTime line;
           TimelineEvent.end_ := currentTime line + serviceTime;
           TimelineEvent.location := Some location;
           TimelineEvent.from := None;
           TimelineEvent.to := None;
           TimelineEvent.distance := None;
           TimelineEvent.reason := None |}];
     previousLocation := Some location;
     totalServiceTime := totalServiceTime line + serviceTime;
     totalWaitTime := totalWaitTime line;
     totalTravelTime := totalTravelTime line |}.

(** One iteration of [for (let i = 0; i < route.locations.length; i++)]. *)
Definition timelineStep (line : Timeline) (location : Location) : Timeline :=
  serviceStep (waitStep (travelStep line location) location) location.

Definition initTimeline : Timeline :=
  {| currentTime := 480;
     timelineEvents := [];
     previousLocation := None;
     totalServiceTime := 0;
     totalWaitTime := 0;
     totalTravelTime := 0 |}.

(** The timeline of a route, from the opening of the depot at 480. *)
Definition routeTimeline (route : Route) : Timeline :=
  fold_left timelineStep (Route.locations route) initTimeline.

(** The body of [timelineEvents.forEach]: a service that starts after the
    due time of its location is reported; [lastEndTime] follows the
    services. *)
Definition violationStep (acc : list TimeViolation.t * Z) (event : TimelineEvent.t)
  : list TimeViolation.t * Z :=
  let '(timeViolations, lastEndTime) := acc in
  match TimelineEvent.type event, TimelineEvent.location event with
  | TimelineEvent.service, Some location =>
      (if TimelineEvent.start event >? Location.dueTime location
       then timeViolations ++
            [{| TimeViolation.type := TimeViolation.late;
                TimeViolation.location := Some location;
                TimeViolation.delay :=
                  TimelineEvent.start event - Location.dueTime location;
                TimeViolation.message :=
                  ("Llegada tardía a " ++ Location.name location ++ ": "
                   ++ formatTime (TimelineEvent.start event)
                   ++ " (ventana cierra a "
                   ++ formatTime (Location.dueTime location) ++ ")")%string |}]
       else timeViolations,
       TimelineEvent.end_ event)
  | _, _ => (timeViolations, lastEndTime)
  end.

(** The violations reported for a list of events; the depot closes at
    1020. *)
Definition timeViolationsOf (events : list TimelineEvent.t) : list TimeViolation.t :=
  let '(timeViolations, lastEndTime) := fold_left violationStep events ([], 0) in
  if lastEndTime >? 1020 then
    timeViolations ++
    [{| TimeViolation.type := TimeViolation.depot;
        TimeViolation.location := None;
        TimeViolation.delay := lastEndTime - 1020;
        TimeViolation.message :=
          ("La ruta termina después del horario de cierre del depósito ("
           ++ formatTime lastEndTime ++ " > " ++ formatTime 1020 ++ ")")%string |}]
  else timeViolations.

(** Events that follow one another without gap or overlap from [t0] to
    [t1]. *)
Fixpoint chained (t0 : Z) (events : list TimelineEvent.t) (t1 : Z) : Prop :=
  match events with
  | [] => t0 = t1
  | event :: rest =>
      TimelineEvent.start event = t0 /\ chained (TimelineEvent.end_ event) rest t1
  end.

(** The events of one kind, and the time they add up to. *)
Definition eventsOf (k : TimelineEvent.kind) (events : list TimelineEvent.t)
  : list TimelineEvent.t :=
  filter (fun e => TimelineEvent.kind_eqb (TimelineEvent.type e) k) events.

Definition totalDuration (k : TimelineEvent.kind) (events : list TimelineEvent.t) : Z :=
  sumZ (map (fun e => TimelineEvent.end_ e - TimelineEvent.start e) (eventsOf k events)).

(** The accounts of the loop: the events follow one another from 480 to
    the clock, each total is the time of the events of its kind, and the
    clock is 480 plus the three totals. *)
Definition timelineAccounts (line : Timeline) : Prop :=
  chained 480 (timelineEvents line) (currentTime line) /\
  totalTravelTime line = totalDuration TimelineEvent.travel (timelineEvents line) /\
  totalWaitTime line = totalDuration TimelineEvent.wait (timelineEvents line) /\
  totalServiceTime line = totalDuration TimelineEvent.service (timelineEvents line) /\
  currentTime line = 480 + totalTravelTime line + totalWaitTime line + totalServiceTime line.

(** An event in order, by kind: a service at a known location that does
    not start before the ready time, a wait that lasts, a travel that does
    not go back in time. *)
Definition eventOk (event : TimelineEvent.t) : Prop :=
  match TimelineEvent.type event with
  | TimelineEvent.service =>
      match TimelineEvent.location event with
      | Some location => Location.readyTime location <= TimelineEvent.start event
      | None => False
      end
  | TimelineEvent.wait => TimelineEvent.start event < TimelineEvent.end_ event
  | TimelineEvent.travel => TimelineEvent.start event <= TimelineEvent.end_ event
  end.

(** A service at a known location is on time when it starts no later than
    the due time. *)
Definition onTime (event : TimelineEvent.t) : Prop :=
  match TimelineEvent.type event, TimelineEvent.location event with
  | TimelineEvent.service, Some location =>
      TimelineEvent.start event <= Location.dueTime location
  | _, _ => True
  end.
End TimelineLoop.

(** ** The fleet handlers of [ConfigPanel] *)

(** [handleVehicleChange]: the vehicles with the given id get the new
    capacity. *)
Definition handleVehicleChange (vehicles : list Vehicle) (vehicleId : string)
           (capacity : Z) : list Vehicle :=
  map (fun vehicle =>
         if String.eqb (Vehicle.id vehicle) vehicleId then
           {| Vehicle.id := Vehicle.id vehicle;
              Vehicle.capacity := capacity;
              Vehicle.startLocation := Vehicle.startLocation vehicle;
              Vehicle.endLocation := Vehicle.endLocation vehicle;
              Vehicle.color := Vehicle.color vehicle |}
         else vehicle)
      vehicles.

(** [handleRemoveVehicle] *)
Definition handleRemoveVehicle (vehicles : list Vehicle) (vehicleId : string)
  : list Vehicle :=
  filter (fun v => negb (String.eqb (Vehicle.id v) vehicleId)) vehicles.

Definition vehicleColors : list string :=
  ["#FF5733"; "#33FF57"; "#3357FF"; "#FF33A8"; "#33FFF0";
   "#F0FF33"; "#9033FF"; "#FF9033"; "#33FFAA"; "#FF33DD"]%string.

(** [handleAddVehicle]: the new vehicle is named after the size of the
    fleet and copies the depot of [vehicles[0]], whose absence raises. *)
Definition handleAddVehicle (vehicles : list Vehicle) (newVehicleCapacity : Z)
  : result (list Vehicle) :=
  let nextId := ("v" ++ numberToString (Z.of_nat (length vehicles) + 1))%string in
  let colorIndex := (length vehicles mod length vehicleColors)%nat in
  match nth_error vehicles 0 with
  | None => Throw TypeError
  | Some first =>
      Return (vehicles ++
              [{| Vehicle.id := nextId;
                  Vehicle.capacity := newVehicleCapacity;
                  Vehicle.startLocation := Vehicle.startLocation first;
                  Vehicle.endLocation := Vehicle.endLocation first;
                  Vehicle.color := nth colorIndex vehicleColors ""%string |}])
  end.

(** ** Sums on doubles

    The two places where the source adds up values that the forms of the
    application pass on as typed (demands, service times), on IEEE doubles. *)

Module Double.
Import PrimFloat.
Local Open Scope float_scope.

(** [route.locations.reduce((sum, loc) => sum + loc.demand, 0)] over the
    demands of the locations of a route. *)
Definition totalDemand (demands : list float) : float :=
  fold_left PrimFloat.add demands 0.

(** The capacity test of the route loop:
    [totalDemand + customer.demand > vehicle.capacity]. *)
Definition overCapacity (demands : list float) (demand capacity : float) : bool :=
  capacity <? totalDemand demands + demand.

(** The overload test of the result table:
    [totalDemand > (vehicle?.capacity || 0)] for a vehicle that is found
    and has a capacity other than 0. *)
Definition isOverloaded (demands : list float) (capacity : float) : bool :=
  capacity <? totalDemand demands.

(** The timeline loop over stops at one place, reached when they are ready
    (travel time 0, no wait): [currentTime += serviceTime] from 480, and
    [totalServiceTime += serviceTime] from 0. *)
Definition serviceClock (serviceTimes : list float) : float :=
  fold_left PrimFloat.add serviceTimes 480.

Definition totalServiceTime (serviceTimes : list float) : float :=
  fold_left PrimFloat.add serviceTimes 0.
End Double.

(** Three customers and a depot with travel time 0 between any two of
    them, demands in tenths (3, 2 and 1) and a vehicle of capacity 6. *)
Section TenthsSample.
Local Open Scope Z_scope.
Local Open Scope string_scope.

Definition tenthsCustomers : list Location :=
  [sampleLocation "a" 3 0 1000 0;
   sampleLocation "b" 2 1 1000 0;
   sampleLocation "c" 1 2 1000 0].

Definition zeroMatrix : list (list Z) :=
  [[0; 0; 0; 0]; [0; 0; 0; 0]; [0; 0; 0; 0]; [0; 0; 0; 0]].
End TenthsSample.

(** * Properties *)

(** ** The distance/time model *)

Section DistanceFacts.
Local Open Scope R_scope.

Lemma calculateDistance_sym (lat1 lon1 lat2 lon2 : R) :
  calculateDistance lat1 lon1 lat2 lon2 = calculateDistance lat2 lon2 lat1 lon1.
Proof.
  unfold calculateDistance.
  assert (Hsq : forall u v, sin ((u - v) * PI / 180 / 2) * sin ((u - v) * PI / 180 / 2)
                       = sin ((v - u) * PI / 180 / 2) * sin ((v - u) * PI / 180 / 2)).
  { intros u v.
    replace ((u - v) * PI / 180 / 2) with (- ((v - u) * PI / 180 / 2)) by field.
    rewrite sin_neg. ring. }
  assert (Ha : sin ((lat2 - lat1) * PI / 180 / 2) * sin ((lat2 - lat1) * PI / 180 / 2) +
               cos (lat1 * PI / 180) * cos (lat2 * PI / 180) *
               sin ((lon2 - lon1) * PI / 180 / 2) * sin ((lon2 - lon1) * PI / 180 / 2)
               = sin ((lat1 - lat2) * PI / 180 / 2) * sin ((lat1 - lat2) * PI / 180 / 2) +
                 cos (lat2 * PI / 180) * cos (lat1 * PI / 180) *
                 sin ((lon1 - lon2) * PI / 180 / 2) * sin ((lon1 - lon2) * PI / 180 / 2)).
  { rewrite (Hsq lat2 lat1).
    rewrite !Rmult_assoc. rewrite (Hsq lon2 lon1). ring. }
  cbv zeta. rewrite Ha. reflexivity.
Qed.

Lemma travelMinutes_sym (a b : Location) : travelMinutes a b = travelMinutes b a.
Proof.
  unfold travelMinutes. cbv zeta. rewrite calculateDistance_sym. reflexivity.
Qed.
End DistanceFacts.

Lemma nth_error_indexed_from {A : Type} (l : list A) :
  forall s i,
    nth_error (combine (seq s (length l)) l) i
    = option_map (fun x => ((s + i)%nat, x)) (nth_error l i).
Proof.
  induction l as [|x l IH]; intros s i.
  - destruct i; reflexivity.
  - destruct i as [|i]; simpl.
    + rewrite Nat.add_0_r. reflexivity.
    + rewrite IH. rewrite Nat.add_succ_r. reflexivity.
Qed.

Lemma nth_error_indexed {A : Type} (l : list A) (i : nat) :
  nth_error (indexed l) i = option_map (fun x => (i, x)) (nth_error l i).
Proof. unfold indexed. rewrite nth_error_indexed_from. reflexivity. Qed.

Lemma length_indexed {A : Type} (l : list A) : length (indexed l) = length l.
Proof.
  unfold indexed. rewrite length_combine, length_seq. apply Nat.min_id.
Qed.

Lemma entry_generateTimeMatrix (locations : list Location) (i j : nat) :
  entry (generateTimeMatrix locations) i j =
  match nth_error locations i, nth_error locations j with
  | Some li, Some lj => Some (if Nat.eqb i j then 0%Z else travelMinutes li lj)
  | _, _ => None
  end.
Proof.
  unfold entry, generateTimeMatrix.
  rewrite nth_error_map, nth_error_indexed.
  destruct (nth_error locations i) as [li|]; simpl; [|reflexivity].
  rewrite nth_error_map, nth_error_indexed.
  destruct (nth_error locations j) as [lj|]; reflexivity.
Qed.

(** C7: [generateTimeMatrix] returns a square matrix over the locations,
    whose entry (i, j) is 0 on the diagonal and otherwise
    round(calculateDistance(location i, location j) / 50 * 60); the matrix is
    symmetric. *)
Theorem generateTimeMatrix_square_symmetric (locations : list Location) :
  let matrix := generateTimeMatrix locations in
  length matrix = length locations /\
  (forall row, In row matrix -> length row = length locations) /\
  (forall i j li lj,
      nth_error locations i = Some li ->
      nth_error locations j = Some lj ->
      entry matrix i j =
      Some (if Nat.eqb i j then 0%Z
            else Math_round
                   (calculateDistance (Location.lat li) (Location.lng li)
                                      (Location.lat lj) (Location.lng lj) / 50 * 60)%R)) /\
  (forall i j, entry matrix i j = entry matrix j i).
Proof.
  cbv zeta. repeat split.
  - unfold generateTimeMatrix. rewrite length_map. apply length_indexed.
  - intros row Hin. unfold generateTimeMatrix in Hin.
    apply in_map_iff in Hin. destruct Hin as [[i li] [Hrow _]].
    subst row. rewrite length_map. apply length_indexed.
  - intros i j li lj Hi Hj.
    rewrite entry_generateTimeMatrix, Hi, Hj. reflexivity.
  - intros i j. rewrite !entry_generateTimeMatrix.
    destruct (nth_error locations i) as [li|], (nth_error locations j) as [lj|];
      try reflexivity.
    rewrite (Nat.eqb_sym j i). rewrite (travelMinutes_sym lj li). reflexivity.
Qed.

(** ** The search for the best slot *)

Lemma sameRoute_refl (a : Route) : sameRoute a a.
Proof. unfold sameRoute. auto. Qed.

Lemma sameRoute_trans (a b c : Route) : sameRoute a b -> sameRoute b c -> sameRoute a c.
Proof.
  unfold sameRoute. intros (H1 & H2 & H3 & H4 & H5) (K1 & K2 & K3 & K4 & K5).
  repeat split; congruence.
Qed.

Lemma sameRoute_setReason (a : Route) (reason : string) : sameRoute a (setReason a reason).
Proof. unfold sameRoute. simpl. auto. Qed.

Lemma earlier_succ (r' i' r i : nat) :
  earlier r' i' r (S i) <-> earlier r' i' r i \/ (r' = r /\ i' = i).
Proof. unfold earlier. lia. Qed.

Lemma earlier_next_route (r' i' r i : nat) :
  earlier r' i' (S r) 0 <-> earlier r' i' r i \/ (r' = r /\ (i <= i')%nat).
Proof. unfold earlier. lia. Qed.

Section SearchFacts.
Local Open Scope Z_scope.

Variable depot : Location.
Variable customers : list Location.
Variable vehicles : list Vehicle.
Variable timeMatrix : list (list Z).
Variable customer : Location.

Lemma evalSlot_same (a b : Route) (i : nat) :
  sameRoute a b ->
  evalSlot depot customers timeMatrix customer a i
  = evalSlot depot customers timeMatrix customer b i.
Proof.
  destruct a, b. unfold sameRoute. simpl. intros (_ & Hl & _ & Ht & _). subst.
  reflexivity.
Qed.

Lemma capacityAllows_same (a b : Route) :
  sameRoute a b -> capacityAllows vehicles customer a = capacityAllows vehicles customer b.
Proof.
  destruct a, b. unfold sameRoute. simpl. intros (Hv & Hl & _). subst.
  reflexivity.
Qed.

(** Slots past the end of a route have no cost. *)
Lemma slotCost_past_end (route : Route) (i : nat) :
  (length (Route.locations route) <= i)%nat ->
  slotCost depot customers vehicles timeMatrix customer route i = None.
Proof.
  intros H. unfold slotCost, evalSlot.
  apply nth_error_None in H. rewrite H.
  destruct (capacityAllows vehicles customer route); reflexivity.
Qed.

Lemma bestSoFar_init (rs0 : list Route) : bestSoFar depot customers vehicles timeMatrix customer rs0 0 0 initSearch.
Proof.
  unfold bestSoFar, earlier. simpl. repeat split.
  - intros r i z H. lia.
  - lia.
  - discriminate.
  - intros (r & i & c & H & _). lia.
  - left. auto.
Qed.

(** Moving the frontier over slots that have no cost keeps the state. *)
Lemma bestSoFar_extend (rs0 : list Route) (R I R' I' : nat) (s : Search) :
  bestSoFar depot customers vehicles timeMatrix customer rs0 R I s ->
  (forall r i, earlier r i R I -> earlier r i R' I') ->
  (forall r i, earlier r i R' I' ->
               earlier r i R I \/
               costAt depot customers vehicles timeMatrix rs0 customer r i = None) ->
  bestSoFar depot customers vehicles timeMatrix customer rs0 R' I' s.
Proof.
  intros (Hmin & Hmax & Hposs & Hbest) Hmono Hnew.
  unfold bestSoFar. repeat split.
  - intros r i z He Hc. destruct (Hnew r i He) as [H|H]; [eauto|congruence].
  - exact Hmax.
  - intros Ha. apply Hposs in Ha. destruct Ha as (r & i & c & He & Hc). eauto 6.
  - intros (r & i & c & He & Hc). apply Hposs.
    destruct (Hnew r i He) as [H|H]; [eauto 6|congruence].
  - destruct Hbest as [H|(r & i & He & H)]; [left; exact H|].
    right. exists r, i. split; [auto|exact H].
Qed.

Lemma trySlot_inv (rs0 : list Route) (r i : nat) (route0 route route' : Route)
      (s s' : Search) :
  nth_error rs0 r = Some route0 ->
  sameRoute route0 route ->
  capacityAllows vehicles customer route0 = true ->
  bestSoFar depot customers vehicles timeMatrix customer rs0 r i s ->
  trySlot depot customers timeMatrix customer r i (route, s) = Return (route', s') ->
  bestSoFar depot customers vehicles timeMatrix customer rs0 r (S i) s' /\ sameRoute route0 route'.
Proof.
  intros Hnth Hsame Hcap Hinv Hrun.
  assert (Hcost : costAt depot customers vehicles timeMatrix rs0 customer r i =
                  match evalSlot depot customers timeMatrix customer route0 i with
                  | Return (Fits increase) => Some increase
                  | _ => None
                  end).
  { unfold costAt, slotCost. rewrite Hnth, Hcap. reflexivity. }
  assert (Hskip : costAt depot customers vehicles timeMatrix rs0 customer r i = None ->
                  bestSoFar depot customers vehicles timeMatrix customer rs0 r (S i) s).
  { intros Hnone. apply (bestSoFar_extend Hinv).
    - intros r1 i1 H. apply earlier_succ. auto.
    - intros r1 i1 H. apply earlier_succ in H. destruct H as [H|[-> ->]]; auto. }
  unfold trySlot in Hrun. rewrite <- (evalSlot_same i Hsame) in Hrun.
  destruct (evalSlot depot customers timeMatrix customer route0 i) as [v|e];
    simpl in Hrun; [|discriminate].
  destruct v as [ | | |increase]; inversion Hrun; subst; clear Hrun.
  - split; [auto|exact Hsame].
  - split; [auto|]. eapply sameRoute_trans; [exact Hsame|apply sameRoute_setReason].
  - split; [auto|]. eapply sameRoute_trans; [exact Hsame|apply sameRoute_setReason].
  - split; [|exact Hsame].
    destruct Hinv as (Hmin & Hmax & Hposs & Hbest).
    assert (Hfound : exists r1 i1 c,
               earlier r1 i1 r (S i) /\
               costAt depot customers vehicles timeMatrix rs0 customer r1 i1 = Some c).
    { exists r, i, increase. split; [apply earlier_succ; auto|exact Hcost]. }
    destruct increase as [z|]; simpl.
    + destruct (Z.ltb_spec z (bestIncrease s)) as [Hlt|Hge].
      * unfold bestSoFar. simpl. repeat split; auto.
        -- intros r1 i1 z1 He Hc. apply earlier_succ in He.
           destruct He as [He|[-> ->]].
           ++ specialize (Hmin _ _ _ He Hc). lia.
           ++ rewrite Hcost in Hc. inversion Hc. lia.
        -- lia.
        -- right. exists r, i. repeat split; auto.
           ++ apply earlier_succ. auto.
           ++ lia.
           ++ intros r1 i1 z1 He Hc. specialize (Hmin _ _ _ He Hc). lia.
      * unfold bestSoFar. simpl. repeat split; auto.
        -- intros r1 i1 z1 He Hc. apply earlier_succ in He.
           destruct He as [He|[-> ->]].
           ++ eauto.
           ++ rewrite Hcost in Hc. inversion Hc. lia.
        -- destruct Hbest as [H|(r1 & i1 & He & H)]; [left; exact H|].
           right. exists r1, i1. split; [apply earlier_succ; auto|exact H].
    + unfold bestSoFar. simpl. repeat split; auto.
      * intros r1 i1 z1 He Hc. apply earlier_succ in He.
        destruct He as [He|[-> ->]]; [eauto|congruence].
      * destruct Hbest as [H|(r1 & i1 & He & H)]; [left; exact H|].
        right. exists r1, i1. split; [apply earlier_succ; auto|exact H].
Qed.

Lemma trySlots_inv (rs0 : list Route) (r : nat) (route0 : Route) :
  nth_error rs0 r = Some route0 ->
  capacityAllows vehicles customer route0 = true ->
  forall n i route s route' s',
    sameRoute route0 route ->
    bestSoFar depot customers vehicles timeMatrix customer rs0 r i s ->
    trySlots depot customers timeMatrix customer r (seq i n) (route, s)
    = Return (route', s') ->
    bestSoFar depot customers vehicles timeMatrix customer rs0 r (i + n) s' /\ sameRoute route0 route'.
Proof.
  intros Hnth Hcap. induction n as [|n IH]; intros i route s route' s' Hsame Hinv Hrun.
  - simpl in Hrun. inversion Hrun; subst. rewrite Nat.add_0_r. auto.
  - cbn [seq trySlots] in Hrun.
    destruct (trySlot depot customers timeMatrix customer r i (route, s))
      as [[route1 s1]|e] eqn:Hslot; cbn [bind] in Hrun; [|discriminate].
    destruct (trySlot_inv Hnth Hsame Hcap Hinv Hslot) as [Hinv1 Hsame1].
    rewrite Nat.add_succ_r. apply (IH (S i) route1 s1); auto.
Qed.

Lemma tryRoute_inv (rs0 : list Route) (r : nat) (route0 route' : Route) (s s' : Search) :
  nth_error rs0 r = Some route0 ->
  bestSoFar depot customers vehicles timeMatrix customer rs0 r 0 s ->
  tryRoute depot customers vehicles timeMatrix customer r route0 s = Return (route', s') ->
  bestSoFar depot customers vehicles timeMatrix customer rs0 (S r) 0 s' /\ sameRoute route0 route'.
Proof.
  intros Hnth Hinv Hrun. unfold tryRoute in Hrun.
  destruct (findVehicle vehicles route0) as [vehicle|] eqn:Hfind; [|discriminate].
  destruct (totalDemand route0 + Location.demand customer >? Vehicle.capacity vehicle)
    eqn:Hcap.
  - inversion Hrun; subst. split; [|apply sameRoute_setReason].
    apply (bestSoFar_extend Hinv).
    + intros r1 i1 H. apply (earlier_next_route r1 i1 r 0). auto.
    + intros r1 i1 H. apply (earlier_next_route r1 i1 r 0) in H.
      destruct H as [H|[-> _]]; [auto|right].
      unfold costAt, slotCost, capacityAllows. rewrite Hnth, Hfind, Hcap. reflexivity.
  - assert (Hallow : capacityAllows vehicles customer route0 = true).
    { unfold capacityAllows. rewrite Hfind, Hcap. reflexivity. }
    destruct (trySlots_inv Hnth Hallow _ (sameRoute_refl route0) Hinv Hrun)
      as [Hinv1 Hsame1].
    split; [|exact Hsame1]. simpl in Hinv1.
    apply (bestSoFar_extend Hinv1).
    + intros r1 i1 H. apply (earlier_next_route r1 i1 r 0).
      unfold earlier in *. lia.
    + intros r1 i1 H.
      apply (earlier_next_route r1 i1 r (length (Route.locations route0))) in H.
      destruct H as [H|[-> H]]; [auto|right].
      unfold costAt. rewrite Hnth. apply slotCost_past_end. exact H.
Qed.

Lemma searchRoutes_inv (rs0 : list Route) :
  forall rs r s rs' s',
    (forall k, nth_error rs k = nth_error rs0 (r + k)) ->
    bestSoFar depot customers vehicles timeMatrix customer rs0 r 0 s ->
    searchRoutes depot customers vehicles timeMatrix customer r rs s = Return (rs', s') ->
    bestSoFar depot customers vehicles timeMatrix customer rs0 (r + length rs) 0 s' /\ Forall2 sameRoute rs rs'.
Proof.
  induction rs as [|route rest IH]; intros r s rs' s' Hsuffix Hinv Hrun.
  - simpl in Hrun. inversion Hrun; subst. simpl. rewrite Nat.add_0_r. auto.
  - cbn [searchRoutes] in Hrun.
    destruct (tryRoute depot customers vehicles timeMatrix customer r route s)
      as [[route1 s1]|e] eqn:Hroute; cbn [bind] in Hrun; [|discriminate].
    destruct (searchRoutes depot customers vehicles timeMatrix customer (S r) rest s1)
      as [[rest1 s2]|e] eqn:Hrest; cbn [bind] in Hrun; [|discriminate].
    inversion Hrun; subst; clear Hrun.
    assert (Hnth : nth_error rs0 r = Some route).
    { rewrite <- (Nat.add_0_r r). rewrite <- Hsuffix. reflexivity. }
    destruct (tryRoute_inv Hnth Hinv Hroute) as [Hinv1 Hsame1].
    destruct (IH (S r) s1 rest1 s' (fun k => eq_trans (Hsuffix (S k))
                 (f_equal (nth_error rs0) (Nat.add_succ_r r k))) Hinv1 Hrest)
      as [Hinv2 Hsame2].
    split; [|constructor; assumption].
    simpl. rewrite Nat.add_succ_r. exact Hinv2.
Qed.
End SearchFacts.

(** ** One step of the customer loop *)

Lemma replaceNth_Forall {A : Type} (P : A -> Prop) (x : A) :
  forall l n, Forall P l -> P x -> Forall P (replaceNth n x l).
Proof.
  induction l as [|y l IH]; intros [|n] Hl Hx; simpl; auto;
    inversion Hl; subst; constructor; auto.
Qed.

Lemma Forall2_nth_error {A B : Type} (P : A -> B -> Prop) :
  forall l l', Forall2 P l l' ->
  forall n a, nth_error l n = Some a -> exists b, nth_error l' n = Some b /\ P a b.
Proof.
  induction 1 as [|a0 b0 l l' Hab Hl IH]; intros [|n] a Hn; simpl in *;
    try discriminate.
  - inversion Hn; subst. eauto.
  - eauto.
Qed.

Lemma Forall2_Forall_transfer {A : Type} (R : A -> A -> Prop) (P : A -> Prop) :
  (forall a b, R a b -> P a -> P b) ->
  forall l l', Forall2 R l l' -> Forall P l -> Forall P l'.
Proof.
  intros Hstep. induction 1; intros Hl; inversion Hl; subst; constructor; eauto.
Qed.

Section StepFacts.
Local Open Scope Z_scope.

Variable depot : Location.
Variable customers : list Location.
Variable vehicles : list Vehicle.
Variable timeMatrix : list (list Z).

Lemma search_spec (customer : Location) (rs0 rs : list Route) (s : Search) :
  searchRoutes depot customers vehicles timeMatrix customer 0 rs0 initSearch
  = Return (rs, s) ->
  bestSoFar depot customers vehicles timeMatrix customer rs0 (length rs0) 0 s /\
  Forall2 sameRoute rs0 rs.
Proof.
  intros Hrun.
  apply (searchRoutes_inv (rs0 := rs0)) in Hrun.
  - exact Hrun.
  - intros k. reflexivity.
  - apply bestSoFar_init.
Qed.

(** A slot with a cost is a slot of an existing route whose capacity check
    and slot checks pass. *)
Lemma costAt_Some (customer : Location) (rs : list Route) (r i : nat) (cost : number) :
  costAt depot customers vehicles timeMatrix rs customer r i = Some cost ->
  exists route,
    nth_error rs r = Some route /\
    capacityAllows vehicles customer route = true /\
    evalSlot depot customers timeMatrix customer route i = Return (Fits cost) /\
    (i < length (Route.locations route))%nat.
Proof.
  unfold costAt, slotCost. intros H.
  destruct (nth_error rs r) as [route|]; [|discriminate].
  exists route. split; [reflexivity|].
  destruct (capacityAllows vehicles customer route); [|discriminate].
  split; [reflexivity|].
  destruct (evalSlot depot customers timeMatrix customer route i) as [[ | | |inc]|e] eqn:He;
    try discriminate.
  inversion H; subst. split; [reflexivity|].
  unfold evalSlot in He.
  destruct (nth_error (Route.locations route) i) eqn:Hn; [|discriminate].
  apply nth_error_Some. congruence.
Qed.

(** Every slot with a cost lies before the end of the route loop. *)
Lemma costAt_earlier (customer : Location) (rs : list Route) (r i : nat) (cost : number) :
  costAt depot customers vehicles timeMatrix rs customer r i = Some cost ->
  earlier r i (length rs) 0.
Proof.
  intros H. apply costAt_Some in H. destruct H as (route & Hn & _).
  left. apply nth_error_Some. congruence.
Qed.

Lemma placeCustomer_cases (customer : Location) (st st' : State) :
  placeCustomer depot customers vehicles timeMatrix st customer = Return st' ->
  exists s,
    bestSoFar depot customers vehicles timeMatrix customer
              (routes st) (length (routes st)) 0 s /\
    placed depot customers vehicles timeMatrix customer st st' s.
Proof.
  unfold placeCustomer. intros Hrun.
  destruct (searchRoutes depot customers vehicles timeMatrix customer 0
                         (routes st) initSearch) as [[rs s]|e] eqn:Hsearch;
    cbn [bind] in Hrun; [|discriminate].
  destruct (search_spec _ _ Hsearch) as [Hbest Hsame].
  exists s. split; [exact Hbest|].
  unfold commit in Hrun.
  destruct Hbest as (_ & _ & _ & [[Hidx Hmax]|(r & i & _ & Hidx & Hpos & Hcost & _)]).
  - rewrite Hidx in Hrun. cbn in Hrun. inversion Hrun; subst; clear Hrun.
    apply placed_unassigned; auto.
  - destruct (costAt_Some _ _ _ _ Hcost) as (route0 & Hn0 & _).
    destruct (Forall2_nth_error Hsame _ Hn0) as (route & Hn & Hsr).
    assert (Hne : (Z.of_nat r =? -1) = false) by (apply Z.eqb_neq; lia).
    rewrite Hidx, Hne, Nat2Z.id, Hn in Hrun. cbn in Hrun.
    inversion Hrun; subst; clear Hrun.
    eapply placed_assigned; eauto.
Qed.
End StepFacts.

(** ** Invariants of the customer loop *)

Lemma insertByReadyTime_perm (x : Location) (l : list Location) :
  Permutation (insertByReadyTime x l) (x :: l).
Proof.
  induction l as [|y l IH]; simpl; [reflexivity|].
  destruct (Location.readyTime x <=? Location.readyTime y)%Z; [reflexivity|].
  rewrite IH. apply perm_swap.
Qed.

Lemma sortByReadyTime_perm (l : list Location) : Permutation (sortByReadyTime l) l.
Proof.
  induction l as [|x l IH]; simpl; [reflexivity|].
  rewrite insertByReadyTime_perm. constructor. exact IH.
Qed.



Lemma splice_cons (position : nat) (customer first : Location) (rest : list Location) :
  splice (S position) customer (first :: rest) = first :: splice position customer rest.
Proof. reflexivity. Qed.

Lemma splice_perm (position : nat) (customer : Location) (l : list Location) :
  Permutation (splice position customer l) (customer :: l).
Proof.
  unfold splice. rewrite <- Permutation_middle.
  rewrite firstn_skipn. reflexivity.
Qed.

Section LoopInvariants.
Local Open Scope Z_scope.

Variable depot : Location.
Variable customers : list Location.
Variable vehicles : list Vehicle.
Variable timeMatrix : list (list Z).

(** A property of single routes that the search cannot break and that
    every insertion at a checked slot keeps holds after the step. *)
Lemma placeCustomer_routes_inv (P : Route -> Prop) (customer : Location) (st st' : State) :
  (forall a b, sameRoute a b -> P a -> P b) ->
  (forall route s i,
      P route ->
      (i < length (Route.locations route))%nat ->
      capacityAllows vehicles customer route = true ->
      bestPosition s = Z.of_nat (i + 1) ->
      P (insertInto customer s route)) ->
  Forall P (routes st) ->
  placeCustomer depot customers vehicles timeMatrix st customer = Return st' ->
  Forall P (routes st').
Proof.
  intros Hsame Hins HP Hrun.
  destruct (placeCustomer_cases _ _ _ _ _ _ Hrun) as (s & _ & Hcase).
  destruct Hcase as [_ _ Hrs _ _|r i route0 route rs _ Hpos Hrs Hn0 Hn Hsr Hcost Hst' _ _].
  - exact (Forall2_Forall_transfer Hsame Hrs HP).
  - rewrite Hst'.
    assert (HPrs : Forall P rs) by exact (Forall2_Forall_transfer Hsame Hrs HP).
    apply replaceNth_Forall; [exact HPrs|].
    destruct (costAt_Some _ _ _ _ _ _ _ _ Hcost) as (route1 & Hn1 & Hcap & _ & Hlen).
    assert (route1 = route0) by congruence. subst route1.
    apply (Hins route s i).
    + rewrite Forall_forall in HPrs. apply HPrs. eapply nth_error_In. exact Hn.
    + destruct Hsr as (_ & Hl & _). rewrite <- Hl. exact Hlen.
    + rewrite <- (capacityAllows_same vehicles customer Hsr). exact Hcap.
    + exact Hpos.
Qed.

Lemma placeAll_routes_inv (P : Route -> Prop) :
  (forall a b, sameRoute a b -> P a -> P b) ->
  forall sortedCustomers,
    (forall customer route s i,
        In customer sortedCustomers ->
        P route ->
        (i < length (Route.locations route))%nat ->
        capacityAllows vehicles customer route = true ->
        bestPosition s = Z.of_nat (i + 1) ->
        P (insertInto customer s route)) ->
    forall st st',
      Forall P (routes st) ->
      placeAll depot customers vehicles timeMatrix sortedCustomers st = Return st' ->
      Forall P (routes st').
Proof.
  intros Hsame. induction sortedCustomers as [|customer rest IH];
    intros Hins st st' HP Hrun.
  - simpl in Hrun. inversion Hrun; subst. exact HP.
  - cbn [placeAll] in Hrun.
    destruct (placeCustomer depot customers vehicles timeMatrix st customer)
      as [st1|e] eqn:Hstep; cbn [bind] in Hrun; [|discriminate].
    apply (IH (fun c route s i Hin => Hins c route s i (or_intror Hin)) st1 st');
      [|exact Hrun].
    eapply placeCustomer_routes_inv; [exact Hsame| |exact HP|exact Hstep].
    intros route s i. apply Hins. left. reflexivity.
Qed.

(** What [solveVRPTW] returns, in terms of the state after the customer
    loop. *)
Lemma solveVRPTW_returns (sol : VRPTWSolution) :
  solveVRPTW depot customers vehicles timeMatrix = Return sol ->
  exists st,
    placeAll depot customers vehicles timeMatrix (sortByReadyTime customers)
             (initState depot vehicles) = Return st /\
    sol =
    {| Solution.routes := map (closeRoute depot) (routes st);
       Solution.unassignedLocations := unassignedLocations st;
       Solution.totalDistance :=
         fold_left (fun sum route => (sum + Route.totalDistance route)%R)
                   (map (closeRoute depot) (routes st)) 0%R;
       Solution.totalTime :=
         fold_left (fun sum route => sum + Route.totalTime route)
                   (map (closeRoute depot) (routes st)) 0;
       Solution.feasible :=
         (length (unassignedLocations st) =? 0)%nat
         && forallb Route.feasible (map (closeRoute depot) (routes st));
       Solution.infeasibilityReasons := infeasibilityReasons st |}.
Proof.
  unfold solveVRPTW. intros Hrun.
  destruct (placeAll depot customers vehicles timeMatrix (sortByReadyTime customers)
                     (initState depot vehicles)) as [st|e]; cbn [bind] in Hrun;
    [|discriminate].
  exists st. split; [reflexivity|]. inversion Hrun. reflexivity.
Qed.

End LoopInvariants.

(** ** The feasible flags *)

(** The two cases of the closing loop for one route. *)
Ltac closeRoute_cases depot route :=
  unfold closeRoute;
  destruct ((1 <? length (Route.locations route))%nat &&
            negb (String.eqb (Location.id (last (Route.locations route) depot))
                             (Location.id depot))).

Lemma closeRoute_feasible (depot : Location) (route : Route) :
  Route.feasible (closeRoute depot route) = Route.feasible route.
Proof.
  closeRoute_cases depot route; reflexivity.
Qed.

(** C5: no step of the construction clears a route's [feasible] flag, so
    every returned route has [feasible = true] and the solution's flag is
    exactly "there is no unassigned customer". *)
Theorem route_feasible_flags_stay_true
        (depot : Location) (customers : list Location) (vehicles : list Vehicle)
        (timeMatrix : list (list Z)) (sol : VRPTWSolution) :
  solveVRPTW depot customers vehicles timeMatrix = Return sol ->
  (forall route, In route (Solution.routes sol) -> Route.feasible route = true) /\
  Solution.feasible sol = (length (Solution.unassignedLocations sol) =? 0)%nat.
Proof.
  intros Hrun.
  apply solveVRPTW_returns in Hrun. destruct Hrun as (st & Hloop & ->).
  cbn [Solution.feasible Solution.routes Solution.unassignedLocations].
  assert (Hall : Forall (fun route => Route.feasible route = true) (routes st)).
  { eapply placeAll_routes_inv with (P := fun route => Route.feasible route = true);
      [| | |exact Hloop].
    - intros a b (_ & _ & _ & _ & Hf) Ha. congruence.
    - intros customer route s i _ Hf _ _ _. exact Hf.
    - apply Forall_forall. intros route Hin.
      apply in_map_iff in Hin. destruct Hin as (vehicle & <- & _). reflexivity. }
  assert (Hclosed : forall route, In route (map (closeRoute depot) (routes st)) ->
                             Route.feasible route = true).
  { intros route Hin. apply in_map_iff in Hin. destruct Hin as (route0 & <- & Hin0).
    rewrite closeRoute_feasible. rewrite Forall_forall in Hall. auto. }
  split; [exact Hclosed|].
  assert (Hb : forallb Route.feasible (map (closeRoute depot) (routes st)) = true).
  { apply forallb_forall. exact Hclosed. }
  rewrite Hb. apply andb_true_r.
Qed.

Lemma route_feasible_flags_stay_true_witness :
  exists sol,
    solveVRPTW sampleDepot sampleCustomers sampleVehicles sampleMatrix = Return sol /\
    (forall route, In route (Solution.routes sol) -> Route.feasible route = true) /\
    Solution.feasible sol = (length (Solution.unassignedLocations sol) =? 0)%nat.
Proof.
  eexists. split.
  - reflexivity.
  - apply (@route_feasible_flags_stay_true
             sampleDepot sampleCustomers sampleVehicles sampleMatrix).
    reflexivity.
Defined.

(** ** Distances *)

Section DistanceTotals.
Local Open Scope R_scope.

Lemma fold_left_sum {A : Type} (f : A -> R) (l : list A) :
  forall a, fold_left (fun total x => total + f x) l a = a + sumR (map f l).
Proof.
  induction l as [|x l IH]; intros a; simpl.
  - lra.
  - rewrite IH. lra.
Qed.

Lemma pathLength_legs (locations : list Location) :
  sumR (map legDistance (legs locations)) = pathLength locations.
Proof.
  induction locations as [|from rest IH]; [reflexivity|].
  destruct rest as [|to rest']; [reflexivity|].
  change (legs (from :: to :: rest')) with ((from, to) :: legs (to :: rest')).
  cbn [map sumR fold_right]. fold (sumR (map legDistance (legs (to :: rest')))).
  rewrite IH. reflexivity.
Qed.

Lemma recomputeDistance_pathLength (locations : list Location) :
  recomputeDistance locations = pathLength locations.
Proof.
  unfold recomputeDistance. rewrite fold_left_sum, pathLength_legs. lra.
Qed.

Lemma closeRoute_distance (depot : Location) (route : Route) :
  Route.totalDistance route = recomputeDistance (Route.locations route) ->
  Route.totalDistance (closeRoute depot route)
  = recomputeDistance (Route.locations (closeRoute depot route)).
Proof.
  intros H. closeRoute_cases depot route; [reflexivity|exact H].
Qed.
End DistanceTotals.

(** C3: the solution's [totalDistance] is the sum of the routes'
    [totalDistance], and each route's [totalDistance] is the sum of the
    distances of the consecutive pairs of its final location sequence; the
    recomputation loop run on the final sequence gives the stored value. *)
Theorem totalDistance_is_sum_of_legs
        (depot : Location) (customers : list Location) (vehicles : list Vehicle)
        (timeMatrix : list (list Z)) (sol : VRPTWSolution) :
  solveVRPTW depot customers vehicles timeMatrix = Return sol ->
  Solution.totalDistance sol = sumR (map Route.totalDistance (Solution.routes sol)) /\
  (forall route,
      In route (Solution.routes sol) ->
      Route.totalDistance route = pathLength (Route.locations route) /\
      Route.totalDistance route = recomputeDistance (Route.locations route)).
Proof.
  intros Hrun.
  apply solveVRPTW_returns in Hrun. destruct Hrun as (st & Hloop & ->).
  cbn [Solution.totalDistance Solution.routes].
  split.
  - rewrite (fold_left_sum Route.totalDistance). lra.
  - assert (Hall : Forall (fun route => Route.totalDistance route
                                        = recomputeDistance (Route.locations route))
                          (routes st)).
    { eapply placeAll_routes_inv
        with (P := fun route => Route.totalDistance route
                                = recomputeDistance (Route.locations route));
        [| | |exact Hloop].
      - intros a b (_ & Hl & Hd & _) Ha. congruence.
      - intros customer route s i _ _ _ _ _. reflexivity.
      - apply Forall_forall. intros route Hin.
        apply in_map_iff in Hin. destruct Hin as (vehicle & <- & _).
        cbn. unfold recomputeDistance. reflexivity. }
    intros route Hin. apply in_map_iff in Hin. destruct Hin as (route0 & <- & Hin0).
    rewrite Forall_forall in Hall.
    rewrite <- recomputeDistance_pathLength.
    split; apply closeRoute_distance; auto.
Qed.

Lemma totalDistance_is_sum_of_legs_witness :
  exists sol,
    solveVRPTW sampleDepot sampleCustomers sampleVehicles sampleMatrix = Return sol /\
    Solution.totalDistance sol = sumR (map Route.totalDistance (Solution.routes sol)) /\
    (forall route,
        In route (Solution.routes sol) ->
        Route.totalDistance route = pathLength (Route.locations route) /\
        Route.totalDistance route = recomputeDistance (Route.locations route)).
Proof.
  eexists. split.
  - reflexivity.
  - apply (@totalDistance_is_sum_of_legs
             sampleDepot sampleCustomers sampleVehicles sampleMatrix).
    reflexivity.
Defined.

(** ** The shape of a route *)

Lemma splice_Forall (P : Location -> Prop) (position : nat) (customer : Location)
      (l : list Location) :
  P customer -> Forall P l -> Forall P (splice position customer l).
Proof.
  intros Hc Hl. unfold splice.
  rewrite <- (firstn_skipn position l) in Hl. apply Forall_app in Hl.
  destruct Hl as [Hfirst Hrest].
  apply Forall_app. split; [exact Hfirst|]. constructor; assumption.
Qed.

Lemma insertInto_locations (customer : Location) (s : Search) (route : Route)
      (i : nat) (first : Location) (mid : list Location) :
  bestPosition s = Z.of_nat (i + 1) ->
  Route.locations route = first :: mid ->
  Route.locations (insertInto customer s route) = first :: splice i customer mid.
Proof.
  intros Hpos Hloc. unfold insertInto. cbn [Route.locations].
  rewrite Hpos, Nat2Z.id, Hloc, Nat.add_1_r. apply splice_cons.
Qed.

Lemma solveVRPTW_openRoute
      (depot : Location) (customers : list Location) (vehicles : list Vehicle)
      (timeMatrix : list (list Z)) (st : State) :
  placeAll depot customers vehicles timeMatrix (sortByReadyTime customers)
           (initState depot vehicles) = Return st ->
  Forall (openRoute depot customers) (routes st).
Proof.
  intros Hloop.
  eapply placeAll_routes_inv with (P := openRoute depot customers);
    [| | |exact Hloop].
  - intros a b (_ & Hl & _) (mid & Ha & Hmid). exists mid. split; congruence.
  - intros customer route s i Hin (mid & Hloc & Hmid) _ _ Hpos.
    exists (splice i customer mid). split.
    + apply insertInto_locations; assumption.
    + apply splice_Forall; [|exact Hmid].
      apply (Permutation_in _ (sortByReadyTime_perm customers)). exact Hin.
  - apply Forall_forall. intros route Hin.
    apply in_map_iff in Hin. destruct Hin as (vehicle & <- & _).
    exists []. split; [reflexivity|constructor].
Qed.

Lemma last_cons_nonempty (first x : Location) (mid : list Location) (d : Location) :
  last (first :: x :: mid) d = last (x :: mid) d.
Proof. reflexivity. Qed.

Lemma last_In (x : Location) (mid : list Location) (d : Location) :
  In (last (x :: mid) d) (x :: mid).
Proof.
  revert x. induction mid as [|y mid IH]; intros x.
  - left. reflexivity.
  - right. apply (IH y).
Qed.

(** C4: for an input whose customers' identifiers differ from the depot's,
    every returned route starts and ends at the depot: a route that received
    no customer is the depot alone, and any other route is the depot, its
    customers, and the depot appended by the closing loop. *)
Theorem routes_start_and_end_at_depot
        (depot : Location) (customers : list Location) (vehicles : list Vehicle)
        (timeMatrix : list (list Z)) (sol : VRPTWSolution) :
  (forall customer, In customer customers ->
                    Location.id customer <> Location.id depot) ->
  solveVRPTW depot customers vehicles timeMatrix = Return sol ->
  forall route,
    In route (Solution.routes sol) ->
    hd_error (Route.locations route) = Some depot /\
    hd_error (rev (Route.locations route)) = Some depot /\
    exists mid,
      Forall (fun l => In l customers) mid /\
      Route.locations route =
      match mid with
      | [] => [depot]
      | _ :: _ => depot :: mid ++ [depot]
      end.
Proof.
  intros Hids Hrun route Hin.
  apply solveVRPTW_returns in Hrun. destruct Hrun as (st & Hloop & ->).
  cbn [Solution.routes] in Hin.
  apply in_map_iff in Hin. destruct Hin as (route0 & <- & Hin0).
  pose proof (solveVRPTW_openRoute _ _ _ _ Hloop) as Hopen.
  rewrite Forall_forall in Hopen.
  destruct (Hopen _ Hin0) as (mid & Hloc & Hmid).
  assert (Hshape : Route.locations (closeRoute depot route0) =
                   match mid with
                   | [] => [depot]
                   | _ :: _ => depot :: mid ++ [depot]
                   end).
  { unfold closeRoute. rewrite Hloc. destruct mid as [|x mid'].
    - simpl. exact Hloc.
    - rewrite last_cons_nonempty.
      assert (Hlast : In (last (x :: mid') depot) customers).
      { rewrite Forall_forall in Hmid. apply Hmid. apply last_In. }
      apply Hids in Hlast. apply String.eqb_neq in Hlast. rewrite Hlast.
      reflexivity. }
  rewrite Hshape. repeat split.
  - destruct mid; reflexivity.
  - destruct mid as [|x mid']; [reflexivity|].
    change (depot :: (x :: mid') ++ [depot]) with ((depot :: x :: mid') ++ [depot]).
    rewrite rev_app_distr. reflexivity.
  - exists mid. split; [exact Hmid|reflexivity].
Qed.

Lemma routes_start_and_end_at_depot_witness :
  exists sol,
    solveVRPTW sampleDepot sampleCustomers sampleVehicles sampleMatrix = Return sol /\
    forall route,
      In route (Solution.routes sol) ->
      hd_error (Route.locations route) = Some sampleDepot /\
      hd_error (rev (Route.locations route)) = Some sampleDepot /\
      exists mid,
        Forall (fun l => In l sampleCustomers) mid /\
        Route.locations route =
        match mid with
        | [] => [sampleDepot]
        | _ :: _ => sampleDepot :: mid ++ [sampleDepot]
        end.
Proof.
  eexists. split.
  - reflexivity.
  - apply (@routes_start_and_end_at_depot
             sampleDepot sampleCustomers sampleVehicles sampleMatrix).
    + intros customer [<-|[<-|[<-|[]]]]; discriminate.
    + reflexivity.
Defined.

(** ** Capacity *)

Section Capacity.
Local Open Scope Z_scope.

Lemma fold_demand_shift (l : list Location) :
  forall a,
    fold_left (fun sum loc => sum + Location.demand loc) l a
    = a + fold_left (fun sum loc => sum + Location.demand loc) l 0.
Proof.
  induction l as [|x l IH]; intros a; simpl.
  - lia.
  - rewrite (IH (a + Location.demand x)), (IH (Location.demand x)). lia.
Qed.

Lemma fold_demand_app (l1 l2 : list Location) :
  fold_left (fun sum loc => sum + Location.demand loc) (l1 ++ l2) 0
  = fold_left (fun sum loc => sum + Location.demand loc) l1 0
    + fold_left (fun sum loc => sum + Location.demand loc) l2 0.
Proof.
  rewrite fold_left_app. apply fold_demand_shift.
Qed.

Lemma fold_demand_splice (position : nat) (customer : Location) (l : list Location) :
  fold_left (fun sum loc => sum + Location.demand loc) (splice position customer l) 0
  = fold_left (fun sum loc => sum + Location.demand loc) l 0 + Location.demand customer.
Proof.
  unfold splice.
  rewrite <- (firstn_skipn position l) at 3.
  rewrite !fold_demand_app. simpl.
  rewrite (fold_demand_shift (skipn position l) (Location.demand customer)). lia.
Qed.

Lemma demandExcludingDepot_le_totalDemand (depot : Location) (route : Route) :
  Forall (fun l => 0 <= Location.demand l) (Route.locations route) ->
  demandExcludingDepot depot route <= totalDemand route.
Proof.
  unfold demandExcludingDepot, totalDemand.
  induction (Route.locations route) as [|x l IH]; intros Hnn; simpl.
  - lia.
  - inversion Hnn as [|? ? Hx Hl]; subst. specialize (IH Hl).
    rewrite (fold_demand_shift l (Location.demand x)).
    destruct (String.eqb (Location.id x) (Location.id depot)); lia.
Qed.

Lemma find_exists {A : Type} (f : A -> bool) (l : list A) (x : A) :
  In x l -> f x = true -> exists y, find f l = Some y.
Proof.
  intros Hin Hx. destruct (find f l) as [y|] eqn:Hfind; [eauto|].
  rewrite (find_none f l Hfind x Hin) in Hx. discriminate.
Qed.

Lemma closeRoute_withinCapacity (depot : Location) (vehicles : list Vehicle)
      (route : Route) :
  Location.demand depot = 0 ->
  withinCapacity vehicles route ->
  withinCapacity vehicles (closeRoute depot route).
Proof.
  intros Hdepot Hroute. closeRoute_cases depot route; [|exact Hroute].
  destruct Hroute as ((vehicle & Hfind & Hfits) & Hnn).
  split.
  - exists vehicle. split; [exact Hfind|].
    unfold totalDemand in *. cbn [Route.locations].
    rewrite fold_demand_app. simpl. lia.
  - cbn [Route.locations]. apply Forall_app. split; [exact Hnn|].
    constructor; [lia|constructor].
Qed.

Lemma NoDup_map_unique {A B : Type} (f : A -> B) (l : list A) (x y : A) :
  NoDup (map f l) -> In x l -> In y l -> f x = f y -> x = y.
Proof.
  induction l as [|a l IH]; cbn [map]; intros Hnd Hx Hy Heq; [destruct Hx|].
  apply NoDup_cons_iff in Hnd. destruct Hnd as [Hnotin Hnd].
  destruct Hx as [<-|Hx], Hy as [<-|Hy].
  - reflexivity.
  - exfalso. apply Hnotin. rewrite Heq. apply in_map. exact Hy.
  - exfalso. apply Hnotin. rewrite <- Heq. apply in_map. exact Hx.
  - apply IH; assumption.
Qed.

(** C1, amended: when the demands and the capacities are whole numbers,
    the depot has demand 0, no customer demand and no vehicle capacity is
    negative and no two vehicles share an id, every returned route has
    exactly one owner, the vehicle whose id is its [vehicleId], and carries,
    over its locations other than the depot, at most the capacity of that
    vehicle, whatever its [feasible] flag. *)
Theorem route_demand_within_capacity
        (depot : Location) (customers : list Location) (vehicles : list Vehicle)
        (timeMatrix : list (list Z)) (sol : VRPTWSolution) :
  Location.demand depot = 0 ->
  (forall customer, In customer customers -> 0 <= Location.demand customer) ->
  (forall vehicle, In vehicle vehicles -> 0 <= Vehicle.capacity vehicle) ->
  NoDup (map Vehicle.id vehicles) ->
  solveVRPTW depot customers vehicles timeMatrix = Return sol ->
  forall route,
    In route (Solution.routes sol) ->
    exists vehicle,
      In vehicle vehicles /\
      Vehicle.id vehicle = Route.vehicleId route /\
      (forall owner,
          In owner vehicles -> Vehicle.id owner = Route.vehicleId route ->
          owner = vehicle) /\
      demandExcludingDepot depot route <= Vehicle.capacity vehicle.
Proof.
  intros Hdepot Hdemand Hcapacity Hids Hrun route Hin.
  apply solveVRPTW_returns in Hrun. destruct Hrun as (st & Hloop & ->).
  cbn [Solution.routes] in Hin.
  apply in_map_iff in Hin. destruct Hin as (route0 & <- & Hin0).
  assert (Hall : Forall (withinCapacity vehicles) (routes st)).
  { eapply placeAll_routes_inv with (P := withinCapacity vehicles);
      [| | |exact Hloop].
    - intros a b Hsame ((vehicle & Hfind & Hfits) & Hnn).
      destruct a, b. unfold sameRoute in Hsame. simpl in Hsame.
      destruct Hsame as (Hv & Hl & _). subst. split; [|exact Hnn].
      exists vehicle. split; [exact Hfind|exact Hfits].
    - intros customer route s i Hc ((vehicle & Hfind & Hfits) & Hnn) _ Hallow _.
      assert (Hc' : In customer customers)
        by (apply (Permutation_in _ (sortByReadyTime_perm customers)); exact Hc).
      unfold capacityAllows in Hallow. rewrite Hfind in Hallow.
      apply negb_true_iff in Hallow. rewrite Z.gtb_ltb in Hallow.
      apply Z.ltb_ge in Hallow.
      split.
      + exists vehicle. split; [exact Hfind|].
        unfold totalDemand in *. cbn [insertInto Route.locations].
        rewrite fold_demand_splice. lia.
      + cbn [insertInto Route.locations]. apply splice_Forall; auto.
    - apply Forall_forall. intros route Hr.
      apply in_map_iff in Hr. destruct Hr as (vehicle & <- & Hv).
      split.
      + destruct (find_exists (fun v => String.eqb (Vehicle.id v) (Vehicle.id vehicle))
                              vehicles vehicle Hv (String.eqb_refl _)) as (found & Hfound).
        exists found. split; [exact Hfound|].
        apply find_some in Hfound. destruct Hfound as [Hfin _].
        specialize (Hcapacity _ Hfin). unfold totalDemand. simpl. lia.
      + simpl. constructor; [lia|constructor]. }
  rewrite Forall_forall in Hall.
  destruct (@closeRoute_withinCapacity depot vehicles route0 Hdepot (Hall _ Hin0))
    as ((vehicle & Hfind & Hfits) & Hnn).
  exists vehicle.
  pose proof (find_some _ _ Hfind) as [Hvin Hvid].
  apply String.eqb_eq in Hvid.
  split; [exact Hvin|]. split; [exact Hvid|]. split.
  - intros owner Hoin Hoid.
    apply (@NoDup_map_unique _ _ Vehicle.id vehicles owner vehicle Hids Hoin Hvin).
    congruence.
  - pose proof (demandExcludingDepot_le_totalDemand depot _ Hnn). lia.
Qed.
End Capacity.

Lemma route_demand_within_capacity_witness :
  exists sol,
    solveVRPTW sampleDepot sampleCustomers
               [sampleVehicle "v1" 2; sampleVehicle "v2" 100] sampleMatrix
    = Return sol /\
    forall route,
      In route (Solution.routes sol) ->
      exists vehicle,
        In vehicle [sampleVehicle "v1" 2; sampleVehicle "v2" 100] /\
        Vehicle.id vehicle = Route.vehicleId route /\
        (forall owner,
            In owner [sampleVehicle "v1" 2; sampleVehicle "v2" 100] ->
            Vehicle.id owner = Route.vehicleId route ->
            owner = vehicle) /\
        (demandExcludingDepot sampleDepot route <= Vehicle.capacity vehicle)%Z.
Proof.
  eexists. split.
  - reflexivity.
  - apply (@route_demand_within_capacity
             sampleDepot sampleCustomers
             [sampleVehicle "v1" 2; sampleVehicle "v2" 100] sampleMatrix).
    + reflexivity.
    + intros customer [<-|[<-|[<-|[]]]]; simpl; lia.
    + intros vehicle [<-|[<-|[]]]; simpl; lia.
    + repeat constructor; simpl; intuition discriminate.
    + reflexivity.
Defined.

(** C1 as stated fails: with demand 0 at the depot and non-negative customer
    demands but a vehicle of capacity -1, the route of that vehicle stays at
    the depot alone, and its demand 0 exceeds the capacity. *)
Lemma capacity_bound_fails_for_negative_capacity :
  Location.demand sampleDepot = 0%Z /\
  (forall customer, In customer sampleCustomers -> (0 <= Location.demand customer)%Z) /\
  exists sol route vehicle,
    solveVRPTW sampleDepot sampleCustomers [sampleVehicle "v1" (-1)] sampleMatrix
    = Return sol /\
    In route (Solution.routes sol) /\
    In vehicle [sampleVehicle "v1" (-1)] /\
    Vehicle.id vehicle = Route.vehicleId route /\
    ~ (demandExcludingDepot sampleDepot route <= Vehicle.capacity vehicle)%Z.
Proof.
  split; [reflexivity|]. split.
  - intros customer [<-|[<-|[<-|[]]]]; simpl; lia.
  - eexists. eexists. exists (sampleVehicle "v1" (-1)). split; [reflexivity|].
    split; [left; reflexivity|]. split; [left; reflexivity|].
    split; [reflexivity|]. lazy. intros H. apply H. reflexivity.
Qed.

(** The capacity test looks the vehicle up by id and takes the first one.
    When two vehicles share an id, the route of the second is tested
    against the capacity of the first: here the second vehicle, of capacity
    0, gets annex, of demand 1. *)
Example repeated_vehicle_id_exceeds_owner_capacity :
  exists sol route,
    solveVRPTW sampleDepot sampleCustomers
               [sampleVehicle "v1" 100; sampleVehicle "v1" 0] sampleMatrix
    = Return sol /\
    nth_error (Solution.routes sol) 1 = Some route /\
    nth_error [sampleVehicle "v1" 100; sampleVehicle "v1" 0] 1
    = Some (sampleVehicle "v1" 0) /\
    Route.vehicleId route = Vehicle.id (sampleVehicle "v1" 0) /\
    map Location.id (Route.locations route) = ["depot"; "annex"; "depot"]%string /\
    demandExcludingDepot sampleDepot route = 1%Z /\
    Vehicle.capacity (sampleVehicle "v1" 0) = 0%Z.
Proof.
  eexists. eexists. split; [reflexivity|]. split; [reflexivity|].
  repeat split.
Qed.

(** With travel time 0 everywhere every customer is inserted right after
    the depot, so the route lists the customers in the reverse of the order
    in which they were inserted. *)
Example zero_matrix_inserts_after_depot :
  exists sol,
    solveVRPTW sampleDepot tenthsCustomers [sampleVehicle "v1" 6] zeroMatrix
    = Return sol /\
    map (fun route => map Location.id (Route.locations route)) (Solution.routes sol)
    = [["depot"; "c"; "b"; "a"; "depot"]]%string /\
    Solution.unassignedLocations sol = [].
Proof.
  eexists. split; [reflexivity|]. split; reflexivity.
Qed.

Section DecimalDemands.
Import PrimFloat.
Local Open Scope float_scope.
Local Set Warnings "-inexact-float".

(** On doubles the bound needs whole numbers.  With demands 0.3, 0.2 and
    0.1 inserted in this order right after the depot and a capacity of 0.6,
    each capacity test passes (0.3, then 0.3 + 0.2 = 0.5, then
    0.2 + 0.3 + 0.1 = 0.6), and the demand of the finished route depot, 0.1,
    0.2, 0.3, depot adds up to 0.6000000000000001, above the capacity; the
    result table then shows the route overloaded. *)
Example decimal_demands_round_past_capacity :
  Double.overCapacity [0] 0.3 0.6 = false /\
  Double.overCapacity [0; 0.3] 0.2 0.6 = false /\
  Double.overCapacity [0; 0.2; 0.3] 0.1 0.6 = false /\
  Double.totalDemand [0; 0.1; 0.2; 0.3; 0] = 0.6000000000000001 /\
  (0.6 <? Double.totalDemand [0; 0.1; 0.2; 0.3; 0]) = true /\
  Double.isOverloaded [0; 0.1; 0.2; 0.3; 0] 0.6 = true.
Proof. repeat split. Qed.

(** In the same way the clock of the timeline is 480 plus the totals only
    for whole numbers: three stops at one place with service times 0, 0.1
    and 0.1 leave the clock at 480.20000000000005, while 480 plus the
    total service time 0.2 is 480.2. *)
Example decimal_service_times_round_the_clock :
  Double.serviceClock [0; 0.1; 0.1] = 480.20000000000005 /\
  Double.totalServiceTime [0; 0.1; 0.1] = 0.2 /\
  (Double.serviceClock [0; 0.1; 0.1] =? 480 + Double.totalServiceTime [0; 0.1; 0.1])
  = false.
Proof. repeat split. Qed.
End DecimalDemands.

(** ** Every customer ends in exactly one place *)

Lemma sameRoute_stops (rs rs' : list Route) :
  Forall2 sameRoute rs rs' -> map stops rs = map stops rs'.
Proof.
  induction 1 as [|a b l l' (_ & Hl & _) _ IH]; [reflexivity|].
  simpl. unfold stops at 1 3. rewrite Hl, IH. reflexivity.
Qed.

Lemma sameRoute_vehicleIds (rs rs' : list Route) :
  Forall2 sameRoute rs rs' -> map Route.vehicleId rs = map Route.vehicleId rs'.
Proof.
  induction 1 as [|a b l l' (Hv & _) _ IH]; [reflexivity|].
  simpl. rewrite Hv, IH. reflexivity.
Qed.

Lemma replaceNth_vehicleIds (x route : Route) :
  forall rs r,
    nth_error rs r = Some route ->
    Route.vehicleId x = Route.vehicleId route ->
    map Route.vehicleId (replaceNth r x rs) = map Route.vehicleId rs.
Proof.
  induction rs as [|y rs IH]; intros [|r] Hn Hx; simpl in *; try discriminate.
  - inversion Hn; subst. rewrite Hx. reflexivity.
  - rewrite (IH r Hn Hx). reflexivity.
Qed.

Lemma replaceNth_stops (customer : Location) (x route : Route) :
  forall rs r,
    nth_error rs r = Some route ->
    Permutation (stops x) (customer :: stops route) ->
    Permutation (concat (map stops (replaceNth r x rs)))
                (customer :: concat (map stops rs)).
Proof.
  induction rs as [|y rs IH]; intros [|r] Hn Hx; simpl in *; try discriminate.
  - inversion Hn; subst. rewrite Hx. reflexivity.
  - rewrite (IH r Hn Hx). symmetry. apply Permutation_middle.
Qed.

Lemma concat_map_nil {A B : Type} (l : list A) :
  concat (map (fun _ : A => @nil B) l) = [].
Proof. induction l; simpl; auto. Qed.

Section Partition.
Variable depot : Location.
Variable customers : list Location.
Variable vehicles : list Vehicle.
Variable timeMatrix : list (list Z).

Lemma placeCustomer_partition (customer : Location) (st st' : State) :
  placeCustomer depot customers vehicles timeMatrix st customer = Return st' ->
  Permutation (placedCustomers st') (customer :: placedCustomers st) /\
  map Route.vehicleId (routes st') = map Route.vehicleId (routes st).
Proof.
  intros Hrun. apply placeCustomer_cases in Hrun. destruct Hrun as (s & _ & Hcase).
  unfold placedCustomers.
  destruct Hcase as [_ _ Hrs Hun _|r i route0 route rs _ Hpos Hrs Hn0 Hn Hsr Hcost Hst' Hun _].
  - rewrite Hun, <- (sameRoute_stops Hrs), <- (sameRoute_vehicleIds Hrs).
    split; [|reflexivity].
    rewrite app_assoc. rewrite <- Permutation_cons_append. reflexivity.
  - rewrite Hun, Hst'.
    apply costAt_Some in Hcost. destruct Hcost as (route1 & Hn1 & _ & _ & Hlen).
    assert (route1 = route0) by congruence. subst route1.
    destruct Hsr as (Hv & Hl & _). rewrite Hl in Hlen.
    split.
    + rewrite (sameRoute_stops Hrs).
      assert (Hstops : Permutation (stops (insertInto customer s route))
                                   (customer :: stops route)).
      { unfold stops.
        destruct (Route.locations route) as [|first mid] eqn:Hloc;
          [simpl in Hlen; lia|].
        rewrite (@insertInto_locations customer s route i first mid Hpos Hloc).
        apply splice_perm. }
      rewrite (@replaceNth_stops customer (insertInto customer s route) route rs r Hn Hstops).
      reflexivity.
    + rewrite (sameRoute_vehicleIds Hrs).
      apply (@replaceNth_vehicleIds (insertInto customer s route) route rs r Hn).
      reflexivity.
Qed.

Lemma placeAll_partition :
  forall sortedCustomers st st',
    placeAll depot customers vehicles timeMatrix sortedCustomers st = Return st' ->
    Permutation (placedCustomers st') (sortedCustomers ++ placedCustomers st) /\
    map Route.vehicleId (routes st') = map Route.vehicleId (routes st).
Proof.
  induction sortedCustomers as [|customer rest IH]; intros st st' Hrun.
  - simpl in Hrun. inversion Hrun; subst. split; reflexivity.
  - cbn [placeAll] in Hrun.
    destruct (placeCustomer depot customers vehicles timeMatrix st customer)
      as [st1|e] eqn:Hstep; cbn [bind] in Hrun; [|discriminate].
    destruct (placeCustomer_partition _ _ Hstep) as [Hperm1 Hids1].
    destruct (IH _ _ Hrun) as [Hperm Hids].
    split; [|congruence].
    rewrite Hperm, Hperm1. simpl. symmetry. apply Permutation_middle.
Qed.

Lemma closeRoute_visits (route : Route) (mid : list Location) :
  Route.locations route = depot :: mid ->
  visits depot (closeRoute depot route) mid.
Proof.
  intros Hloc. unfold visits. closeRoute_cases depot route.
  - right. cbn [Route.locations]. rewrite Hloc. reflexivity.
  - left. exact Hloc.
Qed.

Lemma closeRoute_vehicleId (route : Route) :
  Route.vehicleId (closeRoute depot route) = Route.vehicleId route.
Proof.
  closeRoute_cases depot route; reflexivity.
Qed.
End Partition.

(** C10: the returned solution has one route per input vehicle, in the
    order of the vehicles, and the customers on the routes together with the
    unassigned customers are exactly the input customers, each as often as
    it occurs in the input. *)
Theorem solution_partitions_customers
        (depot : Location) (customers : list Location) (vehicles : list Vehicle)
        (timeMatrix : list (list Z)) (sol : VRPTWSolution) :
  solveVRPTW depot customers vehicles timeMatrix = Return sol ->
  map Route.vehicleId (Solution.routes sol) = map Vehicle.id vehicles /\
  exists mids,
    Forall2 (visits depot) (Solution.routes sol) mids /\
    Permutation (concat mids ++ Solution.unassignedLocations sol) customers.
Proof.
  intros Hrun.
  apply solveVRPTW_returns in Hrun. destruct Hrun as (st & Hloop & ->).
  cbn [Solution.routes Solution.unassignedLocations].
  pose proof (solveVRPTW_openRoute _ _ _ _ Hloop) as Hopen.
  apply placeAll_partition in Hloop. destruct Hloop as [Hperm Hids].
  split.
  - rewrite map_map.
    rewrite (map_ext _ Route.vehicleId (closeRoute_vehicleId depot)).
    rewrite Hids. simpl. rewrite map_map. reflexivity.
  - exists (map stops (routes st)). split.
    + clear Hperm Hids. induction Hopen as [|route rs (mid & Hloc & _) _ IH];
        simpl; constructor; [|exact IH].
      unfold stops. rewrite Hloc. simpl. apply closeRoute_visits. exact Hloc.
    + unfold placedCustomers in Hperm. rewrite Hperm.
      unfold initState. cbn [routes unassignedLocations].
      rewrite map_map. simpl.
      unfold stops at 1. simpl. rewrite concat_map_nil. rewrite !app_nil_r.
      apply sortByReadyTime_perm.
Qed.

Lemma solution_partitions_customers_witness :
  exists sol,
    solveVRPTW sampleDepot sampleCustomers sampleVehicles sampleMatrix = Return sol /\
    map Route.vehicleId (Solution.routes sol) = map Vehicle.id sampleVehicles /\
    exists mids,
      Forall2 (visits sampleDepot) (Solution.routes sol) mids /\
      Permutation (concat mids ++ Solution.unassignedLocations sol) sampleCustomers.
Proof.
  eexists. split.
  - reflexivity.
  - apply (@solution_partitions_customers
             sampleDepot sampleCustomers sampleVehicles sampleMatrix).
    reflexivity.
Defined.

(** ** No exception on a matrix with enough rows *)

Lemma findIndexFrom_range {A : Type} (pred : A -> bool) (l : list A) :
  forall k,
    findIndexFrom pred k l = (-1)%Z \/
    (k <= findIndexFrom pred k l < k + Z.of_nat (length l))%Z.
Proof.
  induction l as [|x l IH]; intros k; simpl.
  - left. reflexivity.
  - destruct (pred x).
    + right. lia.
    + destruct (IH (k + 1)%Z) as [H|H]; [left; exact H|right; lia].
Qed.

Section Progress.
Local Open Scope Z_scope.

Variable depot : Location.
Variable customers : list Location.
Variable vehicles : list Vehicle.
Variable timeMatrix : list (list Z).

Hypothesis enoughRows : (length customers < length timeMatrix)%nat.

Lemma matrixIndex_range (loc : Location) :
  matrixIndex depot customers loc = -1 \/
  0 <= matrixIndex depot customers loc < Z.of_nat (length timeMatrix).
Proof.
  unfold matrixIndex, findIndex.
  destruct (findIndexFrom_range
              (fun l => String.eqb (Location.id l) (Location.id loc))
              (customers ++ [depot]) 0) as [H|H]; [left; exact H|right].
  rewrite length_app in H. simpl in H. lia.
Qed.

Lemma readMatrix_returns (i j : Z) :
  0 <= i < Z.of_nat (length timeMatrix) ->
  exists v, readMatrix timeMatrix i j = Return v.
Proof.
  intros Hi. unfold readMatrix.
  destruct (Z.ltb_spec i 0) as [Hneg|_]; [lia|].
  destruct (nth_error timeMatrix (Z.to_nat i)) as [row|] eqn:Hrow.
  - destruct (j <? 0); [eauto|].
    destruct (nth_error row (Z.to_nat j)); eauto.
  - apply nth_error_None in Hrow. lia.
Qed.

Lemma evalSlot_returns (customer : Location) (route : Route) (i : nat) :
  (i < length (Route.locations route))%nat ->
  exists v, evalSlot depot customers timeMatrix customer route i = Return v.
Proof.
  intros Hi. unfold evalSlot.
  destruct (nth_error (Route.locations route) i) as [prev|] eqn:Hprev.
  2:{ apply nth_error_None in Hprev. lia. }
  destruct (matrixIndex_range prev) as [Hp|Hp].
  { rewrite Hp. simpl. eauto. }
  destruct (matrixIndex_range customer) as [Hc|Hc].
  { rewrite Hc. rewrite orb_true_r. simpl. eauto. }
  destruct (matrixIndex_range (nextOf depot route i)) as [Hn|Hn].
  { rewrite Hn. rewrite !orb_true_r. eauto. }
  destruct ((matrixIndex depot customers prev =? -1)
            || (matrixIndex depot customers customer =? -1)
            || (matrixIndex depot customers (nextOf depot route i) =? -1));
    [eauto|].
  destruct (@readMatrix_returns (matrixIndex depot customers prev) (matrixIndex depot customers customer) Hp) as (t1 & ->).
  destruct (@readMatrix_returns (matrixIndex depot customers customer) (matrixIndex depot customers (nextOf depot route i)) Hc)
    as (t2 & ->).
  destruct (@readMatrix_returns (matrixIndex depot customers prev) (matrixIndex depot customers (nextOf depot route i)) Hp)
    as (t3 & ->).
  cbn [bind].
  repeat match goal with
         | |- context [if ?b then _ else _] => destruct b
         end; eauto.
Qed.

Lemma trySlot_returns (customer : Location) (r i : nat) (route : Route) (s : Search) :
  (i < length (Route.locations route))%nat ->
  exists route' s',
    trySlot depot customers timeMatrix customer r i (route, s) = Return (route', s') /\
    sameRoute route route'.
Proof.
  intros Hi. unfold trySlot.
  destruct (@evalSlot_returns customer route i Hi) as (v & ->). cbn [bind].
  destruct v; eexists; eexists; (split; [reflexivity|]);
    auto using sameRoute_refl, sameRoute_setReason.
Qed.

Lemma trySlots_returns (customer : Location) (r : nat) :
  forall positions route s,
    Forall (fun i => (i < length (Route.locations route))%nat) positions ->
    exists res,
      trySlots depot customers timeMatrix customer r positions (route, s) = Return res.
Proof.
  induction positions as [|i positions IH]; intros route s Hpos.
  - simpl. eauto.
  - inversion Hpos as [|? ? Hi Hrest]; subst. cbn [trySlots].
    destruct (@trySlot_returns customer r i route s Hi) as (route' & s' & -> & Hsame).
    cbn [bind]. apply IH.
    destruct Hsame as (_ & Hl & _). rewrite <- Hl. exact Hrest.
Qed.

Lemma tryRoute_returns (customer : Location) (r : nat) (route : Route) (s : Search) :
  findVehicle vehicles route <> None ->
  exists res,
    tryRoute depot customers vehicles timeMatrix customer r route s = Return res.
Proof.
  intros Hfind. unfold tryRoute.
  destruct (findVehicle vehicles route) as [vehicle|]; [|congruence].
  destruct (totalDemand route + Location.demand customer >? Vehicle.capacity vehicle);
    [eauto|].
  apply trySlots_returns. apply Forall_forall. intros i Hi.
  apply in_seq in Hi. lia.
Qed.

Lemma searchRoutes_returns (customer : Location) :
  forall rs r s,
    Forall (fun route => findVehicle vehicles route <> None) rs ->
    exists res,
      searchRoutes depot customers vehicles timeMatrix customer r rs s = Return res.
Proof.
  induction rs as [|route rest IH]; intros r s Hall.
  - simpl. eauto.
  - inversion Hall as [|? ? Hroute Hrest]; subst. cbn [searchRoutes].
    destruct (@tryRoute_returns customer r route s Hroute) as ([route' s'] & ->). cbn [bind].
    destruct (IH (S r) s' Hrest) as ([rest' s''] & ->). cbn [bind]. eauto.
Qed.

Lemma placeCustomer_returns (customer : Location) (st : State) :
  Forall (fun route => findVehicle vehicles route <> None) (routes st) ->
  exists st', placeCustomer depot customers vehicles timeMatrix st customer = Return st'.
Proof.
  intros Hall. unfold placeCustomer.
  destruct (@searchRoutes_returns customer (routes st) 0%nat initSearch Hall) as ([rs s] & Hsearch).
  rewrite Hsearch. cbn [bind].
  apply search_spec in Hsearch. destruct Hsearch as [Hbest Hsame].
  unfold commit.
  destruct Hbest as (_ & _ & _ & [[Hidx _]|(r & i & _ & Hidx & _ & Hcost & _)]).
  - rewrite Hidx. simpl. eauto.
  - apply costAt_Some in Hcost. destruct Hcost as (route0 & Hn0 & _).
    destruct (Forall2_nth_error Hsame _ Hn0) as (route & Hn & _).
    assert (Hne : (Z.of_nat r =? -1) = false) by (apply Z.eqb_neq; lia).
    rewrite Hidx, Hne, Nat2Z.id, Hn. simpl. eauto.
Qed.
End Progress.

Section VehicleLookup.
Variable depot : Location.
Variable customers : list Location.
Variable vehicles : list Vehicle.
Variable timeMatrix : list (list Z).

(** The lookup of a route's vehicle succeeds all along the customer loop,
    because the routes take their [vehicleId] from the vehicles. *)
Lemma placeAll_vehicle_found (sortedCustomers : list Location) (st : State) :
  placeAll depot customers vehicles timeMatrix sortedCustomers
           (initState depot vehicles) = Return st ->
  Forall (fun route => findVehicle vehicles route <> None) (routes st).
Proof.
  intros Hloop.
  eapply placeAll_routes_inv
    with (P := fun route => findVehicle vehicles route <> None);
    [| | |exact Hloop].
  - intros a b (Hv & _) Ha. unfold findVehicle in *. rewrite <- Hv. exact Ha.
  - intros customer route s i _ Hr _ _ _. exact Hr.
  - apply Forall_forall. intros route Hin.
    apply in_map_iff in Hin. destruct Hin as (vehicle & <- & Hv).
    unfold findVehicle. cbn [initRoute Route.vehicleId].
    destruct (find_exists (fun v => String.eqb (Vehicle.id v) (Vehicle.id vehicle))
                          vehicles vehicle Hv (String.eqb_refl _)) as (found & ->).
    discriminate.
Qed.

Lemma placeAll_returns :
  (length customers < length timeMatrix)%nat ->
  forall sortedCustomers done st,
    placeAll depot customers vehicles timeMatrix done (initState depot vehicles)
    = Return st ->
    exists st',
      placeAll depot customers vehicles timeMatrix sortedCustomers st = Return st'.
Proof.
  intros Hrows. induction sortedCustomers as [|customer rest IH]; intros done st Hdone.
  - simpl. eauto.
  - cbn [placeAll].
    destruct (@placeCustomer_returns depot customers vehicles timeMatrix Hrows customer st
                (placeAll_vehicle_found _ Hdone)) as (st1 & Hstep).
    rewrite Hstep. cbn [bind].
    apply (IH (done ++ [customer])).
    clear IH. revert Hdone Hstep. generalize (initState depot vehicles).
    induction done as [|c done IHd]; intros st0 Hdone Hstep.
    + simpl in Hdone. inversion Hdone; subst. cbn [app placeAll].
      rewrite Hstep. reflexivity.
    + cbn [app placeAll] in *.
      destruct (placeCustomer depot customers vehicles timeMatrix st0 c) as [st0'|e];
        cbn [bind] in *; [|discriminate].
      apply IHd; assumption.
Qed.

Lemma solveVRPTW_total :
  (length customers < length timeMatrix)%nat ->
  exists sol, solveVRPTW depot customers vehicles timeMatrix = Return sol.
Proof.
  intros Hrows. unfold solveVRPTW.
  destruct (@placeAll_returns Hrows (sortByReadyTime customers) []
                              (initState depot vehicles) eq_refl) as (st & ->).
  cbn [bind]. eauto.
Qed.
End VehicleLookup.

(** What well-formed rules out: a matrix without the row of the depot
    makes the first read of a travel time raise. *)
Example matrix_without_rows_raises :
  solveVRPTW sampleDepot sampleCustomers sampleVehicles [] = Throw TypeError.
Proof. reflexivity. Qed.

(** C9: on a well-formed input, one whose time matrix has a row for every
    customer and for the depot, [solveVRPTW] raises nothing and returns a
    solution.  The lookup of a route's vehicle never misses while the
    customers are placed, whatever the input, since the routes are created
    from the vehicles: no slot is ever lost, and nothing raised, for want of
    a vehicle.  A missing index among those of the previous stop, the
    customer and the next stop makes the loop skip the slot, leaving the
    route and the search variables as they were. *)
Theorem solveVRPTW_raises_nothing
        (depot : Location) (customers : list Location) (vehicles : list Vehicle)
        (timeMatrix : list (list Z)) :
  ((length customers < length timeMatrix)%nat ->
   exists sol, solveVRPTW depot customers vehicles timeMatrix = Return sol) /\
  (forall sortedCustomers st,
      placeAll depot customers vehicles timeMatrix sortedCustomers
               (initState depot vehicles) = Return st ->
      forall route, In route (routes st) -> findVehicle vehicles route <> None) /\
  (forall customer r i route s prev,
      nth_error (Route.locations route) i = Some prev ->
      matrixIndex depot customers prev = (-1)%Z \/
      matrixIndex depot customers customer = (-1)%Z \/
      matrixIndex depot customers (nextOf depot route i) = (-1)%Z ->
      trySlot depot customers timeMatrix customer r i (route, s) = Return (route, s)).
Proof.
  repeat split.
  - apply solveVRPTW_total.
  - intros sortedCustomers st Hloop route Hin.
    apply placeAll_vehicle_found in Hloop. rewrite Forall_forall in Hloop. auto.
  - intros customer r i route s prev Hprev Hmiss.
    unfold trySlot, evalSlot. rewrite Hprev.
    assert (Hskip : (matrixIndex depot customers prev =? -1)%Z
                    || (matrixIndex depot customers customer =? -1)%Z
                    || (matrixIndex depot customers (nextOf depot route i) =? -1)%Z
                    = true).
    { destruct Hmiss as [H|[H|H]]; rewrite H; simpl;
        rewrite ?orb_true_r; reflexivity. }
    rewrite Hskip. reflexivity.
Qed.

(** ** Unassigned customers *)

(** C2 as stated fails: on the sample instance the customer annex is
    unassigned, although slot 1 of the returned route (between bridge and
    north) passes the capacity check and both time checks for it. *)
Lemma unassigned_customer_fits_returned_route :
  exists sol,
    solveVRPTW sampleDepot sampleCustomers sampleVehicles sampleMatrix = Return sol /\
    In annex (Solution.unassignedLocations sol) /\
    map (fun route => map Location.id (Route.locations route)) (Solution.routes sol)
    = [["depot"; "bridge"; "north"; "depot"]]%string /\
    costAt sampleDepot sampleCustomers sampleVehicles sampleMatrix
           (Solution.routes sol) annex 0 1 = Some (Num 2).
Proof.
  eexists. split; [reflexivity|].
  split; [left; reflexivity|]. split; reflexivity.
Qed.

Section Unassigned.
Local Open Scope Z_scope.

Variable depot : Location.
Variable customers : list Location.
Variable vehicles : list Vehicle.
Variable timeMatrix : list (list Z).

(** When the search ends, every slot has been tried. *)
Lemma bestSoFar_all (customer : Location) (rs0 : list Route) (s : Search) :
  bestSoFar depot customers vehicles timeMatrix customer rs0 (length rs0) 0 s ->
  (forall r i z,
      costAt depot customers vehicles timeMatrix rs0 customer r i = Some (Num z) ->
      bestIncrease s <= z) /\
  (assignmentPossible s = false <->
   forall r i, costAt depot customers vehicles timeMatrix rs0 customer r i = None).
Proof.
  intros (Hmin & _ & Hposs & _). split.
  - intros r i z Hc. apply (Hmin r i z); [|exact Hc].
    eapply costAt_earlier. exact Hc.
  - split.
    + intros Hno r i.
      destruct (costAt depot customers vehicles timeMatrix rs0 customer r i)
        as [c|] eqn:Hc; [|reflexivity].
      assert (Hyes : assignmentPossible s = true).
      { apply Hposs. exists r, i, c. split; [|exact Hc].
        eapply costAt_earlier. exact Hc. }
      congruence.
    + intros Hnone. destruct (assignmentPossible s) eqn:Ha; [|reflexivity].
      destruct Hposs as [Hposs _]. destruct (Hposs eq_refl) as (r & i & c & _ & Hc).
      rewrite Hnone in Hc. discriminate.
Qed.

(** A customer in the unassigned list was either there before, or was
    processed at a moment when no slot with a cost below [MAX_VALUE]
    existed. *)
Lemma placeAll_unassigned :
  forall sortedCustomers st st',
    placeAll depot customers vehicles timeMatrix sortedCustomers st = Return st' ->
    forall customer,
      In customer (unassignedLocations st') ->
      In customer (unassignedLocations st) \/
      exists before after stm,
        sortedCustomers = before ++ customer :: after /\
        placeAll depot customers vehicles timeMatrix before st = Return stm /\
        forall r i cost,
          costAt depot customers vehicles timeMatrix (routes stm) customer r i
          = Some cost ->
          num_lt cost (Num MAX_VALUE) = false.
Proof.
  induction sortedCustomers as [|c rest IH]; intros st st' Hrun customer Hin.
  - simpl in Hrun. inversion Hrun; subst. left. exact Hin.
  - cbn [placeAll] in Hrun.
    destruct (placeCustomer depot customers vehicles timeMatrix st c)
      as [st1|e] eqn:Hstep; cbn [bind] in Hrun; [|discriminate].
    destruct (IH st1 st' Hrun customer Hin)
      as [Hin1|(before & after & stm & Hsplit & Hbefore & Hnone)].
    + apply placeCustomer_cases in Hstep. destruct Hstep as (s & Hbest & Hcase).
      destruct Hcase as [_ Hmax _ Hun _|r i route0 route rs _ _ _ _ _ _ _ _ Hun _].
      * rewrite Hun in Hin1. apply in_app_or in Hin1.
        destruct Hin1 as [Hold|[<-|[]]]; [left; exact Hold|right].
        exists [], rest, st. repeat split.
        intros r i cost Hc. destruct cost as [z|]; [|reflexivity].
        apply bestSoFar_all in Hbest. destruct Hbest as [Hmin _].
        specialize (Hmin r i z Hc). simpl. apply Z.ltb_ge. lia.
      * rewrite Hun in Hin1. left. exact Hin1.
    + right. exists (c :: before), after, stm. repeat split.
      * simpl. rewrite Hsplit. reflexivity.
      * cbn [placeAll]. rewrite Hstep. exact Hbefore.
      * exact Hnone.
Qed.
End Unassigned.

(** C2, amended: every customer of [unassignedLocations] was processed at a
    moment at which no (route, position) of the routes as they stood then
    passed the three checks with an insertion cost below
    [Number.MAX_VALUE]. *)
Theorem unassigned_had_no_slot_when_processed
        (depot : Location) (customers : list Location) (vehicles : list Vehicle)
        (timeMatrix : list (list Z)) (sol : VRPTWSolution) :
  solveVRPTW depot customers vehicles timeMatrix = Return sol ->
  forall customer,
    In customer (Solution.unassignedLocations sol) ->
    exists before after st,
      sortByReadyTime customers = before ++ customer :: after /\
      placeAll depot customers vehicles timeMatrix before (initState depot vehicles)
      = Return st /\
      forall r i cost,
        costAt depot customers vehicles timeMatrix (routes st) customer r i = Some cost ->
        num_lt cost (Num MAX_VALUE) = false.
Proof.
  intros Hrun customer Hin.
  apply solveVRPTW_returns in Hrun. destruct Hrun as (st & Hloop & ->).
  cbn [Solution.unassignedLocations] in Hin.
  destruct (@placeAll_unassigned depot customers vehicles timeMatrix _ _ _ Hloop
                                 customer Hin) as [Hinit|H].
  - destruct Hinit.
  - exact H.
Qed.

Lemma unassigned_had_no_slot_when_processed_witness :
  exists sol,
    solveVRPTW sampleDepot sampleCustomers sampleVehicles sampleMatrix = Return sol /\
    forall customer,
      In customer (Solution.unassignedLocations sol) ->
      exists before after st,
        sortByReadyTime sampleCustomers = before ++ customer :: after /\
        placeAll sampleDepot sampleCustomers sampleVehicles sampleMatrix before
                 (initState sampleDepot sampleVehicles) = Return st /\
        forall r i cost,
          costAt sampleDepot sampleCustomers sampleVehicles sampleMatrix
                 (routes st) customer r i = Some cost ->
          num_lt cost (Num MAX_VALUE) = false.
Proof.
  eexists. split.
  - reflexivity.
  - apply (@unassigned_had_no_slot_when_processed
             sampleDepot sampleCustomers sampleVehicles sampleMatrix).
    reflexivity.
Defined.

Section Reasons.
Local Open Scope Z_scope.

Variable depot : Location.
Variable customers : list Location.
Variable vehicles : list Vehicle.
Variable timeMatrix : list (list Z).

Lemma placeAll_reasons_le :
  forall sortedCustomers st st',
    placeAll depot customers vehicles timeMatrix sortedCustomers st = Return st' ->
    (length (infeasibilityReasons st) <= length (unassignedLocations st))%nat ->
    (length (infeasibilityReasons st') <= length (unassignedLocations st'))%nat.
Proof.
  induction sortedCustomers as [|c rest IH]; intros st st' Hrun Hle.
  - simpl in Hrun. inversion Hrun; subst. exact Hle.
  - cbn [placeAll] in Hrun.
    destruct (placeCustomer depot customers vehicles timeMatrix st c)
      as [st1|e] eqn:Hstep; cbn [bind] in Hrun; [|discriminate].
    apply (IH st1 st' Hrun).
    apply placeCustomer_cases in Hstep. destruct Hstep as (s & _ & Hcase).
    destruct Hcase as [_ _ _ Hun Hre|r i route0 route rs _ _ _ _ _ _ _ _ Hun Hre].
    + rewrite Hun, Hre, length_app. simpl.
      destruct (assignmentPossible s); simpl; [lia|].
      rewrite length_app. simpl. lia.
    + rewrite Hun, Hre. exact Hle.
Qed.
End Reasons.

(** C6: a customer for which the search selects no slot is pushed to
    [unassignedLocations], and a reason is appended to
    [infeasibilityReasons] exactly when no slot of any route passed the
    checks during the search for that customer
    ([assignmentPossible] stayed false); when no slot passes the checks, no
    slot is selected.  Hence the list of reasons is never longer than
    [unassignedLocations], and for some input it is shorter. *)
Theorem reason_only_when_no_slot_was_feasible :
  (forall depot customers vehicles timeMatrix customer st rs s,
      searchRoutes depot customers vehicles timeMatrix customer 0 (routes st) initSearch
      = Return (rs, s) ->
      bestRouteIndex s = (-1)%Z ->
      commit customer st (rs, s) =
      Return {| routes := rs;
                unassignedLocations := unassignedLocations st ++ [customer];
                infeasibilityReasons :=
                  if assignmentPossible s
                  then infeasibilityReasons st
                  else infeasibilityReasons st ++
                       [("No se pudo asignar " ++ Location.name customer
                         ++ " debido a restricciones de tiempo o capacidad")%string] |} /\
      (assignmentPossible s = false <->
       forall r i,
         costAt depot customers vehicles timeMatrix (routes st) customer r i = None)) /\
  (forall depot customers vehicles timeMatrix customer st rs s,
      searchRoutes depot customers vehicles timeMatrix customer 0 (routes st) initSearch
      = Return (rs, s) ->
      (forall r i,
          costAt depot customers vehicles timeMatrix (routes st) customer r i = None) ->
      bestRouteIndex s = (-1)%Z /\ assignmentPossible s = false) /\
  (forall depot customers vehicles timeMatrix sol,
      solveVRPTW depot customers vehicles timeMatrix = Return sol ->
      (length (Solution.infeasibilityReasons sol)
       <= length (Solution.unassignedLocations sol))%nat) /\
  (exists depot customers vehicles timeMatrix sol,
      solveVRPTW depot customers vehicles timeMatrix = Return sol /\
      (length (Solution.infeasibilityReasons sol)
       < length (Solution.unassignedLocations sol))%nat).
Proof.
  split; [|split; [|split]].
  - intros depot customers vehicles timeMatrix customer st rs s Hsearch Hidx.
    split.
    + unfold commit. rewrite Hidx. cbn [Z.eqb negb].
      destruct (assignmentPossible s); reflexivity.
    + apply search_spec in Hsearch. destruct Hsearch as [Hbest _].
      apply bestSoFar_all in Hbest. apply Hbest.
  - intros depot customers vehicles timeMatrix customer st rs s Hsearch Hnone.
    apply search_spec in Hsearch. destruct Hsearch as [Hbest _].
    split.
    + destruct Hbest as (_ & _ & _ & [[Hidx _]|(r & i & _ & _ & _ & Hcost & _)]);
        [exact Hidx|].
      rewrite Hnone in Hcost. discriminate.
    + apply bestSoFar_all in Hbest. apply Hbest. exact Hnone.
  - intros depot customers vehicles timeMatrix sol Hrun.
    apply solveVRPTW_returns in Hrun. destruct Hrun as (st & Hloop & ->).
    cbn [Solution.infeasibilityReasons Solution.unassignedLocations].
    apply (@placeAll_reasons_le depot customers vehicles timeMatrix _ _ _ Hloop).
    simpl. lia.
  - exists sampleDepot, [remote], sampleVehicles, remoteMatrix.
    eexists. split; [reflexivity|]. cbn. lia.
Qed.

(** The same happens on a matrix with a short row: the read of the missing
    entry gives [NaN], the checks pass, and no cost compares below the best
    one. *)
Example short_row_leaves_customer_without_reason :
  exists sol,
    solveVRPTW sampleDepot [north] sampleVehicles [[0%Z]; [10%Z; 0%Z]] = Return sol /\
    map Location.id (Solution.unassignedLocations sol) = ["north"%string] /\
    Solution.infeasibilityReasons sol = [].
Proof. eexists. split; [reflexivity|]. split; reflexivity. Qed.

(** ** The choice of the slot *)

Section Choice.
Local Open Scope Z_scope.

Variable depot : Location.
Variable customers : list Location.
Variable vehicles : list Vehicle.
Variable timeMatrix : list (list Z).

(** The cost of a slot that passes the checks is
    [timeToCustomer + timeFromCustomer - timeMatrix[prev][next]]. *)
Lemma evalSlot_Fits_cost (customer : Location) (route : Route) (i : nat)
      (increase : number) :
  evalSlot depot customers timeMatrix customer route i = Return (Fits increase) ->
  exists prev timeToCustomer timeFromCustomer timePrevNext,
    nth_error (Route.locations route) i = Some prev /\
    readMatrix timeMatrix (matrixIndex depot customers prev)
               (matrixIndex depot customers customer) = Return timeToCustomer /\
    readMatrix timeMatrix (matrixIndex depot customers customer)
               (matrixIndex depot customers (nextOf depot route i))
    = Return timeFromCustomer /\
    readMatrix timeMatrix (matrixIndex depot customers prev)
               (matrixIndex depot customers (nextOf depot route i))
    = Return timePrevNext /\
    increase = num_sub (num_add timeToCustomer timeFromCustomer) timePrevNext.
Proof.
  unfold evalSlot. intros H.
  destruct (nth_error (Route.locations route) i) as [prev|]; [|discriminate].
  exists prev.
  destruct ((matrixIndex depot customers prev =? -1)
            || (matrixIndex depot customers customer =? -1)
            || (matrixIndex depot customers (nextOf depot route i) =? -1));
    [discriminate|].
  destruct (readMatrix timeMatrix (matrixIndex depot customers prev)
                       (matrixIndex depot customers customer)) as [t1|e];
    cbn [bind] in H; [|discriminate].
  destruct (readMatrix timeMatrix (matrixIndex depot customers customer)
                       (matrixIndex depot customers (nextOf depot route i))) as [t2|e];
    cbn [bind] in H; [|discriminate].
  destruct (readMatrix timeMatrix (matrixIndex depot customers prev)
                       (matrixIndex depot customers (nextOf depot route i))) as [t3|e];
    cbn [bind] in H; [|discriminate].
  exists t1, t2, t3.
  repeat match type of H with
         | (if ?b then _ else _) = _ => destruct b
         end; try discriminate.
  inversion H. repeat split; reflexivity.
Qed.
End Choice.

(** C8: when the search for a customer selects a slot, that slot passes the
    three checks, its cost is
    [timeToCustomer + timeFromCustomer - timeMatrix[prev][next]], no slot
    that passes the checks is strictly cheaper, and every slot of the same
    cost comes later in the order of the loops (routes in order, positions
    in order); the customer is spliced into that route at that position and
    the cost is added to the route's [totalTime]. *)
Theorem chosen_slot_is_first_cheapest
        (depot : Location) (customers : list Location) (vehicles : list Vehicle)
        (timeMatrix : list (list Z)) (customer : Location) (st : State)
        (rs : list Route) (s : Search) :
  searchRoutes depot customers vehicles timeMatrix customer 0 (routes st) initSearch
  = Return (rs, s) ->
  bestRouteIndex s <> (-1)%Z ->
  exists r i route0 route,
    bestRouteIndex s = Z.of_nat r /\
    bestPosition s = Z.of_nat (i + 1) /\
    nth_error (routes st) r = Some route0 /\
    costAt depot customers vehicles timeMatrix (routes st) customer r i
    = Some (Num (bestIncrease s)) /\
    (exists prev timeToCustomer timeFromCustomer timePrevNext,
        nth_error (Route.locations route0) i = Some prev /\
        readMatrix timeMatrix (matrixIndex depot customers prev)
                   (matrixIndex depot customers customer) = Return timeToCustomer /\
        readMatrix timeMatrix (matrixIndex depot customers customer)
                   (matrixIndex depot customers (nextOf depot route0 i))
        = Return timeFromCustomer /\
        readMatrix timeMatrix (matrixIndex depot customers prev)
                   (matrixIndex depot customers (nextOf depot route0 i))
        = Return timePrevNext /\
        Num (bestIncrease s)
        = num_sub (num_add timeToCustomer timeFromCustomer) timePrevNext) /\
    (forall r' i' cost,
        costAt depot customers vehicles timeMatrix (routes st) customer r' i' = Some cost ->
        num_lt cost (Num (bestIncrease s)) = false) /\
    (forall r' i',
        costAt depot customers vehicles timeMatrix (routes st) customer r' i'
        = Some (Num (bestIncrease s)) ->
        (r', i') = (r, i) \/ earlier r i r' i') /\
    nth_error rs r = Some route /\
    Route.locations route = Route.locations route0 /\
    commit customer st (rs, s) =
    Return {| routes := replaceNth r (insertInto customer s route) rs;
              unassignedLocations := unassignedLocations st;
              infeasibilityReasons := infeasibilityReasons st |} /\
    Route.locations (insertInto customer s route)
    = splice (i + 1) customer (Route.locations route) /\
    Route.totalTime (insertInto customer s route)
    = (Route.totalTime route0 + bestIncrease s)%Z.
Proof.
  intros Hsearch Hidx.
  apply search_spec in Hsearch. destruct Hsearch as [Hbest Hsame].
  pose proof (bestSoFar_all Hbest) as [Hmin _].
  destruct Hbest as (_ & _ & _ & [[Hno _]|(r & i & _ & Hr & Hpos & Hcost & _ & Hfirst)]);
    [congruence|].
  destruct (costAt_Some _ _ _ _ _ _ _ _ Hcost) as (route0 & Hn0 & _ & Heval & _).
  destruct (Forall2_nth_error Hsame _ Hn0) as (route & Hn & Hsr).
  exists r, i, route0, route.
  split; [exact Hr|]. split; [exact Hpos|]. split; [exact Hn0|].
  split; [exact Hcost|].
  split; [exact (evalSlot_Fits_cost _ _ _ _ _ _ Heval)|].
  split.
  { intros r' i' cost Hc. destruct cost as [z|]; [|reflexivity].
    simpl. apply Z.ltb_ge. eauto. }
  split.
  { intros r' i' Hc.
    destruct (Nat.lt_trichotomy r' r) as [Hlt|[Heq|Hgt]].
    - specialize (Hfirst r' i' _ (or_introl Hlt) Hc). lia.
    - subst r'. destruct (Nat.lt_trichotomy i' i) as [Hlt|[Heq|Hgt]].
      + specialize (Hfirst r i' _ (or_intror (conj eq_refl Hlt)) Hc). lia.
      + subst i'. left. reflexivity.
      + right. right. split; [reflexivity|exact Hgt].
    - right. left. exact Hgt. }
  split; [exact Hn|].
  destruct Hsr as (_ & Hl & _ & Ht & _).
  split; [symmetry; exact Hl|].
  split.
  { unfold commit.
    assert (Hne : (Z.of_nat r =? -1)%Z = false) by (apply Z.eqb_neq; lia).
    rewrite Hr, Hne, Nat2Z.id, Hn. reflexivity. }
  split.
  - unfold insertInto. cbn [Route.locations]. rewrite Hpos, Nat2Z.id. reflexivity.
  - unfold insertInto. cbn [Route.totalTime]. rewrite Ht. reflexivity.
Qed.

Lemma chosen_slot_is_first_cheapest_witness :
  exists rs s,
    searchRoutes sampleDepot sampleCustomers sampleVehicles sampleMatrix bridge 0
                 (routes sampleOpenState) initSearch = Return (rs, s) /\
    (bestRouteIndex s, bestPosition s, bestIncrease s) = (0, 1, 0)%Z /\
    costAt sampleDepot sampleCustomers sampleVehicles sampleMatrix
           (routes sampleOpenState) bridge 0 1 = Some (Num 0) /\
    exists r i route0,
      bestRouteIndex s = Z.of_nat r /\
      bestPosition s = Z.of_nat (i + 1) /\
      nth_error (routes sampleOpenState) r = Some route0 /\
      costAt sampleDepot sampleCustomers sampleVehicles sampleMatrix
             (routes sampleOpenState) bridge r i = Some (Num (bestIncrease s)).
Proof.
  eexists. eexists. split; [reflexivity|].
  split; [reflexivity|]. split; [reflexivity|].
  edestruct (@chosen_slot_is_first_cheapest
               sampleDepot sampleCustomers sampleVehicles sampleMatrix bridge
               sampleOpenState)
    as (r & i & route0 & route & Hr & Hpos & Hn0 & Hcost & _).
  - reflexivity.
  - simpl. lia.
  - exists r, i, route0. repeat split; eassumption.
Defined.

(** * Further properties of the service *)

(** ** Distances and travel times *)

Section DistanceBounds.
Local Open Scope R_scope.

Lemma atan2_quadrant (y x : R) :
  0 <= y -> 0 <= x -> 0 <= atan2 y x <= PI / 2.
Proof.
  intros Hy Hx. unfold atan2.
  pose proof PI_RGT_0 as Hpi.
  destruct (Rlt_dec 0 x) as [Hpos|Hnpos].
  - assert (Hq : 0 <= y / x).
    { unfold Rdiv. apply Rmult_le_pos; [exact Hy|].
      left. apply Rinv_0_lt_compat. exact Hpos. }
    split.
    + destruct Hq as [Hq|Hq].
      * left. rewrite <- atan_0. apply atan_increasing. exact Hq.
      * rewrite <- Hq, atan_0. lra.
    + left. apply atan_bound.
  - destruct (Rlt_dec x 0) as [Hneg|_]; [lra|].
    destruct (Rlt_dec 0 y) as [_|_]; [lra|].
    destruct (Rlt_dec y 0) as [Hyneg|_]; lra.
Qed.

Lemma calculateDistance_same_point (lat lon : R) :
  calculateDistance lat lon lat lon = 0.
Proof.
  unfold calculateDistance. cbv zeta.
  replace ((lat - lat) * PI / 180 / 2) with 0 by field.
  replace ((lon - lon) * PI / 180 / 2) with 0 by field.
  rewrite sin_0.
  replace (0 * 0 + cos (lat * PI / 180) * cos (lat * PI / 180) * 0 * 0) with 0 by ring.
  rewrite Rminus_0_r, sqrt_0, sqrt_1.
  unfold atan2.
  destruct (Rlt_dec 0 1) as [_|H]; [|lra].
  replace (0 / 1) with 0 by field. rewrite atan_0. ring.
Qed.

Lemma calculateDistance_range (lat1 lon1 lat2 lon2 : R) :
  0 <= calculateDistance lat1 lon1 lat2 lon2 <= 6371 * PI.
Proof.
  unfold calculateDistance. cbv zeta.
  match goal with
  | |- context [atan2 (sqrt ?a) (sqrt ?b)] =>
      pose proof (atan2_quadrant (sqrt_pos a) (sqrt_pos b)) as Hq
  end.
  split.
  - apply Rmult_le_pos; lra.
  - apply Rmult_le_compat_l; lra.
Qed.

(** X1: the Haversine distance does not depend on the order of the two
    points, is 0 between a point and itself, and lies between 0 and half
    the circumference of the Earth (6371 * PI km). *)
Theorem calculateDistance_symmetric_zero_bounded (lat1 lon1 lat2 lon2 : R) :
  calculateDistance lat1 lon1 lat2 lon2 = calculateDistance lat2 lon2 lat1 lon1 /\
  calculateDistance lat1 lon1 lat1 lon1 = 0 /\
  0 <= calculateDistance lat1 lon1 lat2 lon2 <= 6371 * PI.
Proof.
  split; [apply calculateDistance_sym|].
  split; [apply calculateDistance_same_point|apply calculateDistance_range].
Qed.

Lemma Math_round_nonneg (x : R) : 0 <= x -> (0 <= Math_round x)%Z.
Proof.
  intros Hx. unfold Math_round.
  destruct (base_Int_part (x + / 2)) as [_ Hlow].
  assert (H : IZR (-1) < IZR (Int_part (x + / 2))) by (simpl; lra).
  apply lt_IZR in H. lia.
Qed.

Lemma travelMinutes_nonneg (a b : Location) : (0 <= travelMinutes a b)%Z.
Proof.
  unfold travelMinutes. cbv zeta. apply Math_round_nonneg.
  pose proof (calculateDistance_range (Location.lat a) (Location.lng a)
                                      (Location.lat b) (Location.lng b)) as [H _].
  lra.
Qed.
End DistanceBounds.

(** X2: no entry of the matrix built by [generateTimeMatrix] is negative. *)
Theorem generateTimeMatrix_entries_nonneg (locations : list Location) :
  Forall (Forall (fun t => (0 <= t)%Z)) (generateTimeMatrix locations).
Proof.
  unfold generateTimeMatrix.
  apply Forall_forall. intros row Hrow.
  apply in_map_iff in Hrow. destruct Hrow as ([i li] & <- & _).
  apply Forall_forall. intros t Ht.
  apply in_map_iff in Ht. destruct Ht as ([j lj] & <- & _).
  destruct (Nat.eqb i j); [lia|apply travelMinutes_nonneg].
Qed.

(** ** Empty inputs *)

Lemma closeRoute_initRoute (depot : Location) (vehicle : Vehicle) :
  closeRoute depot (initRoute depot vehicle) = initRoute depot vehicle.
Proof. reflexivity. Qed.

Lemma fold_left_zero_distance (depot : Location) (vehicles : list Vehicle) :
  fold_left (fun sum route => (sum + Route.totalDistance route)%R)
            (map (initRoute depot) vehicles) 0%R = 0%R.
Proof.
  rewrite (fold_left_sum Route.totalDistance).
  induction vehicles as [|v vs IH]; simpl in *; lra.
Qed.

Lemma fold_left_zero_time (depot : Location) (vehicles : list Vehicle) :
  fold_left (fun sum route => (sum + Route.totalTime route)%Z)
            (map (initRoute depot) vehicles) 0%Z = 0%Z.
Proof.
  induction vehicles as [|v vs IH]; simpl; auto.
Qed.

Lemma forallb_feasible_initRoute (depot : Location) (vehicles : list Vehicle) :
  forallb Route.feasible (map (initRoute depot) vehicles) = true.
Proof.
  induction vehicles as [|v vs IH]; simpl; auto.
Qed.

(** X3: without customers [solveVRPTW] raises nothing, whatever the
    matrix: every vehicle gets the route made of the depot alone, the totals
    are 0, the solution is feasible and carries no reason. *)
Theorem solveVRPTW_without_customers
        (depot : Location) (vehicles : list Vehicle) (timeMatrix : list (list Z)) :
  exists sol,
    solveVRPTW depot [] vehicles timeMatrix = Return sol /\
    Solution.routes sol = map (initRoute depot) vehicles /\
    Solution.unassignedLocations sol = [] /\
    Solution.totalDistance sol = 0%R /\
    Solution.totalTime sol = 0%Z /\
    Solution.feasible sol = true /\
    Solution.infeasibilityReasons sol = [].
Proof.
  eexists. split; [reflexivity|].
  cbn [Solution.routes Solution.unassignedLocations Solution.totalDistance
       Solution.totalTime Solution.feasible Solution.infeasibilityReasons
       initState routes unassignedLocations infeasibilityReasons].
  assert (Hclosed : map (closeRoute depot) (map (initRoute depot) vehicles)
                    = map (initRoute depot) vehicles).
  { rewrite map_map. apply map_ext. intros v. apply closeRoute_initRoute. }
  rewrite Hclosed.
  split; [reflexivity|]. split; [reflexivity|].
  split; [apply fold_left_zero_distance|].
  split; [apply fold_left_zero_time|].
  split; [|reflexivity].
  rewrite forallb_feasible_initRoute. reflexivity.
Qed.

Lemma placeAll_without_vehicles
      (depot : Location) (customers : list Location) (timeMatrix : list (list Z)) :
  forall sortedCustomers st,
    routes st = [] ->
    placeAll depot customers [] timeMatrix sortedCustomers st =
    Return {| routes := [];
              unassignedLocations := unassignedLocations st ++ sortedCustomers;
              infeasibilityReasons :=
                infeasibilityReasons st ++ map unassignedReason sortedCustomers |}.
Proof.
  induction sortedCustomers as [|c rest IH]; intros st Hrs.
  - simpl. rewrite !app_nil_r. destruct st. simpl in Hrs. subst. reflexivity.
  - cbn [placeAll]. unfold placeCustomer. rewrite Hrs.
    cbn [searchRoutes bind]. unfold commit.
    change (bestRouteIndex initSearch =? -1)%Z with true.
    change (assignmentPossible initSearch) with false.
    cbn [negb bind].
    rewrite IH by reflexivity.
    cbn [unassignedLocations infeasibilityReasons map].
    rewrite <- !app_assoc. reflexivity.
Qed.

(** X4: without vehicles [solveVRPTW] raises nothing, whatever the matrix:
    there is no route, every customer is unassigned, in the order of the
    sort by [readyTime], each with its reason, and the solution is feasible
    only if there is no customer. *)
Theorem solveVRPTW_without_vehicles
        (depot : Location) (customers : list Location) (timeMatrix : list (list Z)) :
  solveVRPTW depot customers [] timeMatrix =
  Return {| Solution.routes := [];
            Solution.unassignedLocations := sortByReadyTime customers;
            Solution.totalDistance := 0%R;
            Solution.totalTime := 0%Z;
            Solution.feasible := (length customers =? 0)%nat;
            Solution.infeasibilityReasons :=
              map unassignedReason (sortByReadyTime customers) |}.
Proof.
  unfold solveVRPTW.
  rewrite placeAll_without_vehicles by reflexivity.
  cbn [bind initState map routes unassignedLocations infeasibilityReasons app
       fold_left forallb].
  rewrite andb_true_r.
  rewrite (Permutation_length (sortByReadyTime_perm customers)).
  reflexivity.
Qed.

(** ** Insertions with their cost *)

Section CostedInvariants.
Local Open Scope Z_scope.

Variable depot : Location.
Variable customers : list Location.
Variable vehicles : list Vehicle.
Variable timeMatrix : list (list Z).

Lemma slotCost_Some (customer : Location) (route : Route) (i : nat) (cost : number) :
  slotCost depot customers vehicles timeMatrix customer route i = Some cost ->
  capacityAllows vehicles customer route = true /\
  evalSlot depot customers timeMatrix customer route i = Return (Fits cost) /\
  (i < length (Route.locations route))%nat.
Proof.
  unfold slotCost. intros H.
  destruct (capacityAllows vehicles customer route); [|discriminate].
  split; [reflexivity|].
  destruct (evalSlot depot customers timeMatrix customer route i)
    as [[ | | |inc]|e] eqn:He; try discriminate.
  inversion H; subst. split; [reflexivity|].
  unfold evalSlot in He.
  destruct (nth_error (Route.locations route) i) eqn:Hn; [|discriminate].
  apply nth_error_Some. congruence.
Qed.

(** As [placeCustomer_routes_inv], with the cost of the chosen slot at
    hand. *)
Lemma placeCustomer_routes_inv_cost
      (P : Route -> Prop) (customer : Location) (st st' : State) :
  (forall a b, sameRoute a b -> P a -> P b) ->
  (forall route s i,
      P route ->
      slotCost depot customers vehicles timeMatrix customer route i
      = Some (Num (bestIncrease s)) ->
      bestPosition s = Z.of_nat (i + 1) ->
      P (insertInto customer s route)) ->
  Forall P (routes st) ->
  placeCustomer depot customers vehicles timeMatrix st customer = Return st' ->
  Forall P (routes st').
Proof.
  intros Hsame Hins HP Hrun.
  apply placeCustomer_cases in Hrun. destruct Hrun as (s & _ & Hcase).
  destruct Hcase as [_ _ Hrs _ _|r i route0 route rs _ Hpos Hrs Hn0 Hn Hsr Hcost Hst' _ _].
  - exact (Forall2_Forall_transfer Hsame Hrs HP).
  - rewrite Hst'.
    assert (HPrs : Forall P rs) by exact (Forall2_Forall_transfer Hsame Hrs HP).
    apply replaceNth_Forall; [exact HPrs|].
    apply (Hins route s i).
    + rewrite Forall_forall in HPrs. apply HPrs. eapply nth_error_In. exact Hn.
    + unfold costAt in Hcost. rewrite Hn0 in Hcost.
      unfold slotCost in *.
      rewrite <- (capacityAllows_same vehicles customer Hsr).
      rewrite <- (evalSlot_same depot customers timeMatrix customer i Hsr).
      exact Hcost.
    + exact Hpos.
Qed.

Lemma placeAll_routes_inv_cost (P : Route -> Prop) :
  (forall a b, sameRoute a b -> P a -> P b) ->
  forall sortedCustomers,
    (forall customer route s i,
        In customer sortedCustomers ->
        P route ->
        slotCost depot customers vehicles timeMatrix customer route i
        = Some (Num (bestIncrease s)) ->
        bestPosition s = Z.of_nat (i + 1) ->
        P (insertInto customer s route)) ->
    forall st st',
      Forall P (routes st) ->
      placeAll depot customers vehicles timeMatrix sortedCustomers st = Return st' ->
      Forall P (routes st').
Proof.
  intros Hsame. induction sortedCustomers as [|customer rest IH];
    intros Hins st st' HP Hrun.
  - simpl in Hrun. inversion Hrun; subst. exact HP.
  - cbn [placeAll] in Hrun.
    destruct (placeCustomer depot customers vehicles timeMatrix st customer)
      as [st1|e] eqn:Hstep; cbn [bind] in Hrun; [|discriminate].
    apply (IH (fun c route s i Hin => Hins c route s i (or_intror Hin)) st1 st');
      [|exact Hrun].
    eapply placeCustomer_routes_inv_cost; [exact Hsame| |exact HP|exact Hstep].
    intros route s i. apply Hins. left. reflexivity.
Qed.
End CostedInvariants.

(** ** A customer too large for every vehicle *)

Section Oversized.
Local Open Scope Z_scope.

Lemma fold_demand_nonneg (l : list Location) :
  Forall (fun x => 0 <= Location.demand x) l ->
  0 <= fold_left (fun sum loc => sum + Location.demand loc) l 0.
Proof.
  induction 1 as [|x l Hx _ IH]; simpl; [lia|].
  rewrite (fold_demand_shift l (Location.demand x)). lia.
Qed.

Lemma placeAll_stopsFit
      (depot : Location) (customers : list Location) (vehicles : list Vehicle)
      (timeMatrix : list (list Z)) (st : State) :
  Location.demand depot = 0 ->
  (forall customer, In customer customers -> 0 <= Location.demand customer) ->
  placeAll depot customers vehicles timeMatrix (sortByReadyTime customers)
           (initState depot vehicles) = Return st ->
  Forall (stopsFit vehicles) (routes st).
Proof.
  intros Hdepot Hdemand Hloop.
  eapply placeAll_routes_inv with (P := stopsFit vehicles); [| | |exact Hloop].
  - intros a b Hsame (Hnn & vehicle & Hfind & Hfit).
    destruct a, b. unfold sameRoute in Hsame. simpl in Hsame.
    destruct Hsame as (Hv & Hl & _). subst. split; [exact Hnn|].
    exists vehicle. split; assumption.
  - intros customer route s i Hc (Hnn & vehicle & Hfind & Hfit) Hlen Hallow Hpos.
    assert (Hc' : 0 <= Location.demand customer).
    { apply Hdemand. apply (Permutation_in _ (sortByReadyTime_perm customers)).
      exact Hc. }
    unfold capacityAllows in Hallow. rewrite Hfind in Hallow.
    apply negb_true_iff in Hallow. rewrite Z.gtb_ltb in Hallow.
    apply Z.ltb_ge in Hallow.
    pose proof (fold_demand_nonneg Hnn) as Htotal. unfold totalDemand in Hallow.
    split.
    + cbn [insertInto Route.locations]. apply splice_Forall; assumption.
    + exists vehicle. split; [exact Hfind|].
      destruct (Route.locations route) as [|first mid] eqn:Hloc;
        [simpl in Hlen; lia|].
      rewrite (@insertInto_locations customer s route i first mid Hpos Hloc).
      cbn [tl] in *. apply splice_Forall; [lia|exact Hfit].
  - apply Forall_forall. intros route Hr.
    apply in_map_iff in Hr. destruct Hr as (vehicle & <- & Hv).
    split.
    + simpl. constructor; [lia|constructor].
    + destruct (find_exists (fun v => String.eqb (Vehicle.id v) (Vehicle.id vehicle))
                            vehicles vehicle Hv (String.eqb_refl _)) as (found & Hfound).
      exists found. split; [exact Hfound|]. simpl. constructor.
Qed.

(** X5: when the depot has demand 0 and no customer demand is negative, a
    customer whose demand exceeds the capacity of every vehicle ends in
    [unassignedLocations]. *)
Theorem oversized_customer_is_unassigned
        (depot : Location) (customers : list Location) (vehicles : list Vehicle)
        (timeMatrix : list (list Z)) (sol : VRPTWSolution) (customer : Location) :
  Location.demand depot = 0 ->
  (forall c, In c customers -> 0 <= Location.demand c) ->
  solveVRPTW depot customers vehicles timeMatrix = Return sol ->
  In customer customers ->
  (forall vehicle, In vehicle vehicles ->
                   Vehicle.capacity vehicle < Location.demand customer) ->
  In customer (Solution.unassignedLocations sol).
Proof.
  intros Hdepot Hdemand Hrun Hin Hbig.
  apply solveVRPTW_returns in Hrun. destruct Hrun as (st & Hloop & ->).
  cbn [Solution.unassignedLocations].
  pose proof (@placeAll_stopsFit depot customers vehicles timeMatrix st
                                  Hdepot Hdemand Hloop) as Hfit.
  apply placeAll_partition in Hloop. destruct Hloop as [Hperm _].
  assert (Hplaced : In customer (placedCustomers st)).
  { apply (Permutation_in _ (Permutation_sym Hperm)).
    apply in_or_app. left.
    apply (Permutation_in _ (Permutation_sym (sortByReadyTime_perm customers))).
    exact Hin. }
  unfold placedCustomers in Hplaced. apply in_app_or in Hplaced.
  destruct Hplaced as [Hroute|Hun]; [exfalso|exact Hun].
  apply in_concat in Hroute. destruct Hroute as (mid & Hmid & Hc).
  apply in_map_iff in Hmid. destruct Hmid as (route & <- & Hr).
  rewrite Forall_forall in Hfit.
  destruct (Hfit route Hr) as (_ & vehicle & Hfind & Hall).
  rewrite Forall_forall in Hall. specialize (Hall customer Hc).
  apply find_some in Hfind. destruct Hfind as [Hv _].
  specialize (Hbig vehicle Hv). lia.
Qed.
End Oversized.

Lemma oversized_customer_is_unassigned_witness :
  exists sol,
    solveVRPTW sampleDepot sampleCustomers [sampleVehicle "v1" 0] sampleMatrix
    = Return sol /\
    In north (Solution.unassignedLocations sol).
Proof.
  eexists. split.
  - reflexivity.
  - apply (@oversized_customer_is_unassigned
             sampleDepot sampleCustomers [sampleVehicle "v1" 0] sampleMatrix).
    + reflexivity.
    + intros c [<-|[<-|[<-|[]]]]; simpl; lia.
    + reflexivity.
    + left. reflexivity.
    + intros vehicle [<-|[]]. simpl. lia.
Defined.

(** ** The accumulated time of a route *)

Lemma num_add_assoc (a b c : number) :
  num_add a (num_add b c) = num_add (num_add a b) c.
Proof. destruct a, b, c; simpl; try reflexivity. rewrite Z.add_assoc. reflexivity. Qed.

Lemma num_add_0_l (a : number) : num_add (Num 0) a = a.
Proof. destruct a; reflexivity. Qed.

Lemma firstn_succ_nth {A : Type} (l : list A) :
  forall i x, nth_error l i = Some x -> firstn (S i) l = firstn i l ++ [x].
Proof.
  induction l as [|y l IH]; intros [|i] x Hx; simpl in *; try discriminate.
  - inversion Hx. reflexivity.
  - rewrite (IH i x Hx). reflexivity.
Qed.

Lemma skipn_nth_error {A : Type} (l : list A) :
  forall i, skipn i l = match nth_error l i with
                        | Some x => x :: skipn (S i) l
                        | None => []
                        end.
Proof.
  induction l as [|y l IH]; intros [|i]; simpl; try reflexivity.
  apply IH.
Qed.

Section TravelTimeFacts.
Local Open Scope Z_scope.

Variable depot : Location.
Variable customers : list Location.
Variable vehicles : list Vehicle.
Variable timeMatrix : list (list Z).

Lemma routeTravelTime_cons (x y : Location) (l : list Location) :
  routeTravelTime depot customers timeMatrix (x :: y :: l) =
  num_add (legTime depot customers timeMatrix (x, y))
          (routeTravelTime depot customers timeMatrix (y :: l)).
Proof. reflexivity. Qed.

Lemma routeTravelTime_app (x : Location) (rest : list Location) :
  forall before,
    routeTravelTime depot customers timeMatrix (before ++ x :: rest) =
    num_add (routeTravelTime depot customers timeMatrix (before ++ [x]))
            (routeTravelTime depot customers timeMatrix (x :: rest)).
Proof.
  induction before as [|p before IH].
  - simpl app. change (routeTravelTime depot customers timeMatrix [x]) with (Num 0).
    rewrite num_add_0_l. reflexivity.
  - destruct before as [|q before'].
    + simpl app. rewrite !routeTravelTime_cons.
      change (routeTravelTime depot customers timeMatrix [x]) with (Num 0).
      rewrite <- num_add_assoc, num_add_0_l. reflexivity.
    + change ((p :: q :: before') ++ x :: rest)
        with (p :: q :: (before' ++ x :: rest)).
      change ((p :: q :: before') ++ [x]) with (p :: q :: (before' ++ [x])).
      rewrite !routeTravelTime_cons.
      change (q :: before' ++ x :: rest) with ((q :: before') ++ x :: rest).
      rewrite IH. rewrite num_add_assoc. reflexivity.
Qed.

(** Inserting [customer] between [prev] and [next] replaces the leg
    prev -> next by the legs prev -> customer -> next. *)
Lemma routeTravelTime_insert (before after : list Location)
      (prev next customer : Location) (total a b p : Z) :
  routeTravelTime depot customers timeMatrix (before ++ prev :: next :: after)
  = Num total ->
  legTime depot customers timeMatrix (prev, customer) = Num a ->
  legTime depot customers timeMatrix (customer, next) = Num b ->
  legTime depot customers timeMatrix (prev, next) = Num p ->
  routeTravelTime depot customers timeMatrix
                  (before ++ prev :: customer :: next :: after)
  = Num (total + (a + b - p)).
Proof.
  intros Htotal Ha Hb Hp.
  rewrite routeTravelTime_app in *.
  rewrite !routeTravelTime_cons in *.
  rewrite Ha, Hb. rewrite Hp in Htotal.
  destruct (routeTravelTime depot customers timeMatrix (before ++ [prev])) as [x|];
    [|discriminate].
  destruct (routeTravelTime depot customers timeMatrix (next :: after)) as [y|];
    [|discriminate].
  simpl in *. inversion Htotal. f_equal. lia.
Qed.

(** The invariant of an open route: its accumulated time is the matrix time
    of its legs, the return to the depot included. *)
Lemma insertInto_travelTime (customer : Location) (s : Search) (route : Route)
      (i : nat) :
  routeTravelTime depot customers timeMatrix (Route.locations route ++ [depot])
  = Num (Route.totalTime route) ->
  slotCost depot customers vehicles timeMatrix customer route i
  = Some (Num (bestIncrease s)) ->
  bestPosition s = Z.of_nat (i + 1) ->
  routeTravelTime depot customers timeMatrix
                  (Route.locations (insertInto customer s route) ++ [depot])
  = Num (Route.totalTime (insertInto customer s route)).
Proof.
  intros Hinv Hcost Hpos.
  apply slotCost_Some in Hcost. destruct Hcost as (_ & Heval & Hlen).
  apply evalSlot_Fits_cost in Heval.
  destruct Heval as (prev & t1 & t2 & t3 & Hprev & H1 & H2 & H3 & Hinc).
  destruct t1 as [a|], t2 as [b|], t3 as [p|]; try discriminate.
  simpl in Hinc. inversion Hinc as [Hbest]. clear Hinc.
  unfold insertInto. cbn [Route.locations Route.totalTime].
  rewrite Hpos, Nat2Z.id, Nat.add_1_r. unfold splice.
  rewrite (firstn_succ_nth _ _ Hprev).
  rewrite <- !app_assoc. cbn [app].
  assert (Hrest : skipn (S i) (Route.locations route) ++ [depot]
                  = nextOf depot route i
                    :: tl (skipn (S i) (Route.locations route) ++ [depot])).
  { unfold nextOf. rewrite Nat.add_1_r. rewrite (skipn_nth_error _ (S i)).
    destruct (nth_error (Route.locations route) (S i)); reflexivity. }
  rewrite Hrest. rewrite Hbest.
  apply routeTravelTime_insert.
  - rewrite <- Hrest.
    replace (firstn i (Route.locations route)
             ++ prev :: skipn (S i) (Route.locations route) ++ [depot])
      with (Route.locations route ++ [depot]); [exact Hinv|].
    rewrite <- (firstn_skipn i (Route.locations route)) at 1.
    rewrite (skipn_nth_error _ i), Hprev. rewrite <- app_assoc. reflexivity.
  - unfold legTime. cbn [fst snd]. rewrite H1. reflexivity.
  - unfold legTime. cbn [fst snd]. rewrite H2. reflexivity.
  - unfold legTime. cbn [fst snd]. rewrite H3. reflexivity.
Qed.
End TravelTimeFacts.

(** X6: on an input whose customers' identifiers differ from the depot's
    and whose matrix holds 0 for the leg depot -> depot, the [totalTime] of
    every returned route is the sum of the matrix entries of its consecutive
    legs, from the depot through its customers back to the depot (waiting
    and service times are not part of it); the solution's [totalTime] is
    the sum over the routes. *)
Theorem totalTime_is_matrix_travel_time
        (depot : Location) (customers : list Location) (vehicles : list Vehicle)
        (timeMatrix : list (list Z)) (sol : VRPTWSolution) :
  (forall customer, In customer customers ->
                    Location.id customer <> Location.id depot) ->
  legTime depot customers timeMatrix (depot, depot) = Num 0 ->
  solveVRPTW depot customers vehicles timeMatrix = Return sol ->
  (forall route,
      In route (Solution.routes sol) ->
      routeTravelTime depot customers timeMatrix (Route.locations route)
      = Num (Route.totalTime route)) /\
  Solution.totalTime sol = sumZ (map Route.totalTime (Solution.routes sol)).
Proof.
  intros Hids Hzero Hrun.
  apply solveVRPTW_returns in Hrun. destruct Hrun as (st & Hloop & ->).
  cbn [Solution.routes Solution.totalTime].
  split.
  - intros route Hin.
    apply in_map_iff in Hin. destruct Hin as (route0 & <- & Hin0).
    pose proof (solveVRPTW_openRoute _ _ _ _ Hloop) as Hopen.
    assert (Htime : Forall (fun r => routeTravelTime depot customers timeMatrix
                                       (Route.locations r ++ [depot])
                                     = Num (Route.totalTime r)) (routes st)).
    { eapply placeAll_routes_inv_cost
        with (P := fun r => routeTravelTime depot customers timeMatrix
                              (Route.locations r ++ [depot])
                            = Num (Route.totalTime r));
        [| | |exact Hloop].
      - intros a b (_ & Hl & _ & Ht & _) Ha. rewrite <- Hl, <- Ht. exact Ha.
      - intros customer r s i _ Hr Hcost Hpos.
        eapply insertInto_travelTime; eassumption.
      - apply Forall_forall. intros r Hr.
        apply in_map_iff in Hr. destruct Hr as (vehicle & <- & _).
        cbn [initRoute Route.locations Route.totalTime app].
        rewrite routeTravelTime_cons.
        change (routeTravelTime depot customers timeMatrix [depot]) with (Num 0).
        rewrite Hzero. reflexivity. }
    rewrite Forall_forall in Hopen, Htime.
    destruct (Hopen _ Hin0) as (mid & Hloc & Hmid).
    specialize (Htime _ Hin0).
    unfold closeRoute. rewrite Hloc. destruct mid as [|x mid'].
    + simpl. rewrite Hloc in Htime |- *. cbn [app] in Htime.
      rewrite routeTravelTime_cons in Htime.
      change (routeTravelTime depot customers timeMatrix [depot]) with (Num 0) in *.
      rewrite Hzero in Htime. exact Htime.
    + rewrite last_cons_nonempty.
      assert (Hlast : In (last (x :: mid') depot) customers).
      { rewrite Forall_forall in Hmid. apply Hmid. apply last_In. }
      apply Hids in Hlast. apply String.eqb_neq in Hlast. rewrite Hlast.
      cbn [length Nat.ltb Nat.leb andb negb Route.locations Route.totalTime].
      rewrite Hloc in Htime. exact Htime.
  - generalize (map (closeRoute depot) (routes st)). intros rs.
    assert (H : forall a, fold_left (fun sum route => sum + Route.totalTime route)%Z rs a
                          = (a + sumZ (map Route.totalTime rs))%Z).
    { induction rs as [|r rs IH]; intros a; simpl; [lia|]. rewrite IH. lia. }
    rewrite H. lia.
Qed.

Lemma totalTime_is_matrix_travel_time_witness :
  exists sol,
    solveVRPTW sampleDepot sampleCustomers sampleVehicles sampleMatrix = Return sol /\
    (forall route,
        In route (Solution.routes sol) ->
        routeTravelTime sampleDepot sampleCustomers sampleMatrix (Route.locations route)
        = Num (Route.totalTime route)) /\
    Solution.totalTime sol = sumZ (map Route.totalTime (Solution.routes sol)).
Proof.
  eexists. split.
  - reflexivity.
  - apply (@totalTime_is_matrix_travel_time
             sampleDepot sampleCustomers sampleVehicles sampleMatrix).
    + intros customer [<-|[<-|[<-|[]]]]; discriminate.
    + reflexivity.
    + reflexivity.
Defined.

(** * The application around the solver *)

(** ** The matrix the application passes to the solver *)

Lemma length_generateTimeMatrix (locations : list Location) :
  length (generateTimeMatrix locations) = length locations.
Proof. unfold generateTimeMatrix. rewrite length_map. apply length_indexed. Qed.

(** X7: with the matrix that the application builds from the depot and the
    customers, [solveVRPTW] raises nothing: [handleSolve] always replaces the
    solution and never takes its error branch. *)
Theorem handleSolve_always_sets_solution
        (depot : Location) (customers : list Location) (vehicles : list Vehicle)
        (previous : option VRPTWSolution) :
  exists sol,
    solveVRPTW depot customers vehicles (appTimeMatrix depot customers) = Return sol /\
    handleSolve depot customers vehicles (appTimeMatrix depot customers) previous
    = Some sol.
Proof.
  destruct (@solveVRPTW_total depot customers vehicles (appTimeMatrix depot customers))
    as (sol & Hsol).
  - unfold appTimeMatrix. rewrite length_generateTimeMatrix. simpl. lia.
  - exists sol. split; [exact Hsol|]. unfold handleSolve. rewrite Hsol. reflexivity.
Qed.

Lemma findIndexFrom_nth (a : Location) :
  forall l k start,
    NoDup (map Location.id l) ->
    nth_error l k = Some a ->
    findIndexFrom (fun x => String.eqb (Location.id x) (Location.id a)) start l
    = (start + Z.of_nat k)%Z.
Proof.
  induction l as [|y l IH]; intros k start Hnd Hk.
  - destruct k; discriminate.
  - simpl in Hnd. inversion Hnd as [|? ? Hnotin Hnd']; subst.
    destruct k as [|k]; simpl in *.
    + inversion Hk; subst. rewrite String.eqb_refl. lia.
    + destruct (String.eqb_spec (Location.id y) (Location.id a)) as [Heq|_].
      * exfalso. apply Hnotin. rewrite Heq. apply in_map.
        eapply nth_error_In. exact Hk.
      * rewrite (IH k (start + 1)%Z Hnd' Hk). lia.
Qed.

Lemma readMatrix_entry (matrix : list (list Z)) (i j : nat) (t : Z) :
  entry matrix i j = Some t ->
  readMatrix matrix (Z.of_nat i) (Z.of_nat j) = Return (Num t).
Proof.
  unfold entry, readMatrix. intros H.
  destruct (Z.ltb_spec (Z.of_nat i) 0) as [Hneg|_]; [lia|].
  rewrite Nat2Z.id.
  destruct (nth_error matrix i) as [row|]; [|discriminate].
  destruct (Z.ltb_spec (Z.of_nat j) 0) as [Hneg|_]; [lia|].
  rewrite Nat2Z.id, H. reflexivity.
Qed.

(** X8: the solver finds a location's row and column by its position in
    [customers ++ [depot]].  Read that way, a matrix built over
    [customers ++ [depot]] gives for two locations their own travel time,
    while the matrix the application builds (over the depot followed by the
    customers) gives the travel time of the two locations at the same
    positions of that other list: the depot for the first customer, the
    previous customer for each later one, the last customer for the depot. *)
Theorem app_matrix_is_read_one_position_off
        (depot : Location) (customers : list Location) (i j : nat) (a b : Location) :
  NoDup (map Location.id (customers ++ [depot])) ->
  nth_error (customers ++ [depot]) i = Some a ->
  nth_error (customers ++ [depot]) j = Some b ->
  readMatrix (generateTimeMatrix (customers ++ [depot]))
             (matrixIndex depot customers a) (matrixIndex depot customers b)
  = Return (Num (if Nat.eqb i j then 0%Z else travelMinutes a b)) /\
  exists a' b',
    nth_error (depot :: customers) i = Some a' /\
    nth_error (depot :: customers) j = Some b' /\
    readMatrix (appTimeMatrix depot customers)
               (matrixIndex depot customers a) (matrixIndex depot customers b)
    = Return (Num (if Nat.eqb i j then 0%Z else travelMinutes a' b')).
Proof.
  intros Hnd Ha Hb.
  unfold matrixIndex, findIndex.
  rewrite (@findIndexFrom_nth a _ i 0%Z Hnd Ha), (@findIndexFrom_nth b _ j 0%Z Hnd Hb).
  rewrite !Z.add_0_l.
  split.
  - apply readMatrix_entry. rewrite entry_generateTimeMatrix, Ha, Hb. reflexivity.
  - assert (Hlen : length (depot :: customers) = length (customers ++ [depot])).
    { rewrite length_app. simpl. lia. }
    assert (Hi : (i < length (depot :: customers))%nat).
    { rewrite Hlen. apply nth_error_Some. congruence. }
    assert (Hj : (j < length (depot :: customers))%nat).
    { rewrite Hlen. apply nth_error_Some. congruence. }
    destruct (nth_error (depot :: customers) i) as [a'|] eqn:Ha';
      [|apply nth_error_None in Ha'; lia].
    destruct (nth_error (depot :: customers) j) as [b'|] eqn:Hb';
      [|apply nth_error_None in Hb'; lia].
    exists a', b'. split; [reflexivity|]. split; [reflexivity|].
    apply readMatrix_entry. unfold appTimeMatrix.
    rewrite entry_generateTimeMatrix, Ha', Hb'. reflexivity.
Qed.

Lemma app_matrix_is_read_one_position_off_witness :
  readMatrix (generateTimeMatrix (sampleCustomers ++ [sampleDepot]))
             (matrixIndex sampleDepot sampleCustomers north)
             (matrixIndex sampleDepot sampleCustomers annex)
  = Return (Num (travelMinutes north annex)) /\
  exists a' b',
    nth_error (sampleDepot :: sampleCustomers) 0 = Some a' /\
    nth_error (sampleDepot :: sampleCustomers) 1 = Some b' /\
    readMatrix (appTimeMatrix sampleDepot sampleCustomers)
               (matrixIndex sampleDepot sampleCustomers north)
               (matrixIndex sampleDepot sampleCustomers annex)
    = Return (Num (travelMinutes a' b')).
Proof.
  apply (@app_matrix_is_read_one_position_off sampleDepot sampleCustomers 0 1 north annex).
  - simpl. repeat constructor; simpl; intuition discriminate.
  - reflexivity.
  - reflexivity.
Defined.

(** ** What the result table shows for a solution of the solver *)

Section TableFacts.
Local Open Scope Z_scope.

Variable depot : Location.
Variable customers : list Location.
Variable vehicles : list Vehicle.
Variable timeMatrix : list (list Z).

Lemma placeAll_withinCapacity (st : State) :
  Location.demand depot = 0 ->
  (forall customer, In customer customers -> 0 <= Location.demand customer) ->
  (forall vehicle, In vehicle vehicles -> 0 <= Vehicle.capacity vehicle) ->
  placeAll depot customers vehicles timeMatrix (sortByReadyTime customers)
           (initState depot vehicles) = Return st ->
  Forall (withinCapacity vehicles) (map (closeRoute depot) (routes st)).
Proof.
  intros Hdepot Hdemand Hcapacity Hloop.
  assert (Hall : Forall (withinCapacity vehicles) (routes st)).
  { eapply placeAll_routes_inv with (P := withinCapacity vehicles);
      [| | |exact Hloop].
    - intros a b Hsame ((vehicle & Hfind & Hfits) & Hnn).
      destruct a, b. unfold sameRoute in Hsame. simpl in Hsame.
      destruct Hsame as (Hv & Hl & _). subst. split; [|exact Hnn].
      exists vehicle. split; [exact Hfind|exact Hfits].
    - intros customer route s i Hc ((vehicle & Hfind & Hfits) & Hnn) _ Hallow _.
      assert (Hc' : In customer customers)
        by (apply (Permutation_in _ (sortByReadyTime_perm customers)); exact Hc).
      unfold capacityAllows in Hallow. rewrite Hfind in Hallow.
      apply negb_true_iff in Hallow. rewrite Z.gtb_ltb in Hallow.
      apply Z.ltb_ge in Hallow.
      split.
      + exists vehicle. split; [exact Hfind|].
        unfold totalDemand in *. cbn [insertInto Route.locations].
        rewrite fold_demand_splice. lia.
      + cbn [insertInto Route.locations]. apply splice_Forall; auto.
    - apply Forall_forall. intros route Hr.
      apply in_map_iff in Hr. destruct Hr as (vehicle & <- & Hv).
      split.
      + destruct (find_exists (fun v => String.eqb (Vehicle.id v) (Vehicle.id vehicle))
                              vehicles vehicle Hv (String.eqb_refl _)) as (found & Hfound).
        exists found. split; [exact Hfound|].
        apply find_some in Hfound. destruct Hfound as [Hfin _].
        specialize (Hcapacity _ Hfin). unfold totalDemand. simpl. lia.
      + simpl. constructor; [lia|constructor]. }
  apply Forall_forall. intros route Hin.
  apply in_map_iff in Hin. destruct Hin as (route0 & <- & Hin0).
  rewrite Forall_forall in Hall.
  apply closeRoute_withinCapacity; auto.
Qed.

Lemma fold_assigned_shift (rs : list Route) :
  forall a,
    fold_left (fun sum r => sum + Z.of_nat (length (Route.locations r)) - 2) rs a
    = a + assignedCustomersShown rs.
Proof.
  unfold assignedCustomersShown.
  induction rs as [|r rs IH]; intros a; cbn [fold_left]; [lia|].
  rewrite (IH (a + Z.of_nat (length (Route.locations r)) - 2)).
  rewrite (IH (0 + Z.of_nat (length (Route.locations r)) - 2)). lia.
Qed.

Lemma assignedCustomersShown_closed (rs : list Route) :
  (forall customer, In customer customers ->
                    Location.id customer <> Location.id depot) ->
  Forall (openRoute depot customers) rs ->
  assignedCustomersShown (map (closeRoute depot) rs)
  = Z.of_nat (length (concat (map stops rs)))
    - Z.of_nat (length (filter (fun r => (length (Route.locations r) =? 1)%nat)
                               (map (closeRoute depot) rs))).
Proof.
  intros Hids. induction 1 as [|route rs (mid & Hloc & Hmid) _ IH].
  - reflexivity.
  - cbn [map concat filter]. unfold assignedCustomersShown. cbn [fold_left].
    rewrite fold_assigned_shift, IH. rewrite length_app.
    assert (Hstops : stops route = mid) by (unfold stops; rewrite Hloc; reflexivity).
    rewrite Hstops.
    assert (Hshape : Route.locations (closeRoute depot route) =
                     match mid with
                     | [] => [depot]
                     | _ :: _ => depot :: mid ++ [depot]
                     end).
    { unfold closeRoute. rewrite Hloc. destruct mid as [|x mid'].
      - simpl. exact Hloc.
      - rewrite last_cons_nonempty.
        assert (Hlast : In (last (x :: mid') depot) customers).
        { rewrite Forall_forall in Hmid. apply Hmid. apply last_In. }
        apply Hids in Hlast. apply String.eqb_neq in Hlast. rewrite Hlast.
        reflexivity. }
    rewrite Hshape. destruct mid as [|x mid'].
    + cbn [length Nat.eqb]. lia.
    + cbn [length]. rewrite length_app. cbn [length Nat.eqb].
      replace (S (length mid') + 1 =? 0)%nat with false
        by (symmetry; apply Nat.eqb_neq; lia).
      lia.
Qed.
End TableFacts.

(** X9: for a solution that the solver returns on an input whose demands
    and capacities are whole numbers, with demand 0 at the depot and no
    negative customer demand or vehicle capacity, the per-vehicle analysis
    of the result table marks no route as overloaded, and its infeasibility
    analysis finds no route exceeding its vehicle's capacity.  (On decimal
    demands the table can show a route of the solver overloaded, see
    [decimal_demands_round_past_capacity].) *)
Theorem solver_routes_never_shown_overloaded
        (depot : Location) (customers : list Location) (vehicles : list Vehicle)
        (timeMatrix : list (list Z)) (sol : VRPTWSolution) :
  Location.demand depot = 0%Z ->
  (forall customer, In customer customers -> (0 <= Location.demand customer)%Z) ->
  (forall vehicle, In vehicle vehicles -> (0 <= Vehicle.capacity vehicle)%Z) ->
  solveVRPTW depot customers vehicles timeMatrix = Return sol ->
  (forall route, In route (Solution.routes sol) -> isOverloaded vehicles route = false) /\
  someRouteExceedsCapacity vehicles (Solution.routes sol) = false.
Proof.
  intros Hdepot Hdemand Hcapacity Hrun.
  apply solveVRPTW_returns in Hrun. destruct Hrun as (st & Hloop & ->).
  cbn [Solution.routes].
  pose proof (@placeAll_withinCapacity depot customers vehicles timeMatrix st
                Hdepot Hdemand Hcapacity Hloop) as Hall.
  rewrite Forall_forall in Hall.
  split.
  - intros route Hin. destruct (Hall route Hin) as ((vehicle & Hfind & Hfits) & _).
    unfold isOverloaded, orZero. rewrite Hfind. rewrite Z.gtb_ltb. apply Z.ltb_ge.
    destruct (Z.eqb_spec (Vehicle.capacity vehicle) 0); lia.
  - unfold someRouteExceedsCapacity.
    destruct (existsb _ _) eqn:Hex; [|reflexivity].
    apply existsb_exists in Hex. destruct Hex as (route & Hin & Hover).
    destruct (Hall route Hin) as ((vehicle & Hfind & Hfits) & _).
    rewrite Hfind in Hover. rewrite Z.gtb_ltb in Hover. apply Z.ltb_lt in Hover. lia.
Qed.

Lemma solver_routes_never_shown_overloaded_witness :
  exists sol,
    solveVRPTW sampleDepot sampleCustomers sampleVehicles sampleMatrix = Return sol /\
    (forall route, In route (Solution.routes sol) ->
                   isOverloaded sampleVehicles route = false) /\
    someRouteExceedsCapacity sampleVehicles (Solution.routes sol) = false.
Proof.
  eexists. split.
  - reflexivity.
  - apply (@solver_routes_never_shown_overloaded
             sampleDepot sampleCustomers sampleVehicles sampleMatrix).
    + reflexivity.
    + intros customer [<-|[<-|[<-|[]]]]; simpl; lia.
    + intros vehicle [<-|[]]; simpl; lia.
    + reflexivity.
Defined.

(** X10: the figure that the result table shows as assigned customers adds
    [locations.length - 2] over the routes, so a route that stayed at the
    depot alone counts as -1.  For a solution of the solver on an input
    whose customers' identifiers differ from the depot's, the figure plus
    the number of unassigned customers is the number of customers minus the
    number of routes without customers. *)
Theorem assigned_figure_misses_one_per_unused_vehicle
        (depot : Location) (customers : list Location) (vehicles : list Vehicle)
        (timeMatrix : list (list Z)) (sol : VRPTWSolution) :
  (forall customer, In customer customers ->
                    Location.id customer <> Location.id depot) ->
  solveVRPTW depot customers vehicles timeMatrix = Return sol ->
  (assignedCustomersShown (Solution.routes sol)
   + Z.of_nat (length (Solution.unassignedLocations sol))
   = Z.of_nat (length customers)
     - Z.of_nat (length (filter (fun r => (length (Route.locations r) =? 1)%nat)
                                (Solution.routes sol))))%Z.
Proof.
  intros Hids Hrun.
  apply solveVRPTW_returns in Hrun. destruct Hrun as (st & Hloop & ->).
  cbn [Solution.routes Solution.unassignedLocations].
  pose proof (solveVRPTW_openRoute _ _ _ _ Hloop) as Hopen.
  rewrite (@assignedCustomersShown_closed depot customers (routes st) Hids Hopen).
  apply placeAll_partition in Hloop. destruct Hloop as [Hperm _].
  apply Permutation_length in Hperm.
  unfold placedCustomers in Hperm. rewrite !length_app in Hperm.
  rewrite (Permutation_length (sortByReadyTime_perm customers)) in Hperm.
  cbn [initState routes unassignedLocations] in Hperm.
  rewrite map_map in Hperm. unfold stops at 2 in Hperm. cbn in Hperm.
  rewrite concat_map_nil in Hperm. simpl in Hperm. lia.
Qed.

Lemma assigned_figure_misses_one_per_unused_vehicle_witness :
  exists sol,
    solveVRPTW sampleDepot sampleCustomers
               [sampleVehicle "v1" 100; sampleVehicle "v2" 100] sampleMatrix
    = Return sol /\
    (assignedCustomersShown (Solution.routes sol)
     + Z.of_nat (length (Solution.unassignedLocations sol))
     = Z.of_nat (length sampleCustomers)
       - Z.of_nat (length (filter (fun r => (length (Route.locations r) =? 1)%nat)
                                  (Solution.routes sol))))%Z.
Proof.
  eexists. split.
  - reflexivity.
  - apply (@assigned_figure_misses_one_per_unused_vehicle
             sampleDepot sampleCustomers
             [sampleVehicle "v1" 100; sampleVehicle "v2" 100] sampleMatrix).
    + intros customer [<-|[<-|[<-|[]]]]; discriminate.
    + reflexivity.
Defined.

(** ** What the map shows for a solution of the solver *)

Lemma existsb_same_id (c : Location) (l : list Location) :
  In c l ->
  existsb (fun loc => String.eqb (Location.id loc) (Location.id c)) l = true.
Proof.
  intros Hin. apply existsb_exists. exists c. split; [exact Hin|].
  apply String.eqb_refl.
Qed.

Lemma filter_all_false {A : Type} (f : A -> bool) (l : list A) :
  (forall x, In x l -> f x = false) -> filter f l = [].
Proof.
  induction l as [|x l IH]; intros H; simpl; [reflexivity|].
  rewrite (H x (or_introl eq_refl)). apply IH. intros y Hy. apply H. right. exact Hy.
Qed.

Lemma closeRoute_keeps_locations (depot : Location) (route : Route) (x : Location) :
  In x (Route.locations route) -> In x (Route.locations (closeRoute depot route)).
Proof.
  intros Hin. closeRoute_cases depot route; [|exact Hin].
  cbn [Route.locations]. apply in_or_app. left. exact Hin.
Qed.

(** X11: given the routes and the unassigned customers of the solution that
    the solver returns for the current customers, the map draws no customer
    as pending. *)
Theorem map_shows_no_pending_customer_after_solve
        (depot : Location) (customers : list Location) (vehicles : list Vehicle)
        (timeMatrix : list (list Z)) (sol : VRPTWSolution) :
  solveVRPTW depot customers vehicles timeMatrix = Return sol ->
  pendingCustomers depot (Solution.routes sol) (Solution.unassignedLocations sol)
                   customers = [].
Proof.
  intros Hrun.
  apply solveVRPTW_returns in Hrun. destruct Hrun as (st & Hloop & ->).
  cbn [Solution.routes Solution.unassignedLocations].
  apply placeAll_partition in Hloop. destruct Hloop as [Hperm _].
  unfold pendingCustomers. apply filter_all_false. intros c Hc.
  assert (Hplaced : In c (placedCustomers st)).
  { apply (Permutation_in _ (Permutation_sym Hperm)).
    apply in_or_app. left.
    apply (Permutation_in _ (Permutation_sym (sortByReadyTime_perm customers))).
    exact Hc. }
  unfold placedCustomers in Hplaced. apply in_app_or in Hplaced.
  destruct Hplaced as [Hroute|Hun].
  - apply in_concat in Hroute. destruct Hroute as (mid & Hmid & Hin).
    apply in_map_iff in Hmid. destruct Hmid as (route & <- & Hr).
    assert (Hon : existsb (fun r =>
                             existsb (fun loc => String.eqb (Location.id loc)
                                                            (Location.id c))
                                     (Route.locations r))
                          (map (closeRoute depot) (routes st)) = true).
    { apply existsb_exists. exists (closeRoute depot route). split.
      - apply in_map. exact Hr.
      - apply existsb_same_id. apply closeRoute_keeps_locations.
        unfold stops in Hin. destruct (Route.locations route); [destruct Hin|].
        right. exact Hin. }
    rewrite Hon. reflexivity.
  - rewrite (existsb_same_id c _ Hun). rewrite andb_false_r. reflexivity.
Qed.

Lemma map_shows_no_pending_customer_after_solve_witness :
  exists sol,
    solveVRPTW sampleDepot sampleCustomers sampleVehicles sampleMatrix = Return sol /\
    pendingCustomers sampleDepot (Solution.routes sol)
                     (Solution.unassignedLocations sol) sampleCustomers = [].
Proof.
  eexists. split.
  - reflexivity.
  - apply (@map_shows_no_pending_customer_after_solve
             sampleDepot sampleCustomers sampleVehicles sampleMatrix).
    reflexivity.
Defined.

(** * Clock times as text *)

Section ClockText.
Local Open Scope string_scope.

(** The strings of decimal digits, with the number they spell. *)
Lemma uint_of_string_zeros (k : nat) (s : string) (d : Decimal.uint) :
  NilEmpty.uint_of_string s = Some d ->
  NilEmpty.uint_of_string (repeatChar "0" k ++ s)
  = Some (Nat.iter k Decimal.D0 d).
Proof.
  intros Hs. induction k as [|k IH]; simpl; [exact Hs|].
  rewrite IH. reflexivity.
Qed.

Lemma of_uint_zeros (k : nat) (d : Decimal.uint) :
  Z.of_uint (Nat.iter k Decimal.D0 d) = Z.of_uint d.
Proof.
  induction k as [|k IH]; [reflexivity|]. simpl Nat.iter.
  rewrite <- IH. reflexivity.
Qed.

Lemma digits_not_minus (s : string) (d : Decimal.uint) :
  NilEmpty.uint_of_string s = Some d ->
  NilEmpty.int_of_string s = Some (Decimal.Pos d).
Proof.
  destruct s as [|a s']; simpl.
  - intros H. inversion H. reflexivity.
  - intros H. destruct (Ascii.eqb_spec a "-") as [->|_].
    + destruct (NilEmpty.uint_of_string s'); simpl in H; discriminate.
    + rewrite H. reflexivity.
Qed.

Lemma digits_no_colon (s : string) (d : Decimal.uint) :
  NilEmpty.uint_of_string s = Some d ->
  forall rest, stringSplit ":" (s ++ String ":" rest) = s :: stringSplit ":" rest.
Proof.
  revert d. induction s as [|a s' IH]; intros d H rest.
  - reflexivity.
  - simpl in H.
    destruct (NilEmpty.uint_of_string s') as [d'|] eqn:Hs'; [|discriminate].
    cbn [append stringSplit].
    destruct (Ascii.eqb_spec a ":") as [->|_]; [simpl in H; discriminate|].
    rewrite (IH d' eq_refl rest). reflexivity.
Qed.

Lemma digits_one_piece (s : string) (d : Decimal.uint) :
  NilEmpty.uint_of_string s = Some d -> stringSplit ":" s = [s].
Proof.
  revert d. induction s as [|a s' IH]; intros d H.
  - reflexivity.
  - simpl in H.
    destruct (NilEmpty.uint_of_string s') as [d'|] eqn:Hs'; [|discriminate].
    cbn [stringSplit].
    destruct (Ascii.eqb_spec a ":") as [->|_]; [simpl in H; discriminate|].
    rewrite (IH d' eq_refl). reflexivity.
Qed.

(** A non-negative integer, printed and padded, is a string of digits that
    spells it. *)
Lemma padded_digits (n : Z) :
  (0 <= n)%Z ->
  exists d,
    NilEmpty.uint_of_string (padStart 2 "0" (numberToString n)) = Some d /\
    Z.of_uint d = n.
Proof.
  intros Hn. unfold padStart, numberToString.
  assert (Hprint : exists d0,
             Z.to_int n = Decimal.Pos d0 /\ d0 <> Decimal.Nil /\ Z.of_uint d0 = n).
  { destruct n as [|p|p]; [| |lia].
    - exists (Decimal.D0 Decimal.Nil). repeat split; discriminate || reflexivity.
    - exists (Pos.to_uint p). split; [reflexivity|].
      split; [apply Unsigned.to_uint_nonnil|].
      unfold Z.of_uint. rewrite Unsigned.of_to. reflexivity. }
  destruct Hprint as (d0 & -> & Hnonnil & Hval).
  assert (Hstr : NilZero.string_of_int (Decimal.Pos d0) = NilEmpty.string_of_uint d0).
  { destruct d0; [congruence| | | | | | | | | |]; reflexivity. }
  rewrite Hstr.
  exists (Nat.iter (2 - String.length (NilEmpty.string_of_uint d0)) Decimal.D0 d0).
  split.
  - apply uint_of_string_zeros. apply NilEmpty.usu.
  - rewrite of_uint_zeros. exact Hval.
Qed.

Lemma stringToNumber_digits (s : string) (d : Decimal.uint) :
  NilEmpty.uint_of_string s = Some d ->
  stringToNumber s = Some (Num (Z.of_uint d)).
Proof.
  intros H. unfold stringToNumber. rewrite (digits_not_minus _ H). reflexivity.
Qed.
End ClockText.

(** X12: a non-negative whole number of minutes, written as a clock time by
    [formatTime] (or [minutesToTime]) and read back by [timeToMinutes], is
    unchanged. *)
Theorem timeToMinutes_formatTime (minutes : Z) :
  (0 <= minutes)%Z ->
  timeToMinutes (formatTime minutes) = Some (Num minutes).
Proof.
  intros Hm. unfold formatTime, timeToMinutes. cbv zeta.
  assert (Hh : (0 <= minutes / 60)%Z) by (apply Z.div_pos; lia).
  assert (Hr : (0 <= Z.rem minutes 60)%Z) by (apply Z.rem_nonneg; lia).
  destruct (padded_digits Hh) as (dh & Hdh & Hvh).
  destruct (padded_digits Hr) as (dr & Hdr & Hvr).
  change (":" ++ padStart 2 "0" (numberToString (Z.rem minutes 60)))%string
    with (String ":" (padStart 2 "0" (numberToString (Z.rem minutes 60)))).
  rewrite (digits_no_colon _ Hdh), (digits_one_piece _ Hdr).
  cbn [nth_error].
  rewrite (stringToNumber_digits _ Hdh), (stringToNumber_digits _ Hdr).
  rewrite Hvh, Hvr. simpl. f_equal. f_equal.
  rewrite Z.rem_mod_nonneg by lia.
  pose proof (Z.div_mod minutes 60). lia.
Qed.

Lemma timeToMinutes_formatTime_witness :
  timeToMinutes (formatTime 1020) = Some (Num 1020) /\ formatTime 1020 = "17:00"%string.
Proof.
  split.
  - apply (@timeToMinutes_formatTime 1020). lia.
  - reflexivity.
Defined.

(** Below zero the round trip fails: -1 is written "-1:-1" and read back
    as -61. *)
Example timeToMinutes_formatTime_negative :
  formatTime (-1) = "-1:-1"%string /\
  timeToMinutes (formatTime (-1)) = Some (Num (-61)).
Proof. split; reflexivity. Qed.

(** ** The timeline of a route *)

Lemma Math_ceil_nonneg (x : R) : (0 <= x)%R -> (0 <= Math_ceil x)%Z.
Proof.
  intros Hx. unfold Math_ceil.
  destruct (base_Int_part (- x)) as [Hup _].
  assert (H : (IZR (Int_part (- x)) <= IZR 0)%R) by (simpl; lra).
  apply le_IZR in H. lia.
Qed.

Section TimelineFacts.
Local Open Scope Z_scope.

Lemma chained_snoc (t0 t1 : Z) (events : list TimelineEvent.t) (event : TimelineEvent.t) :
  chained t0 events t1 ->
  TimelineEvent.start event = t1 ->
  chained t0 (events ++ [event]) (TimelineEvent.end_ event).
Proof.
  revert t0. induction events as [|e events IH]; intros t0 Hc Hs; cbn in *.
  - subst. split; reflexivity.
  - destruct Hc as [He Hc]. split; [exact He|]. apply IH; assumption.
Qed.

Lemma sumZ_app (l l' : list Z) : sumZ (l ++ l') = sumZ l + sumZ l'.
Proof.
  unfold sumZ. induction l as [|x l IH]; cbn [app fold_right]; [reflexivity|].
  rewrite IH. lia.
Qed.

Lemma eventsOf_snoc (k : TimelineEvent.kind) (events : list TimelineEvent.t)
      (event : TimelineEvent.t) :
  eventsOf k (events ++ [event])
  = eventsOf k events
    ++ (if TimelineEvent.kind_eqb (TimelineEvent.type event) k then [event] else []).
Proof. unfold eventsOf. rewrite filter_app. reflexivity. Qed.

Lemma totalDuration_snoc (k : TimelineEvent.kind) (events : list TimelineEvent.t)
      (event : TimelineEvent.t) :
  totalDuration k (events ++ [event])
  = totalDuration k events
    + (if TimelineEvent.kind_eqb (TimelineEvent.type event) k
       then TimelineEvent.end_ event - TimelineEvent.start event else 0).
Proof.
  unfold totalDuration. rewrite eventsOf_snoc, map_app, sumZ_app.
  destruct (TimelineEvent.kind_eqb (TimelineEvent.type event) k); cbn; lia.
Qed.

Lemma travelStep_accounts (line : Timeline) (location : Location) :
  timelineAccounts line -> timelineAccounts (travelStep line location).
Proof.
  intros (Hc & Ht & Hw & Hs & Hsum). unfold travelStep.
  destruct (previousLocation line) as [previous|]; [|repeat split; assumption].
  unfold timelineAccounts. cbn [currentTime timelineEvents totalTravelTime
                                totalWaitTime totalServiceTime].
  rewrite !totalDuration_snoc.
  cbn [TimelineEvent.kind_eqb TimelineEvent.type TimelineEvent.end_ TimelineEvent.start].
  split; [|lia].
  match goal with
  | |- chained _ (_ ++ [?e]) _ => apply (@chained_snoc 480 (currentTime line) _ e Hc)
  end.
  reflexivity.
Qed.

Lemma waitStep_accounts (line : Timeline) (location : Location) :
  timelineAccounts line -> timelineAccounts (waitStep line location).
Proof.
  intros (Hc & Ht & Hw & Hs & Hsum). unfold waitStep.
  destruct (currentTime line <? Location.readyTime location);
    [|repeat split; assumption].
  unfold timelineAccounts. cbn [currentTime timelineEvents totalTravelTime
                                totalWaitTime totalServiceTime].
  rewrite !totalDuration_snoc.
  cbn [TimelineEvent.kind_eqb TimelineEvent.type TimelineEvent.end_ TimelineEvent.start].
  split; [|lia].
  match goal with
  | |- chained _ (_ ++ [?e]) _ => apply (@chained_snoc 480 (currentTime line) _ e Hc)
  end.
  reflexivity.
Qed.

Lemma serviceStep_accounts (line : Timeline) (location : Location) :
  timelineAccounts line -> timelineAccounts (serviceStep line location).
Proof.
  intros (Hc & Ht & Hw & Hs & Hsum). unfold serviceStep.
  unfold timelineAccounts. cbn [currentTime timelineEvents totalTravelTime
                                totalWaitTime totalServiceTime].
  rewrite !totalDuration_snoc.
  cbn [TimelineEvent.kind_eqb TimelineEvent.type TimelineEvent.end_ TimelineEvent.start].
  split; [|lia].
  match goal with
  | |- chained _ (_ ++ [?e]) _ => apply (@chained_snoc 480 (currentTime line) _ e Hc)
  end.
  reflexivity.
Qed.

Lemma fold_timelineStep_accounts (locations : list Location) (line : Timeline) :
  timelineAccounts line -> timelineAccounts (fold_left timelineStep locations line).
Proof.
  revert line. induction locations as [|l locations IH]; intros line H; cbn [fold_left].
  - exact H.
  - apply IH. unfold timelineStep.
    apply serviceStep_accounts, waitStep_accounts, travelStep_accounts, H.
Qed.

Lemma travelStep_events (line : Timeline) (location : Location) :
  Forall eventOk (timelineEvents line) ->
  Forall eventOk (timelineEvents (travelStep line location)) /\
  eventsOf TimelineEvent.service (timelineEvents (travelStep line location))
  = eventsOf TimelineEvent.service (timelineEvents line).
Proof.
  intros H. unfold travelStep.
  destruct (previousLocation line) as [previous|]; [|split; [exact H|reflexivity]].
  cbn [timelineEvents]. split.
  - apply Forall_app. split; [exact H|]. constructor; [|constructor].
    unfold eventOk. cbn.
  assert (0 <= Math_ceil (calculateDistance (Location.lat previous) (Location.lng previous)
                            (Location.lat location) (Location.lng location) / 30 * 60)).
    { apply Math_ceil_nonneg.
      pose proof (calculateDistance_range (Location.lat previous) (Location.lng previous)
                    (Location.lat location) (Location.lng location)) as [Hd _].
      lra. }
    lia.
  - rewrite eventsOf_snoc. cbn. apply app_nil_r.
Qed.

Lemma waitStep_events (line : Timeline) (location : Location) :
  Forall eventOk (timelineEvents line) ->
  Forall eventOk (timelineEvents (waitStep line location)) /\
  eventsOf TimelineEvent.service (timelineEvents (waitStep line location))
  = eventsOf TimelineEvent.service (timelineEvents line) /\
  Location.readyTime location <= currentTime (waitStep line location).
Proof.
  intros H. unfold waitStep.
  destruct (currentTime line <? Location.readyTime location) eqn:Hlt.
  - apply Z.ltb_lt in Hlt. cbn [timelineEvents currentTime]. repeat split.
    + apply Forall_app. split; [exact H|]. constructor; [|constructor].
      unfold eventOk. cbn. exact Hlt.
    + rewrite eventsOf_snoc. cbn. apply app_nil_r.
    + lia.
  - apply Z.ltb_ge in Hlt. repeat split; [exact H|exact Hlt].
Qed.

Lemma fold_timelineStep_events (locations visited : list Location) (line : Timeline) :
  Forall eventOk (timelineEvents line) ->
  map TimelineEvent.location (eventsOf TimelineEvent.service (timelineEvents line))
  = map Some visited ->
  Forall eventOk (timelineEvents (fold_left timelineStep locations line)) /\
  map TimelineEvent.location
      (eventsOf TimelineEvent.service (timelineEvents (fold_left timelineStep locations line)))
  = map Some (visited ++ locations).
Proof.
  revert visited line.
  induction locations as [|l locations IH]; intros visited line Hok Hmap; cbn [fold_left].
  - rewrite app_nil_r. split; assumption.
  - replace (visited ++ l :: locations) with ((visited ++ [l]) ++ locations)
      by (rewrite <- app_assoc; reflexivity).
    destruct (@travelStep_events line l Hok) as [Hok1 Hs1].
    destruct (@waitStep_events (travelStep line l) l Hok1) as (Hok2 & Hs2 & Hready).
    apply IH; unfold timelineStep, serviceStep; cbn [timelineEvents].
    + apply Forall_app. split; [exact Hok2|]. constructor; [|constructor].
      unfold eventOk. cbn. exact Hready.
    + rewrite eventsOf_snoc. cbn. rewrite !map_app, Hs2, Hs1, Hmap. reflexivity.
Qed.

(** The last event of the timeline of a non-empty route is the service at
    its last location, and the clock stops where it ends. *)
Lemma fold_timelineStep_last (locations : list Location) (last : Location) (line : Timeline) :
  exists events event,
    timelineEvents (fold_left timelineStep (locations ++ [last]) line) = events ++ [event] /\
    TimelineEvent.type event = TimelineEvent.service /\
    TimelineEvent.location event = Some last /\
    TimelineEvent.end_ event = currentTime (fold_left timelineStep (locations ++ [last]) line).
Proof.
  rewrite fold_left_app. cbn [fold_left]. unfold timelineStep at 1, serviceStep.
  cbn [timelineEvents currentTime].
  eexists _, _. split; [reflexivity|]. cbn. repeat split.
Qed.

Lemma fold_violationStep_nil (events : list TimelineEvent.t)
      (timeViolations : list TimeViolation.t) (lastEndTime : Z) :
  fst (fold_left violationStep events (timeViolations, lastEndTime)) = [] <->
  timeViolations = [] /\ Forall onTime events.
Proof.
  revert timeViolations lastEndTime.
  induction events as [|e events IH]; intros vs t; cbn [fold_left].
  - cbn. split; [intros H; split; [exact H|constructor]|intros [H _]; exact H].
  - unfold violationStep at 2.
    destruct (TimelineEvent.type e) eqn:Hty.
    + rewrite IH. split; intros [Hv Hf]; (split; [exact Hv|]).
      * constructor; [unfold onTime; rewrite Hty; exact I|exact Hf].
      * inversion Hf; assumption.
    + destruct (TimelineEvent.location e) as [l|] eqn:Hloc.
      * destruct (TimelineEvent.start e >? Location.dueTime l) eqn:Hgt.
        -- rewrite IH. split.
           ++ intros [Hv _]. destruct vs; discriminate Hv.
           ++ intros [_ Hf]. inversion Hf as [|? ? He _]. subst.
              unfold onTime in He. rewrite Hty, Hloc in He.
              rewrite Z.gtb_ltb in Hgt. apply Z.ltb_lt in Hgt. lia.
        -- rewrite IH. split; intros [Hv Hf]; (split; [exact Hv|]).
           ++ constructor; [|exact Hf]. unfold onTime. rewrite Hty, Hloc.
              rewrite Z.gtb_ltb in Hgt. apply Z.ltb_ge in Hgt. exact Hgt.
           ++ inversion Hf; assumption.
      * rewrite IH. split; intros [Hv Hf]; (split; [exact Hv|]).
        -- constructor; [unfold onTime; rewrite Hty, Hloc; exact I|exact Hf].
        -- inversion Hf; assumption.
    + rewrite IH. split; intros [Hv Hf]; (split; [exact Hv|]).
      * constructor; [unfold onTime; rewrite Hty; exact I|exact Hf].
      * inversion Hf; assumption.
Qed.

Lemma timeViolationsOf_nil (events : list TimelineEvent.t) :
  timeViolationsOf events = [] <->
  Forall onTime events /\ snd (fold_left violationStep events ([], 0)) <= 1020.
Proof.
  unfold timeViolationsOf.
  pose proof (fold_violationStep_nil events [] 0) as Hnil.
  destruct (fold_left violationStep events ([], 0)) as [vs t]. cbn [fst snd] in *.
  destruct (t >? 1020) eqn:Hgt; rewrite Z.gtb_ltb in Hgt.
  - apply Z.ltb_lt in Hgt. split.
    + intros H. destruct vs; discriminate H.
    + intros [_ H]. lia.
  - apply Z.ltb_ge in Hgt. rewrite Hnil. split.
    + intros [_ H]. split; assumption.
    + intros [H _]. split; [reflexivity|exact H].
Qed.

(** After a non-empty route, [lastEndTime] is the final clock. *)
Lemma lastEndTime_is_final_clock (locations : list Location) :
  locations <> [] ->
  snd (fold_left violationStep
                 (timelineEvents (fold_left timelineStep locations initTimeline)) ([], 0))
  = currentTime (fold_left timelineStep locations initTimeline).
Proof.
  intros Hne. destruct (exists_last Hne) as (front & last & ->).
  destruct (fold_timelineStep_last front last initTimeline)
    as (events & event & Hev & Hty & Hloc & Hcur).
  rewrite Hev, fold_left_app. cbn [fold_left].
  destruct (fold_left violationStep events ([], 0)) as [vs t].
  unfold violationStep. rewrite Hty, Hloc. cbn [snd]. exact Hcur.
Qed.
End TimelineFacts.

(** X13: for a route whose locations have whole numbers as ready times
    and service times, the timeline that [SolutionTable] builds leaves no
    gap and no overlap: the first event starts at 480, every event starts
    when the one before it ends, and the clock stops at the end of the last
    one.  The three totals are the summed durations of the travel, wait and
    service events, and the final clock is 480 plus the three totals.  (On
    decimal service times the clock and the totals are rounded apart, see
    [decimal_service_times_round_the_clock].) *)
Theorem routeTimeline_tiles_the_day (route : Route) :
  (chained 480 (timelineEvents (routeTimeline route)) (currentTime (routeTimeline route)) /\
   totalTravelTime (routeTimeline route)
   = totalDuration TimelineEvent.travel (timelineEvents (routeTimeline route)) /\
   totalWaitTime (routeTimeline route)
   = totalDuration TimelineEvent.wait (timelineEvents (routeTimeline route)) /\
   totalServiceTime (routeTimeline route)
   = totalDuration TimelineEvent.service (timelineEvents (routeTimeline route)) /\
   currentTime (routeTimeline route)
   = 480 + totalTravelTime (routeTimeline route) + totalWaitTime (routeTimeline route)
     + totalServiceTime (routeTimeline route))%Z.
Proof.
  unfold routeTimeline. apply fold_timelineStep_accounts.
  unfold timelineAccounts, totalDuration. cbn. repeat split.
Qed.

(** X14: the timeline has exactly one service event per location of the
    route, in route order; no service starts before the ready time of its
    location, every wait event lasts at least one minute and no travel event
    has a negative duration. *)
Theorem routeTimeline_serves_each_stop_in_order (route : Route) :
  map TimelineEvent.location
      (eventsOf TimelineEvent.service (timelineEvents (routeTimeline route)))
  = map Some (Route.locations route) /\
  Forall eventOk (timelineEvents (routeTimeline route)).
Proof.
  unfold routeTimeline.
  destruct (@fold_timelineStep_events (Route.locations route) [] initTimeline)
    as [Hok Hmap]; [constructor|reflexivity|].
  split; [exact Hmap|exact Hok].
Qed.

(** X15: the timeline of a route is shown without time violation exactly
    when every service starts no later than the due time of its location and
    the timeline ends no later than 1020, the closing time of the depot. *)
Theorem routeTimeline_no_violation_iff (route : Route) :
  timeViolationsOf (timelineEvents (routeTimeline route)) = [] <->
  Forall onTime (timelineEvents (routeTimeline route)) /\
  (currentTime (routeTimeline route) <= 1020)%Z.
Proof.
  rewrite timeViolationsOf_nil.
  unfold routeTimeline. destruct (Route.locations route) as [|first rest] eqn:Hlocs.
  - cbn. split; intros [H _]; (split; [exact H|lia]).
  - rewrite lastEndTime_is_final_clock by discriminate. reflexivity.
Qed.

(** ** The fleet handlers *)

Lemma findVehicle_handleVehicleChange (vehicles : list Vehicle) (vehicleId : string)
      (capacity : Z) (route : Route) :
  findVehicle (handleVehicleChange vehicles vehicleId capacity) route
  = option_map (fun vehicle =>
                  if String.eqb (Vehicle.id vehicle) vehicleId then
                    {| Vehicle.id := Vehicle.id vehicle;
                       Vehicle.capacity := capacity;
                       Vehicle.startLocation := Vehicle.startLocation vehicle;
                       Vehicle.endLocation := Vehicle.endLocation vehicle;
                       Vehicle.color := Vehicle.color vehicle |}
                  else vehicle)
               (findVehicle vehicles route).
Proof.
  unfold findVehicle, handleVehicleChange.
  induction vehicles as [|v vehicles IH]; cbn [map find option_map]; [reflexivity|].
  destruct (String.eqb (Vehicle.id v) vehicleId) eqn:Hid; cbn [Vehicle.id];
    destruct (String.eqb (Vehicle.id v) (Route.vehicleId route));
    cbn [option_map]; try rewrite Hid; try reflexivity; exact IH.
Qed.

Lemma findVehicle_id (vehicles : list Vehicle) (route : Route) (vehicle : Vehicle) :
  findVehicle vehicles route = Some vehicle ->
  Vehicle.id vehicle = Route.vehicleId route.
Proof.
  unfold findVehicle. intros H. apply find_some in H. destruct H as [_ H].
  apply String.eqb_eq in H. exact H.
Qed.

Lemma findVehicle_handleRemoveVehicle (vehicles : list Vehicle) (vehicleId : string)
      (route : Route) :
  findVehicle (handleRemoveVehicle vehicles vehicleId) route
  = if String.eqb (Route.vehicleId route) vehicleId then None
    else findVehicle vehicles route.
Proof.
  unfold findVehicle, handleRemoveVehicle.
  induction vehicles as [|v vehicles IH]; cbn [filter find].
  - destruct (String.eqb (Route.vehicleId route) vehicleId); reflexivity.
  - destruct (String.eqb (Vehicle.id v) vehicleId) eqn:Hid; cbn [negb].
    + rewrite IH.
      destruct (String.eqb (Route.vehicleId route) vehicleId) eqn:Hr; [reflexivity|].
      destruct (String.eqb (Vehicle.id v) (Route.vehicleId route)) eqn:Hv; [|reflexivity].
      apply String.eqb_eq in Hid, Hv. apply String.eqb_neq in Hr. congruence.
    + cbn [find].
      destruct (String.eqb (Vehicle.id v) (Route.vehicleId route)) eqn:Hv.
      * destruct (String.eqb (Route.vehicleId route) vehicleId) eqn:Hr; [|reflexivity].
        apply String.eqb_eq in Hr, Hv. apply String.eqb_neq in Hid. congruence.
      * exact IH.
Qed.

(** X16: [handleVehicleChange] keeps the identifiers of the fleet in
    place; afterwards the vehicle found for a route of the given id, if
    there is one, has the new capacity, and the vehicle found for any other
    route is the one found before. *)
Theorem handleVehicleChange_sets_that_capacity_only
        (vehicles : list Vehicle) (vehicleId : string) (capacity : Z) :
  map Vehicle.id (handleVehicleChange vehicles vehicleId capacity) = map Vehicle.id vehicles /\
  (forall route, Route.vehicleId route = vehicleId ->
     option_map Vehicle.capacity
                (findVehicle (handleVehicleChange vehicles vehicleId capacity) route)
     = option_map (fun _ => capacity) (findVehicle vehicles route)) /\
  (forall route, Route.vehicleId route <> vehicleId ->
     findVehicle (handleVehicleChange vehicles vehicleId capacity) route
     = findVehicle vehicles route).
Proof.
  split; [|split].
  - unfold handleVehicleChange. rewrite map_map. apply map_ext. intros v.
    destruct (String.eqb (Vehicle.id v) vehicleId); reflexivity.
  - intros route Hid. rewrite findVehicle_handleVehicleChange.
    destruct (findVehicle vehicles route) as [v|] eqn:Hfind; [|reflexivity].
    apply findVehicle_id in Hfind. cbn [option_map].
    replace (String.eqb (Vehicle.id v) vehicleId) with true
      by (symmetry; apply String.eqb_eq; congruence).
    reflexivity.
  - intros route Hid. rewrite findVehicle_handleVehicleChange.
    destruct (findVehicle vehicles route) as [v|] eqn:Hfind; [|reflexivity].
    apply findVehicle_id in Hfind. cbn [option_map].
    replace (String.eqb (Vehicle.id v) vehicleId) with false
      by (symmetry; apply String.eqb_neq; congruence).
    reflexivity.
Qed.

(** X17: after [handleRemoveVehicle] no vehicle is found for a route of
    the removed id, so that the table, which then compares with capacity 0,
    shows such a route overloaded exactly when its demand is positive; the
    vehicle found for any other route is the one found before. *)
Theorem removed_vehicle_leaves_its_route_without_capacity
        (vehicles : list Vehicle) (vehicleId : string) :
  (forall route, Route.vehicleId route = vehicleId ->
     findVehicle (handleRemoveVehicle vehicles vehicleId) route = None /\
     isOverloaded (handleRemoveVehicle vehicles vehicleId) route
     = (totalDemand route >? 0)%Z) /\
  (forall route, Route.vehicleId route <> vehicleId ->
     findVehicle (handleRemoveVehicle vehicles vehicleId) route
     = findVehicle vehicles route).
Proof.
  split; intros route Hid.
  - assert (H : findVehicle (handleRemoveVehicle vehicles vehicleId) route = None).
    { rewrite findVehicle_handleRemoveVehicle.
      apply String.eqb_eq in Hid. rewrite Hid. reflexivity. }
    split; [exact H|]. unfold isOverloaded. rewrite H. reflexivity.
  - rewrite findVehicle_handleRemoveVehicle.
    apply String.eqb_neq in Hid. rewrite Hid. reflexivity.
Qed.

Lemma handleRemoveVehicle_keeps (vehicles : list Vehicle) (vehicleId : string)
      (vehicle : Vehicle) :
  In vehicle vehicles -> Vehicle.id vehicle <> vehicleId ->
  In vehicle (handleRemoveVehicle vehicles vehicleId).
Proof.
  intros Hin Hid. unfold handleRemoveVehicle. apply filter_In. split; [exact Hin|].
  apply String.eqb_neq in Hid. rewrite Hid. reflexivity.
Qed.

(** X18: [handleAddVehicle] names the new vehicle after the size of the
    fleet, so after a removal the name can be taken: when one vehicle is
    removed from a fleet of n in which another vehicle has the id vn, the
    vehicle added next is also given the id vn. *)
Theorem handleAddVehicle_after_removal_repeats_an_id
        (vehicles : list Vehicle) (vehicleId : string) (capacity : Z) (vehicle : Vehicle) :
  In vehicle vehicles ->
  Vehicle.id vehicle = ("v" ++ numberToString (Z.of_nat (length vehicles)))%string ->
  Vehicle.id vehicle <> vehicleId ->
  S (length (handleRemoveVehicle vehicles vehicleId)) = length vehicles ->
  exists fleet added,
    handleAddVehicle (handleRemoveVehicle vehicles vehicleId) capacity
    = Return (fleet ++ [added]) /\
    fleet = handleRemoveVehicle vehicles vehicleId /\
    In vehicle fleet /\
    Vehicle.id added = Vehicle.id vehicle /\
    ~ NoDup (map Vehicle.id (fleet ++ [added])).
Proof.
  intros Hin Hname Hid Hlen.
  pose proof (@handleRemoveVehicle_keeps vehicles vehicleId vehicle Hin Hid) as Hkept.
  rewrite <- Hlen in Hname. clear Hlen.
  unfold handleAddVehicle. revert Hname Hkept.
  destruct (handleRemoveVehicle vehicles vehicleId) as [|first rest];
    intros Hname Hkept; [destruct Hkept|].
  cbn [nth_error]. eexists _, _. split; [reflexivity|].
  assert (Hsame : ("v" ++ numberToString (Z.of_nat (length (first :: rest)) + 1))%string
                  = Vehicle.id vehicle).
  { rewrite Hname. do 2 f_equal. lia. }
  split; [reflexivity|]. split; [exact Hkept|]. split; [exact Hsame|].
  rewrite map_app. intros Hnd.
  apply NoDup_remove_2 in Hnd. rewrite app_nil_r in Hnd.
  apply Hnd. cbn [Vehicle.id]. rewrite Hsame.
  apply (in_map Vehicle.id). exact Hkept.
Qed.

Lemma handleAddVehicle_after_removal_repeats_an_id_witness :
  exists fleet added,
    handleAddVehicle (handleRemoveVehicle [sampleVehicle "v1" 100; sampleVehicle "v2" 50] "v1") 50
    = Return (fleet ++ [added]) /\
    fleet = handleRemoveVehicle [sampleVehicle "v1" 100; sampleVehicle "v2" 50] "v1" /\
    In (sampleVehicle "v2" 50) fleet /\
    Vehicle.id added = Vehicle.id (sampleVehicle "v2" 50) /\
    ~ NoDup (map Vehicle.id (fleet ++ [added])).
Proof.
  apply (@handleAddVehicle_after_removal_repeats_an_id
           [sampleVehicle "v1" 100; sampleVehicle "v2" 50] "v1" 50 (sampleVehicle "v2" 50)).
  - right. left. reflexivity.
  - reflexivity.
  - discriminate.
  - reflexivity.
Defined.

(** ** Lengths of the routes and order of the unassigned customers *)

Lemma pathLength_range (locations : list Location) :
  (0 <= pathLength locations <= INR (pred (length locations)) * (6371 * PI))%R.
Proof.
  induction locations as [|from rest IH].
  - cbn. lra.
  - destruct rest as [|to rest'].
    + cbn. lra.
    + change (pathLength (from :: to :: rest'))
        with (legDistance (from, to) + pathLength (to :: rest'))%R.
      change (pred (length (from :: to :: rest'))) with (S (pred (length (to :: rest')))).
      rewrite S_INR.
      pose proof (calculateDistance_range (Location.lat from) (Location.lng from)
                                          (Location.lat to) (Location.lng to)) as Hleg.
      unfold legDistance. cbn [fst snd]. lra.
Qed.

Lemma sumR_nonneg (l : list R) : Forall (fun x => (0 <= x)%R) l -> (0 <= sumR l)%R.
Proof.
  unfold sumR. induction 1 as [|x l Hx _ IH]; cbn [fold_right]; lra.
Qed.


Section UnassignedOrder.
Variable depot : Location.
Variable customers : list Location.
Variable vehicles : list Vehicle.
Variable timeMatrix : list (list Z).

End UnassignedOrder.

(** X19: the length recorded for a route is never negative and at most
    half the circumference of the Earth (6371 pi kilometres) per leg; the
    total distance of the solution is never negative. *)
Theorem route_distances_nonneg_and_bounded
        (depot : Location) (customers : list Location) (vehicles : list Vehicle)
        (timeMatrix : list (list Z)) (sol : VRPTWSolution) :
  solveVRPTW depot customers vehicles timeMatrix = Return sol ->
  (forall route,
      In route (Solution.routes sol) ->
      (0 <= Route.totalDistance route
       <= INR (pred (length (Route.locations route))) * (6371 * PI))%R) /\
  (0 <= Solution.totalDistance sol)%R.
Proof.
  intros Hrun.
  apply solveVRPTW_returns in Hrun. destruct Hrun as (st & Hloop & ->).
  cbn [Solution.totalDistance Solution.routes].
  assert (Hall : Forall (fun route => Route.totalDistance route
                                      = recomputeDistance (Route.locations route))
                        (routes st)).
  { eapply placeAll_routes_inv
      with (P := fun route => Route.totalDistance route
                              = recomputeDistance (Route.locations route));
      [| | |exact Hloop].
    - intros a b (_ & Hl & Hd & _) Ha. congruence.
    - intros customer route s i _ _ _ _ _. reflexivity.
    - apply Forall_forall. intros route Hin.
      apply in_map_iff in Hin. destruct Hin as (vehicle & <- & _).
      cbn. unfold recomputeDistance. reflexivity. }
  rewrite Forall_forall in Hall.
  assert (Hroutes : forall route,
             In route (map (closeRoute depot) (routes st)) ->
             (0 <= Route.totalDistance route
              <= INR (pred (length (Route.locations route))) * (6371 * PI))%R).
  { intros route Hin. apply in_map_iff in Hin. destruct Hin as (route0 & <- & Hin0).
    rewrite (@closeRoute_distance depot route0 (Hall route0 Hin0)).
    rewrite recomputeDistance_pathLength. apply pathLength_range. }
  split; [exact Hroutes|].
  rewrite (fold_left_sum Route.totalDistance).
  assert (0 <= sumR (map Route.totalDistance (map (closeRoute depot) (routes st))))%R.
  { apply sumR_nonneg. apply Forall_forall. intros x Hx.
    apply in_map_iff in Hx. destruct Hx as (route & <- & Hin).
    apply Hroutes. exact Hin. }
  lra.
Qed.

Lemma route_distances_nonneg_and_bounded_witness :
  exists sol,
    solveVRPTW sampleDepot sampleCustomers sampleVehicles sampleMatrix = Return sol /\
    (forall route,
        In route (Solution.routes sol) ->
        (0 <= Route.totalDistance route
         <= INR (pred (length (Route.locations route))) * (6371 * PI))%R) /\
    (0 <= Solution.totalDistance sol)%R.
Proof.
  eexists. split.
  - reflexivity.
  - apply (@route_distances_nonneg_and_bounded
             sampleDepot sampleCustomers sampleVehicles sampleMatrix).
    reflexivity.
Defined.


